(** * The [shell] migration driver of liamoneill/migrate

    A shallow embedding of the three source files of the driver:

    - [src/database/shell/shell.go]: the relational variant, which keeps
      the version record in a single-row PostgreSQL table and serialises
      migrations with a session-level advisory lock (module [Pg]);
    - [src/unnamed/part_000]: the key-value variant, which keeps the
      version record in one DynamoDB item and supports a run timeout and a
      verbosity switch (module [KV]);
    - [src/unnamed/part_001]: the earlier key-value variant, identical to
      [part_000] except that [Run] has neither timeout nor verbosity
      (its [Run] is [KV.Run_v0]).

    The backing stores, the operating system and the Go standard library
    are collaborators of the driver.  They are modelled by executable
    definitions that follow their documented behaviour:

    - every call that leaves the process is recorded in a trace and may
      fail, as dictated by a script of injected faults carried by the
      world; a request that is made to fail has no effect on the store;
    - a transaction works on a copy of the tables, which a commit
      installs and a rollback (acknowledged or not) discards;
    - a read of the key-value store that does not ask for a consistent
      read may be served from an earlier state of the tables;
    - [pg_advisory_lock] is granted to one session at a time and waits
      otherwise; a method that waits for ever has no result ([None]);
    - several handles act on one server one call at a time;
    - a child process is described by whether it starts, when it exits
      and with which status, time being counted in nanoseconds. *)

From Stdlib Require Import ZArith Lia Bool List.
From Stdlib Require Import Ascii String Decimal DecimalString DecimalZ.
From stdpp Require Import base option list gmap strings.

Local Open Scope Z_scope.

(** ** Go integers *)

(** Go's [int] is 64 bits wide on the platforms the driver targets. *)
Definition MinInt : Z := - 2 ^ 63.
Definition MaxInt : Z := 2 ^ 63 - 1.

Definition is_int (v : Z) : Prop := MinInt <= v <= MaxInt.

Definition in_int (v : Z) : bool := (MinInt <=? v) && (v <=? MaxInt).

(** Two's complement wrap-around of a 64-bit signed product or sum. *)
Definition wrap64 (v : Z) : Z := (v + 2 ^ 63) mod 2 ^ 64 - 2 ^ 63.

(** [database.NilVersion] *)
Definition NilVersion : Z := -1.

(** ** [strconv] *)

Module strconv.

Inductive NumErr := ErrSyntax | ErrRange.

(** [strconv.Itoa]: the shortest decimal representation, with a leading
    minus sign for negative numbers. *)
Definition Itoa (v : Z) : string := NilZero.string_of_int (Z.to_int v).

(** A non-empty run of decimal digits. *)
Definition digits (s : string) : option Z :=
  option_map Z.of_uint (NilZero.uint_of_string s).

(** The value comes with the error: zero after a syntax error, the
    nearest bound after a range error. *)
Definition parse (neg : bool) (body : string) : Z * option NumErr :=
  match digits body with
  | None => (0, Some ErrSyntax)
  | Some n =>
      let v := if neg then - n else n in
      if in_int v then (v, None)
      else (if neg then MinInt else MaxInt, Some ErrRange)
  end.

(** [strconv.Atoi]: an optional sign followed by decimal digits; the
    value must fit an [int]. *)
Definition Atoi (s : string) : Z * option NumErr :=
  match s with
  | String a rest =>
      if Ascii.eqb a "+" then parse false rest
      else if Ascii.eqb a "-" then parse true rest
      else parse false s
  | EmptyString => (0, Some ErrSyntax)
  end.

(** [strconv.ParseBool] *)
Definition ParseBool (s : string) : bool + NumErr :=
  if bool_decide (s ∈ ["1"; "t"; "T"; "TRUE"; "true"; "True"]%string) then inl true
  else if bool_decide (s ∈ ["0"; "f"; "F"; "FALSE"; "false"; "False"]%string) then inl false
  else inr ErrSyntax.

End strconv.

(** ** Requests sent to the relational backend *)

(** A [context.Context] is represented by its deadline, a duration in
    nanoseconds; [context.Background()] has none. *)
Definition Context : Type := option Z.
Definition Background : Context := None.
Definition WithTimeout (parent : Context) (d : Z) : Context :=
  match parent with
  | Some d' => Some (Z.min d d')
  | None => Some d
  end.

(** The statements and protocol requests the relational variant issues.
    Identifiers are passed through [pq.QuoteIdentifier] in the source; the
    constructors carry the identifier that the quoted text denotes. *)
Inductive Request :=
| Ping
| AcquireConn
| SelectCurrentDatabase
| SelectCurrentSchema
| AdvisoryLock (aid : string)
| AdvisoryUnlock (aid : string)
| Begin
| Commit
| Rollback
| Truncate (table : string)
| InsertVersion (table : string) (version : Z) (dirty : bool)
| SelectVersion (table : string)
| ListTables
| RowsClose
| DropTable (table : string)
| CreateVersionTable (table : string)
| CloseDB.

(** ** Child processes *)

(** The way a child process ended, as [os.ProcessState] reports it. *)
Inductive ProcessState :=
| Exited (status : Z)
| Killed.

(** ** Go [error] values *)

#[warnings="-register-all"]
Inductive error :=
| ErrNoRows                                  (* sql.ErrNoRows *)
| ErrConnDone                                (* sql.ErrConnDone *)
| ErrLocked                                  (* database.ErrLocked *)
| ErrNilConfig
| ErrNoDatabaseName
| ErrNoSchema
| ErrDatabaseDirty
| PqError (code_name : string)               (* *pq.Error, by Code.Name() *)
| AwsError (code : string)                   (* awserr.Error, by Code() *)
| NumError (fn input : string) (why : strconv.NumErr)
| ErrorsNew (msg : string)                   (* errors.New *)
| Wrapf (msg : string) (wrapped : error)     (* fmt.Errorf("...: %w", err) *)
| CloseError (connErr dbErr : option error)  (* fmt.Errorf("conn: %v, db: %v", ..) *)
| DatabaseError (OrigErr : option error) (Err : string) (Query : option Request)
| MultiError (errs : list error)             (* *multierror.Error *)
| ExitError (state : ProcessState)           (* *exec.ExitError *)
| LaunchError (why : string)                 (* the file could not be started *)
| DeadlineExceeded                           (* context.DeadlineExceeded *)
| IOError (why : string).                    (* any other failure *)

Definition is_nil (e : option error) : bool :=
  match e with None => true | Some _ => false end.

(** ** The executable runner's collaborators: [os], [io/ioutil], [os/exec] *)

Module os.

(** What a program does once started: whether it can be started at all,
    after how many nanoseconds it exits by itself (never, for [None]),
    and with which status. *)
Record Child := {
  starts : bool;
  lifetime : option Z;
  status : Z;
}.

(** An [io.Reader]: the bytes it yields and the error, if any, that ends
    the stream instead of [io.EOF]. *)
Record Reader := {
  bytes : string;
  read_err : option error;
}.

(** The part of the operating system [Run] depends on. *)
Record Env := {
  tempdir_err : option error;          (* ioutil.TempDir fails *)
  write_err : option error;            (* ioutil.WriteFile fails *)
  behaviour : string -> Child;         (* running a file with these contents *)
}.

(** An [exec.Cmd]. *)
Record Cmd := {
  ctx : Context;
  image : string;                      (* contents of the executable *)
  Stdout : bool;                       (* connected to os.Stdout *)
  Stderr : bool;                       (* connected to os.Stderr *)
}.

Definition wait_result (c : Child) : option error :=
  if status c =? 0 then None else Some (ExitError (Exited (status c))).

(** [Cmd.Run] of [os/exec]: start the command and wait for it.  A command
    bound to a context is killed when the deadline passes before it has
    exited; [Wait] then reports how the process ended.  The result is
    [None] when [Run] never returns. *)
Definition Cmd_Run (env : Env) (c : Cmd) : option (option error) :=
  let child := behaviour env (image c) in
  match ctx c with
  | Some d =>
      if d <=? 0 then Some (Some DeadlineExceeded)
      else if negb (starts child) then Some (Some (LaunchError "exec"))
      else match lifetime child with
           | Some t => if t <=? d then Some (wait_result child)
                       else Some (Some (ExitError Killed))
           | None => Some (Some (ExitError Killed))
           end
  | None =>
      if negb (starts child) then Some (Some (LaunchError "exec"))
      else match lifetime child with
           | Some _ => Some (wait_result child)
           | None => None
           end
  end.

End os.

(** [multierror.Append]: flatten into one aggregate error. *)
Definition multierror_Append (err : option error) (e : error) : error :=
  match err with
  | None => MultiError [e]
  | Some (MultiError l) => MultiError (l ++ [e])
  | Some x => MultiError [x; e]
  end.

(** ** Packages outside the repository *)

(** A parsed URL: its path and the key-value pairs of its query string. *)
Record URL := {
  Path : string;
  Query : list (string * string);
}.

(** [url.Values.Get]: the first value of the key, or the empty string. *)
Fixpoint Get (q : list (string * string)) (key : string) : string :=
  match q with
  | [] => ""
  | (k, v) :: rest => if String.eqb k key then v else Get rest key
  end.

(** Functions of other packages whose results the driver only passes on.
    The development is parametric in them. *)
Class Externals := {
  nurl_Parse : string -> URL + error;                          (* net/url.Parse *)
  sql_Open : string -> option error;                           (* sql.Open("postgres", dsn) *)
  GenerateAdvisoryLockId : string -> string -> string + error; (* database.GenerateAdvisoryLockId *)
  ParseDuration : string -> Z + error;                         (* time.ParseDuration *)
  NewSession : option error;                                   (* session.NewSessionWithOptions *)
}.

(** ** A script of injected faults *)

(** The head of the script decides the next call that leaves the process:
    [Some e] makes it fail with [e] without any effect on the backing
    store, [None] (or an exhausted script) lets it take effect. *)
Definition Faults : Type := list (option error).

Definition next_fault (f : Faults) : option error :=
  match f with
  | Some e :: _ => Some e
  | _ => None
  end.

(** * The relational variant: [src/database/shell/shell.go] *)

Module Pg.

Definition DefaultMigrationsTable : string := "schema_migrations".

Record Config := {
  MigrationsTable : string;
  DatabaseName : string;
  SchemaName : string;
  StatementTimeout : Z;               (* a time.Duration, in nanoseconds *)
}.

(** *** The PostgreSQL server *)

Definition Row : Type := Z * bool.    (* version bigint, dirty boolean *)

Record Server := {
  tables : gmap string (list Row);    (* base tables of the current schema *)
  advisory : gmap string (nat * nat); (* lock key -> owning session, hold count *)
  current_database : string;
  current_schema : string;
  next_session : nat;                 (* sessions are numbered as they connect *)
}.

Definition set_tables (t : gmap string (list Row)) (s : Server) : Server :=
  {| tables := t; advisory := advisory s;
     current_database := current_database s;
     current_schema := current_schema s; next_session := next_session s |}.

Definition set_advisory (a : gmap string (nat * nat)) (s : Server) : Server :=
  {| tables := tables s; advisory := a;
     current_database := current_database s;
     current_schema := current_schema s; next_session := next_session s |}.

Definition connect (s : Server) : Server :=
  {| tables := tables s; advisory := advisory s;
     current_database := current_database s;
     current_schema := current_schema s; next_session := S (next_session s) |}.

(** [pg_advisory_lock(key)]: granted when the key is free; a session
    that already holds the key stacks another hold; otherwise the
    request waits ([None]). *)
Definition pg_advisory_lock (sid : nat) (aid : string) (s : Server) : option Server :=
  match advisory s !! aid with
  | None => Some (set_advisory (<[aid := (sid, 1%nat)]> (advisory s)) s)
  | Some (owner, n) =>
      if decide (owner = sid)
      then Some (set_advisory (<[aid := (sid, S n)]> (advisory s)) s)
      else None
  end.

(** [pg_advisory_unlock(key)]: gives back one hold of the calling
    session; a key the session does not hold is left alone (the function
    then returns false, which is not an error). *)
Definition pg_advisory_unlock (sid : nat) (aid : string) (s : Server) : Server :=
  match advisory s !! aid with
  | Some (owner, S (S n)) =>
      if decide (owner = sid)
      then set_advisory (<[aid := (sid, S n)]> (advisory s)) s else s
  | Some (owner, _) =>
      if decide (owner = sid) then set_advisory (delete aid (advisory s)) s else s
  | None => s
  end.

(** The end of a session releases every advisory lock it holds. *)
Definition end_session (sid : nat) (s : Server) : Server :=
  set_advisory (filter (fun kv => fst (snd kv) ≠ sid) (advisory s)) s.

(** The effect of a statement on the tables. *)
Definition run_stmt (q : Request) (t : gmap string (list Row))
  : option error * gmap string (list Row) :=
  match q with
  | Truncate name =>
      match t !! name with
      | Some _ => (None, <[name := []]> t)
      | None => (Some (PqError "undefined_table"), t)
      end
  | InsertVersion name v d =>
      match t !! name with
      | Some rows =>
          if bool_decide (v ∈ rows.*1)
          then (Some (PqError "unique_violation"), t)
          else (None, <[name := rows ++ [(v, d)]]> t)
      | None => (Some (PqError "undefined_table"), t)
      end
  | DropTable name => (None, delete name t)                 (* IF EXISTS *)
  | CreateVersionTable name =>                              (* IF NOT EXISTS *)
      match t !! name with
      | Some _ => (None, t)
      | None => (None, <[name := []]> t)
      end
  | _ => (None, t)
  end.

(** *** The world a handle acts on *)

Record World := {
  server : Server;
  faults : Faults;
  trace : list (Context * Request);   (* requests sent, latest first *)
}.

Definition set_server (s : Server) (w : World) : World :=
  {| server := s; faults := faults w; trace := trace w |}.

(** One round trip: the request is recorded and the script consulted. *)
Definition send (ctx : Context) (q : Request) (w : World) : option error * World :=
  (next_fault (faults w),
   {| server := server w; faults := tail (faults w); trace := (ctx, q) :: trace w |}).

(** *** [database/sql] *)

(** A [*sql.Conn]: one server session, unusable once closed. *)
Record Conn := {
  session : nat;
  done : bool;
}.

(** [Conn.ExecContext] for every statement that cannot wait. *)
Definition ExecContext (c : Conn) (ctx : Context) (q : Request) (w : World)
  : option error * World :=
  if done c then (Some ErrConnDone, w)
  else
    match send ctx q w with
    | (Some err, w1) => (Some err, w1)
    | (None, w1) =>
        match q with
        | AdvisoryUnlock aid =>
            (None, set_server (pg_advisory_unlock (session c) aid (server w1)) w1)
        | _ =>
            let '(r, t) := run_stmt q (tables (server w1)) in
            (r, set_server (set_tables t (server w1)) w1)
        end
    end.

(** [Conn.ExecContext] for [SELECT pg_advisory_lock($1)], which waits
    until the lock is granted: [None] when that never happens. *)
Definition ExecContext_lock (c : Conn) (ctx : Context) (aid : string) (w : World)
  : option (option error * World) :=
  if done c then Some (Some ErrConnDone, w)
  else
    match send ctx (AdvisoryLock aid) w with
    | (Some err, w1) => Some (Some err, w1)
    | (None, w1) =>
        match pg_advisory_lock (session c) aid (server w1) with
        | Some s => Some (None, set_server s w1)
        | None => None
        end
    end.

(** [Conn.QueryRowContext(..).Scan(&version, &dirty)] *)
Definition QueryRowContext (c : Conn) (ctx : Context) (table : string) (w : World)
  : (Row + error) * World :=
  if done c then (inr ErrConnDone, w)
  else
    match send ctx (SelectVersion table) w with
    | (Some err, w1) => (inr err, w1)
    | (None, w1) =>
        (match tables (server w1) !! table with
         | None => inr (PqError "undefined_table")
         | Some [] => inr ErrNoRows
         | Some (r :: _) => inl r
         end, w1)
    end.

(** [Conn.QueryContext] for the table listing, with the rows scanned to
    the end; scanning a table name into a string does not fail. *)
Definition QueryContext (c : Conn) (ctx : Context) (w : World)
  : (list string + error) * World :=
  if done c then (inr ErrConnDone, w)
  else
    match send ctx ListTables w with
    | (Some err, w1) => (inr err, w1)
    | (None, w1) => (inl (map_to_list (tables (server w1))).*1, w1)
    end.

(** A [*sql.Tx]: the tables as the transaction sees them. *)
Record Tx := { pending : gmap string (list Row) }.

Definition BeginTx (c : Conn) (w : World) : (Tx + error) * World :=
  if done c then (inr ErrConnDone, w)
  else
    match send Background Begin w with
    | (Some err, w1) => (inr err, w1)
    | (None, w1) => (inl {| pending := tables (server w1) |}, w1)
    end.

Definition Tx_Exec (tx : Tx) (q : Request) (w : World) : option error * Tx * World :=
  match send Background q w with
  | (Some err, w1) => (Some err, tx, w1)
  | (None, w1) =>
      let '(r, t) := run_stmt q (pending tx) in (r, {| pending := t |}, w1)
  end.

(** Whether or not the server acknowledges it, a rollback leaves the
    committed tables as they were. *)
Definition Tx_Rollback (tx : Tx) (w : World) : option error * World :=
  send Background Rollback w.

Definition Tx_Commit (tx : Tx) (w : World) : option error * World :=
  match send Background Commit w with
  | (Some err, w1) => (Some err, w1)
  | (None, w1) => (None, set_server (set_tables (pending tx) (server w1)) w1)
  end.

(** *** The driver *)

Record Shell := {
  conn : Conn;                        (* locking and unlocking use this connection *)
  isLocked : bool;
  config : Config;
}.

Definition set_isLocked (b : bool) (p : Shell) : Shell :=
  {| conn := conn p; isLocked := b; config := config p |}.

Definition database_Error (orig : error) (msg : string) (q : Request) : error :=
  DatabaseError (Some orig) msg (Some q).

Section Driver.
Context {ext : Externals}.

Definition Lock (p : Shell) (w : World) : option (option error * Shell * World) :=
  if isLocked p then Some (Some ErrLocked, p, w)
  else
    match GenerateAdvisoryLockId (DatabaseName (config p)) (SchemaName (config p)) with
    | inr err => Some (Some err, p, w)
    | inl aid =>
        (* This will wait indefinitely until the lock can be acquired. *)
        match ExecContext_lock (conn p) Background aid w with
        | None => None
        | Some (Some err, w1) =>
            Some (Some (database_Error err "try lock failed" (AdvisoryLock aid)), p, w1)
        | Some (None, w1) => Some (None, set_isLocked true p, w1)
        end
    end.

Definition Unlock (p : Shell) (w : World) : option error * Shell * World :=
  if negb (isLocked p) then (None, p, w)
  else
    match GenerateAdvisoryLockId (DatabaseName (config p)) (SchemaName (config p)) with
    | inr err => (Some err, p, w)
    | inl aid =>
        match ExecContext (conn p) Background (AdvisoryUnlock aid) w with
        | (Some err, w1) => (Some (database_Error err "" (AdvisoryUnlock aid)), p, w1)
        | (None, w1) => (None, set_isLocked false p, w1)
        end
    end.

Definition SetVersion (p : Shell) (version : Z) (dirty : bool) (w : World)
  : option error * World :=
  match BeginTx (conn p) w with
  | (inr err, w0) =>
      (Some (DatabaseError (Some err) "transaction start failed" None), w0)
  | (inl tx, w0) =>
      let query := Truncate (MigrationsTable (config p)) in
      match Tx_Exec tx query w0 with
      | (Some err, _, w1) =>
          let '(errRollback, w2) := Tx_Rollback tx w1 in
          let err := match errRollback with
                     | Some er => multierror_Append (Some err) er
                     | None => err
                     end in
          (Some (database_Error err "" query), w2)
      | (None, tx1, w1) =>
          (* Also re-write the schema version for nil dirty versions *)
          if (0 <=? version) || ((version =? NilVersion) && dirty) then
            let query := InsertVersion (MigrationsTable (config p)) version dirty in
            match Tx_Exec tx1 query w1 with
            | (Some err, _, w2) =>
                let '(errRollback, w3) := Tx_Rollback tx1 w2 in
                let err := match errRollback with
                           | Some er => multierror_Append (Some err) er
                           | None => err
                           end in
                (Some (database_Error err "" query), w3)
            | (None, tx2, w2) =>
                match Tx_Commit tx2 w2 with
                | (Some err, w3) =>
                    (Some (DatabaseError (Some err) "transaction commit failed" None), w3)
                | (None, w3) => (None, w3)
                end
            end
          else
            match Tx_Commit tx1 w1 with
            | (Some err, w2) =>
                (Some (DatabaseError (Some err) "transaction commit failed" None), w2)
            | (None, w2) => (None, w2)
            end
      end
  end.

Definition Version (p : Shell) (w : World) : Z * bool * option error * World :=
  let table := MigrationsTable (config p) in
  match QueryRowContext (conn p) Background table w with
  | (inr ErrNoRows, w1) => (NilVersion, false, None, w1)
  | (inr (PqError name), w1) =>
      if String.eqb name "undefined_table" then (NilVersion, false, None, w1)
      else (0, false, Some (database_Error (PqError name) "" (SelectVersion table)), w1)
  | (inr err, w1) =>
      (0, false, Some (database_Error err "" (SelectVersion table)), w1)
  | (inl (version, dirty), w1) => (version, dirty, None, w1)
  end.

(** The loop of [Drop]: delete one table after another. *)
Fixpoint drop_each (c : Conn) (tableNames : list string) (w : World)
  : option error * World :=
  match tableNames with
  | [] => (None, w)
  | t :: rest =>
      match ExecContext c Background (DropTable t) w with
      | (Some err, w1) => (Some (database_Error err "" (DropTable t)), w1)
      | (None, w1) => drop_each c rest w1
      end
  end.

Definition Drop (p : Shell) (w : World) : option error * World :=
  match QueryContext (conn p) Background w with
  | (inr err, w0) => (Some (database_Error err "" ListTables), w0)
  | (inl names, w0) =>
      let tableNames := filter (fun n => (0 < String.length n)%nat) names in
      let '(err, w1) := drop_each (conn p) tableNames w0 in
      (* deferred: tables.Close() *)
      match send Background RowsClose w1 with
      | (Some errClose, w2) => (Some (multierror_Append err errClose), w2)
      | (None, w2) => (err, w2)
      end
  end.

(** [ensureVersionTable] locks the database itself, unlike the other
    methods, whose caller locks. *)
Definition ensureVersionTable (p : Shell) (w : World)
  : option (option error * Shell * World) :=
  match Lock p w with
  | None => None
  | Some (Some err, p0, w0) => Some (Some err, p0, w0)
  | Some (None, p0, w0) =>
      let query := CreateVersionTable (MigrationsTable (config p0)) in
      let '(r, w1) := ExecContext (conn p0) Background query w0 in
      let err := match r with
                 | Some e => Some (database_Error e "" query)
                 | None => None
                 end in
      (* deferred: p.Unlock() *)
      let '(e, p1, w2) := Unlock p0 w1 in
      Some (match e with
            | Some e' => match err with
                         | None => Some e'
                         | Some _ => Some (multierror_Append err e')
                         end
            | None => err
            end, p1, w2)
  end.

(** [instance.QueryRow(query).Scan(&name)] on the pool. *)
Definition DB_QueryRow (q : Request) (answer : Server -> string) (w : World)
  : (string + error) * World :=
  match send Background q w with
  | (Some err, w1) => (inr err, w1)
  | (None, w1) => (inl (answer (server w1)), w1)
  end.

(** [instance.Conn(ctx)]: a connection of its own, hence a new session. *)
Definition DB_Conn (ctx : Context) (w : World) : (Conn + error) * World :=
  match send ctx AcquireConn w with
  | (Some err, w1) => (inr err, w1)
  | (None, w1) =>
      (inl {| session := next_session (server w1); done := false |},
       set_server (connect (server w1)) w1)
  end.

Definition WithInstance (config : option Config) (w : World)
  : option ((Shell + error) * World) :=
  match config with
  | None => Some (inr ErrNilConfig, w)
  | Some config =>
  match send Background Ping w with
  | (Some err, w0) => Some (inr err, w0)
  | (None, w0) =>
  let r1 :=
    if String.eqb (DatabaseName config) "" then
      match DB_QueryRow SelectCurrentDatabase current_database w0 with
      | (inr err, w1) => (inr (database_Error err "" SelectCurrentDatabase), w1)
      | (inl databaseName, w1) =>
          if (String.length databaseName =? 0)%nat then (inr ErrNoDatabaseName, w1)
          else (inl databaseName, w1)
      end
    else (inl (DatabaseName config), w0) in
  match r1 with
  | (inr err, w1) => Some (inr err, w1)
  | (inl databaseName, w1) =>
  let r2 :=
    if String.eqb (SchemaName config) "" then
      match DB_QueryRow SelectCurrentSchema current_schema w1 with
      | (inr err, w2) => (inr (database_Error err "" SelectCurrentSchema), w2)
      | (inl schemaName, w2) =>
          if (String.length schemaName =? 0)%nat then (inr ErrNoSchema, w2)
          else (inl schemaName, w2)
      end
    else (inl (SchemaName config), w1) in
  match r2 with
  | (inr err, w2) => Some (inr err, w2)
  | (inl schemaName, w2) =>
  let migrationsTable :=
    if (String.length (MigrationsTable config) =? 0)%nat
    then DefaultMigrationsTable else MigrationsTable config in
  let config := {| MigrationsTable := migrationsTable;
                   DatabaseName := databaseName;
                   SchemaName := schemaName;
                   StatementTimeout := StatementTimeout config |} in
  match DB_Conn Background w2 with
  | (inr err, w3) => Some (inr err, w3)
  | (inl conn, w3) =>
  let px := {| conn := conn; isLocked := false; config := config |} in
  match ensureVersionTable px w3 with
  | None => None
  | Some (Some err, _, w4) => Some (inr err, w4)
  | Some (None, px, w4) => Some (inl px, w4)
  end end end end end end.

Definition Millisecond : Z := 1000000.

Definition Open (url : string) (w : World) : option ((Shell + error) * World) :=
  match nurl_Parse url with
  | inr err => Some (inr err, w)
  | inl purl =>
      let postgresDsn := Get (Query purl) "x-postgres-dsn" in
      match sql_Open postgresDsn with
      | Some err => Some (inr err, w)
      | None =>
          let migrationsTable := Get (Query purl) "x-migrations-table" in
          let statementTimeoutString := Get (Query purl) "x-statement-timeout" in
          let '(statementTimeout, err) :=
            if String.eqb statementTimeoutString "" then (0, None)
            else strconv.Atoi statementTimeoutString in
          match err with
          | Some e => Some (inr (NumError "Atoi" statementTimeoutString e), w)
          | None =>
              WithInstance
                (Some {| DatabaseName := Path purl;
                         MigrationsTable := migrationsTable;
                         SchemaName := "";
                         StatementTimeout := wrap64 (statementTimeout * Millisecond) |})
                w
          end
      end
  end.

(** [Close] gives the connection back and closes the pool, which ends
    the session. *)
Definition Close (p : Shell) (w : World) : option error * Shell * World :=
  let connErr := if done (conn p) then Some ErrConnDone else None in
  let p1 := {| conn := {| session := session (conn p); done := true |};
               isLocked := isLocked p; config := config p |} in
  let '(dbErr, w1) := send Background CloseDB w in
  let w2 := set_server (end_session (session (conn p)) (server w1)) w1 in
  (if is_nil connErr && is_nil dbErr then None else Some (CloseError connErr dbErr),
   p1, w2).

(** [Run]: the migration is written to a temporary directory, which
    is removed on return, and executed with no arguments. *)
Definition Run (p : Shell) (migration : os.Reader) (env : os.Env)
  : option (option error) :=
  match os.tempdir_err env with
  | Some err => Some (Some err)
  | None =>
      match os.read_err migration with
      | Some err => Some (Some err)
      | None =>
          match os.write_err env with
          | Some err => Some (Some err)
          | None =>
              os.Cmd_Run env {| os.ctx := Background;
                                os.image := os.bytes migration;
                                os.Stdout := false; os.Stderr := false |}
          end
      end
  end.

End Driver.

End Pg.

(** * The key-value variant: [src/unnamed/part_000] *)

Module KV.

Record Config := {
  MigrationsTable : string;
  Timeout : Z;                        (* a time.Duration, in nanoseconds *)
  Verbose : bool;
}.

(** *** DynamoDB *)

(** A [dynamodb.AttributeValue]; the fields are pointers in the source
    and the absent ones are [None]. *)
Record AttributeValue := {
  attr_S : option string;
  attr_N : option string;
  attr_BOOL : option bool;
}.

Definition AttrS (s : string) : AttributeValue :=
  {| attr_S := Some s; attr_N := None; attr_BOOL := None |}.
Definition AttrN (n : string) : AttributeValue :=
  {| attr_S := None; attr_N := Some n; attr_BOOL := None |}.
Definition AttrBOOL (b : bool) : AttributeValue :=
  {| attr_S := None; attr_N := None; attr_BOOL := Some b |}.

(** Requests of the DynamoDB API the driver makes. *)
Inductive ApiCall :=
| PutItem (TableName : string) (Item : gmap string AttributeValue)
| GetItem (TableName : string) (Key : gmap string AttributeValue).

(** The tables of the service map a table name to the items of the
    table, by key value; every table has the string attribute [ID] as
    its partition key.

    The service answers a read that does not ask for [ConsistentRead]
    from a replica, which may not have seen the latest writes yet.  The
    world keeps the states the tables went through, and a script tells
    how many writes behind each successive read is served. *)
Record World := {
  store : gmap string (gmap string (gmap string AttributeValue));
                                      (* the tables as the latest write left them *)
  past : list (gmap string (gmap string (gmap string AttributeValue)));
                                      (* their earlier states, latest first *)
  lag : list nat;                     (* writes each successive read lags behind *)
  faults : Faults;
  trace : list ApiCall;               (* requests sent, latest first *)
}.

Definition send (q : ApiCall) (w : World) : option error * World :=
  (next_fault (faults w),
   {| store := store w; past := past w; lag := lag w;
      faults := tail (faults w); trace := q :: trace w |}).

(** A write installs the new state; the state it replaces is one a read
    may still be served from. *)
Definition set_store (s : gmap string (gmap string (gmap string AttributeValue)))
  (w : World) : World :=
  {| store := s; past := store w :: past w; lag := lag w;
     faults := faults w; trace := trace w |}.

(** The head of the script decides the next read; an exhausted script
    lets every read see the latest write. *)
Definition next_lag (l : list nat) : nat :=
  match l with
  | n :: _ => n
  | [] => O
  end.

(** The state [n] writes back, the oldest one when fewer are recorded. *)
Fixpoint behind (n : nat) (now : gmap string (gmap string (gmap string AttributeValue)))
  (earlier : list (gmap string (gmap string (gmap string AttributeValue))))
  : gmap string (gmap string (gmap string AttributeValue)) :=
  match n, earlier with
  | S m, s :: rest => behind m s rest
  | _, _ => now
  end.

(** The state the next eventually consistent read is served from. *)
Definition seen (w : World) : gmap string (gmap string (gmap string AttributeValue)) :=
  behind (next_lag (lag w)) (store w) (past w).

Definition answered (w : World) : World :=
  {| store := store w; past := past w; lag := tail (lag w);
     faults := faults w; trace := trace w |}.

Definition key_of (item : gmap string AttributeValue) : option string :=
  match item !! "ID" with
  | Some a => attr_S a
  | None => None
  end.

(** [DynamoDB.PutItem]: creates the item or replaces the whole item that
    has the same key. *)
Definition dynamodb_PutItem (table : string) (item : gmap string AttributeValue)
  (w : World) : option error * World :=
  match send (PutItem table item) w with
  | (Some err, w1) => (Some err, w1)
  | (None, w1) =>
      match store w1 !! table with
      | None => (Some (AwsError "ResourceNotFoundException"), w1)
      | Some items =>
          match key_of item with
          | None => (Some (AwsError "ValidationException"), w1)
          | Some k => (None, set_store (<[table := <[k := item]> items]> (store w1)) w1)
          end
      end
  end.

(** [DynamoDB.GetItem]: the item with the given key; the result has no
    [Item] when there is none.  [ConsistentRead] is the field of that name
    of the input, a pointer in the source: only when it is set and true
    is the read served from the latest write; otherwise the read is
    eventually consistent. *)
Definition dynamodb_GetItem (table : string) (key : gmap string AttributeValue)
  (ConsistentRead : option bool) (w : World)
  : (gmap string AttributeValue + error) * World :=
  match send (GetItem table key) w with
  | (Some err, w1) => (inr err, w1)
  | (None, w1) =>
      let tables := match ConsistentRead with
                    | Some true => store w1
                    | _ => seen w1
                    end in
      let w2 := answered w1 in
      match tables !! table with
      | None => (inr (AwsError "ResourceNotFoundException"), w2)
      | Some items =>
          match key_of key with
          | None => (inr (AwsError "ValidationException"), w2)
          | Some k => (inl (default ∅ (items !! k)), w2)
          end
      end
  end.

(** *** The driver *)

Record Shell := {
  config : Config;                    (* the client talks to the world's service *)
}.

Definition LatestMigrationVersion : string := "LatestMigrationVersion".

Section Driver.
Context {ext : Externals}.

Definition Open (url : string) : Shell + error :=
  match nurl_Parse url with
  | inr err => inr err
  | inl shellURL =>
      let timeoutString := Get (Query shellURL) "x-timeout" in
      match (if String.eqb timeoutString "" then inl 0
             else ParseDuration timeoutString) with
      | inr err => inr err
      | inl timeout =>
          let verboseString := Get (Query shellURL) "x-verbose" in
          match (if String.eqb verboseString "" then inl true
                 else strconv.ParseBool verboseString) with
          | inr e => inr (NumError "ParseBool" verboseString e)
          | inl verbose =>
              let dynamodbTable := Get (Query shellURL) "x-dynamodb-table" in
              match NewSession with
              | Some err => inr err
              | None =>
                  inl {| config := {| MigrationsTable := dynamodbTable;
                                      Timeout := timeout;
                                      Verbose := verbose |} |}
              end
          end
      end
  end.

Definition Run (s : Shell) (migration : os.Reader) (env : os.Env)
  : option (option error) :=
  match os.tempdir_err env with
  | Some err => Some (Some err)
  | None =>
      match os.read_err migration with
      | Some err => Some (Some err)
      | None =>
          match os.write_err env with
          | Some err => Some (Some err)
          | None =>
              let ctx :=
                if 0 <? Timeout (config s)
                then WithTimeout Background (Timeout (config s))
                else Background in
              os.Cmd_Run env {| os.ctx := ctx;
                                os.image := os.bytes migration;
                                os.Stdout := Verbose (config s);
                                os.Stderr := Verbose (config s) |}
          end
      end
  end.

(** [Run] of the earlier variant, [src/unnamed/part_001], whose
    configuration has neither timeout nor verbosity. *)
Definition Run_v0 (s : Shell) (migration : os.Reader) (env : os.Env)
  : option (option error) :=
  match os.tempdir_err env with
  | Some err => Some (Some err)
  | None =>
      match os.read_err migration with
      | Some err => Some (Some err)
      | None =>
          match os.write_err env with
          | Some err => Some (Some err)
          | None =>
              os.Cmd_Run env {| os.ctx := Background;
                                os.image := os.bytes migration;
                                os.Stdout := false; os.Stderr := false |}
          end
      end
  end.

Definition SetVersion (s : Shell) (version : Z) (dirty : bool) (w : World)
  : option error * World :=
  let item : gmap string AttributeValue :=
    <["ID" := AttrS LatestMigrationVersion]>
      (<["Dirty" := AttrBOOL dirty]>
         (<["Version" := AttrN (strconv.Itoa version)]> ∅)) in
  dynamodb_PutItem (MigrationsTable (config s)) item w.

Definition Version (s : Shell) (w : World) : Z * bool * option error * World :=
  let key : gmap string AttributeValue :=
    <["ID" := AttrS LatestMigrationVersion]> ∅ in
  (* the input names the table and the key; ConsistentRead is left unset *)
  match dynamodb_GetItem (MigrationsTable (config s)) key None w with
  | (inr err, w1) => (0, false, Some err, w1)
  | (inl item, w1) =>
      match item !! "ID" with
      | None => (-1, false, None, w1)
      | Some _ =>
          match item !! "Version" with
          | None =>
              (0, false,
               Some (ErrorsNew "could not find Version attribute on dynamodb item"), w1)
          | Some attr =>
              match attr_N attr with
              | None =>
                  (0, false,
                   Some (ErrorsNew
                           "expected Version attribute to have type N on dynamodb item"),
                   w1)
              | Some versionString =>
                  let '(version, e) := strconv.Atoi versionString in
                  let err :=
                    match e with
                    | Some e =>
                        Some (Wrapf "could not parse Version attribute on dynamodb item"
                                (NumError "Atoi" versionString e))
                    | None => None
                    end in
                  (* no return here: the Dirty attribute is read next *)
                  match item !! "Dirty" with
                  | None =>
                      (version, false,
                       Some (ErrorsNew "could not find Dirty attribute on dynamodb item"),
                       w1)
                  | Some attr =>
                      match attr_BOOL attr with
                      | None =>
                          (version, false,
                           Some (ErrorsNew
                                   "expected Dirty attribute to have type BOOL on dynamodb item"),
                           w1)
                      | Some dirty => (version, dirty, err, w1)
                      end
                  end
              end
          end
      end
  end.

Definition Close (s : Shell) (w : World) : option error * World := (None, w).

Definition Drop (s : Shell) (w : World) : option error * World := (None, w).

Definition Lock (s : Shell) (w : World) : option error * World := (None, w).

Definition Unlock (s : Shell) (w : World) : option error * World := (None, w).

End Driver.

End KV.

(** * A concrete environment for examples *)

Module Demo.

(** The text before the first occurrence of [c], and the text after it. *)
Fixpoint cut (c : ascii) (s : string) : string * option string :=
  match s with
  | EmptyString => (EmptyString, None)
  | String a rest =>
      if Ascii.eqb a c then (EmptyString, Some rest)
      else let '(l, r) := cut c rest in (String a l, r)
  end.

Fixpoint fields (fuel : nat) (c : ascii) (s : string) : list string :=
  match fuel with
  | O => []
  | S n =>
      match cut c s with
      | (l, None) => [l]
      | (l, Some r) => l :: fields n c r
      end
  end.

Definition pair_of (kv : string) : string * string :=
  let '(k, v) := cut "=" kv in (k, default EmptyString v).

(** URLs of the shape [scheme://authority/path?k=v&k=v], without escapes. *)
Definition parse_url (url : string) : URL + error :=
  let '(front, q) := cut "?" url in
  let query :=
    match q with
    | None => []
    | Some q => map pair_of (fields (S (String.length q)) "&" q)
    end in
  match cut ":" front with
  | (_, None) => inr (IOError "missing protocol scheme")
  | (_, Some rest) =>
      let path :=
        match cut "/" rest with
        | (_, Some r1) =>
            match cut "/" r1 with
            | (_, Some r2) =>
                match cut "/" r2 with
                | (_, Some p) => String "/" p
                | (_, None) => EmptyString
                end
            | (_, None) => EmptyString
            end
        | (_, None) => EmptyString
        end in
      inl {| Path := path; Query := query |}
  end.

(** Durations written as a whole number of milliseconds or seconds. *)
Definition parse_duration (s : string) : Z + error :=
  match cut "m" s with
  | (n, Some "s"%string) =>
      match strconv.digits n with
      | Some v => inl (v * 1000000)
      | None => inr (IOError "invalid duration")
      end
  | _ =>
      match cut "s" s with
      | (n, Some EmptyString) =>
          match strconv.digits n with
          | Some v => inl (v * 1000000000)
          | None => inr (IOError "invalid duration")
          end
      | _ => inr (IOError "invalid duration")
      end
  end.

#[export] Instance externals : Externals := {|
  nurl_Parse := parse_url;
  sql_Open := fun _ => None;
  GenerateAdvisoryLockId := fun db schema => inl (schema +:+ ":" +:+ db);
  ParseDuration := parse_duration;
  NewSession := None;
|}.

(** A server that has just been set up: no table, no lock, no session. *)
Definition fresh_server : Pg.Server := {|
  Pg.tables := ∅;
  Pg.advisory := ∅;
  Pg.current_database := "app";
  Pg.current_schema := "public";
  Pg.next_session := 0;
|}.

Definition pg_world (s : Pg.Server) (f : Faults) : Pg.World :=
  {| Pg.server := s; Pg.faults := f; Pg.trace := [] |}.

Definition pg_config : Pg.Config := {|
  Pg.MigrationsTable := "schema_migrations";
  Pg.DatabaseName := "app";
  Pg.SchemaName := "public";
  Pg.StatementTimeout := 0;
|}.

(** A handle on session 0 and a server that has its version table. *)
Definition pg_handle : Pg.Shell :=
  {| Pg.conn := {| Pg.session := 0; Pg.done := false |};
     Pg.isLocked := false; Pg.config := pg_config |}.

Definition ready_server : Pg.Server :=
  Pg.connect (Pg.set_tables {["schema_migrations" := []]} fresh_server).

Definition kv_config : KV.Config :=
  {| KV.MigrationsTable := "migrations"; KV.Timeout := 0; KV.Verbose := true |}.

Definition kv_handle : KV.Shell := {| KV.config := kv_config |}.

Definition kv_world (s : gmap string (gmap string (gmap string KV.AttributeValue)))
  (f : Faults) : KV.World :=
  {| KV.store := s; KV.past := []; KV.lag := []; KV.faults := f; KV.trace := [] |}.

(** A service whose successive reads lag behind by the given numbers of
    writes. *)
Definition kv_lagging (s : gmap string (gmap string (gmap string KV.AttributeValue)))
  (l : list nat) : KV.World :=
  {| KV.store := s; KV.past := []; KV.lag := l; KV.faults := []; KV.trace := [] |}.

(** A service with the version table, still without item, and one
    without any table. *)
Definition kv_ready : gmap string (gmap string (gmap string KV.AttributeValue)) :=
  {["migrations" := ∅]}.
Definition kv_bare : gmap string (gmap string (gmap string KV.AttributeValue)) := ∅.

(** A handle with a run timeout of one second, a program that never
    exits, and an operating system that runs it. *)
Definition kv_timed : KV.Shell :=
  {| KV.config := {| KV.MigrationsTable := "migrations";
                     KV.Timeout := 1000000000; KV.Verbose := false |} |}.

Definition sleeper : os.Child :=
  {| os.starts := true; os.lifetime := None; os.status := 0 |}.

Definition os_env (c : os.Child) : os.Env :=
  {| os.tempdir_err := None; os.write_err := None; os.behaviour := fun _ => c |}.

Definition payload : os.Reader :=
  {| os.bytes := "#!/bin/sh"; os.read_err := None |}.

End Demo.

(** * The version store as the specification describes it *)

Module Contract.

(** A single logical record [{version, dirty}], absent at first use. *)
Definition Store : Type := option (Z * bool).

(** If no record exists, [GetVersion] returns [(-1, false)]. *)
Definition GetVersion (st : Store) : Z * bool :=
  match st with
  | Some r => r
  | None => (NilVersion, false)
  end.

(** [SetVersion] clears the prior state, then writes the new pair unless
    it is the nil version without the dirty flag. *)
Definition SetVersion (version : Z) (dirty : bool) (st : Store) : Store :=
  if (version =? NilVersion) && negb dirty then None else Some (version, dirty).

End Contract.

(** * Driving the two variants through the shared interface *)

(** The operations of [database.Driver] that act on an open handle. *)
Inductive Op :=
| OpLock
| OpUnlock
| OpSetVersion (version : Z) (dirty : bool)
| OpVersion
| OpDrop
| OpClose.

(** What the caller sees of an operation: whether it failed, and for
    [Version] the pair it returned. *)
Inductive Outcome :=
| Returned (failed : bool)
| Got (version : Z) (dirty : bool) (failed : bool).

Definition failed (e : option error) : bool := negb (is_nil e).

Section Drive.
Context {ext : Externals}.

Definition Pg_apply (op : Op) (p : Pg.Shell) (w : Pg.World)
  : option (Outcome * Pg.Shell * Pg.World) :=
  match op with
  | OpLock =>
      match Pg.Lock p w with
      | Some (e, p1, w1) => Some (Returned (failed e), p1, w1)
      | None => None
      end
  | OpUnlock => let '(e, p1, w1) := Pg.Unlock p w in Some (Returned (failed e), p1, w1)
  | OpSetVersion v d =>
      let '(e, w1) := Pg.SetVersion p v d w in Some (Returned (failed e), p, w1)
  | OpVersion =>
      let '(v, d, e, w1) := Pg.Version p w in Some (Got v d (failed e), p, w1)
  | OpDrop => let '(e, w1) := Pg.Drop p w in Some (Returned (failed e), p, w1)
  | OpClose => let '(e, p1, w1) := Pg.Close p w in Some (Returned (failed e), p1, w1)
  end.

(** The outcomes of a sequence of operations, [None] if one of them
    never returns. *)
Fixpoint Pg_run (ops : list Op) (p : Pg.Shell) (w : Pg.World) : option (list Outcome) :=
  match ops with
  | [] => Some []
  | op :: rest =>
      match Pg_apply op p w with
      | Some (o, p1, w1) =>
          match Pg_run rest p1 w1 with
          | Some os => Some (o :: os)
          | None => None
          end
      | None => None
      end
  end.

Definition KV_apply (op : Op) (s : KV.Shell) (w : KV.World) : Outcome * KV.World :=
  match op with
  | OpLock => let '(e, w1) := KV.Lock s w in (Returned (failed e), w1)
  | OpUnlock => let '(e, w1) := KV.Unlock s w in (Returned (failed e), w1)
  | OpSetVersion v d =>
      let '(e, w1) := KV.SetVersion s v d w in (Returned (failed e), w1)
  | OpVersion => let '(v, d, e, w1) := KV.Version s w in (Got v d (failed e), w1)
  | OpDrop => let '(e, w1) := KV.Drop s w in (Returned (failed e), w1)
  | OpClose => let '(e, w1) := KV.Close s w in (Returned (failed e), w1)
  end.

Fixpoint KV_run (ops : list Op) (s : KV.Shell) (w : KV.World) : list Outcome :=
  match ops with
  | [] => []
  | op :: rest => let '(o, w1) := KV_apply op s w in o :: KV_run rest s w1
  end.

End Drive.

(** The same operations against the specification's version store. *)
Fixpoint Contract_run (ops : list Op) (st : Contract.Store) : list Outcome :=
  match ops with
  | [] => []
  | OpSetVersion v d :: rest =>
      Returned false :: Contract_run rest (Contract.SetVersion v d st)
  | OpVersion :: rest =>
      let '(v, d) := Contract.GetVersion st in Got v d false :: Contract_run rest st
  | _ :: rest => Returned false :: Contract_run rest st
  end.

(** Operations of the version store proper, on versions of the data model. *)
Definition store_op (op : Op) : Prop :=
  match op with
  | OpSetVersion v _ => -1 <= v /\ is_int v
  | OpVersion => True
  | _ => False
  end.

(** * Several handles on one backend *)

(** The calls by which a handle enters and leaves its critical section,
    with the error each returned, latest first. *)
Inductive LockCall := DoLock | DoUnlock.

Definition History : Type := list (nat * LockCall * option error).

(** A handle is inside its critical section when the last of its locking
    calls that returned without error is a [Lock]. *)
Fixpoint inside (h : nat) (hist : History) : bool :=
  match hist with
  | [] => false
  | (h', c, e) :: rest =>
      if (h =? h')%nat && is_nil e
      then match c with DoLock => true | DoUnlock => false end
      else inside h rest
  end.


Section Systems.
Context {ext : Externals}.


(** Handles of the relational variant, each with a connection of its
    own, on one server. *)
Record System := {
  world : Pg.World;
  handles : gmap nat Pg.Shell;
  history : History;
}.

Inductive Event :=
| Opens (h : nat) (config : Pg.Config)     (* WithInstance *)
| Calls (h : nat) (op : Op).

Definition note (h : nat) (op : Op) (e : option error) (hist : History) : History :=
  match op with
  | OpLock => (h, DoLock, e) :: hist
  | OpUnlock => (h, DoUnlock, e) :: hist
  | _ => hist
  end.

Definition Pg_call (op : Op) (p : Pg.Shell) (w : Pg.World)
  : option (option error * Pg.Shell * Pg.World) :=
  match op with
  | OpLock => Pg.Lock p w
  | OpUnlock => Some (Pg.Unlock p w)
  | OpSetVersion v d => let '(e, w1) := Pg.SetVersion p v d w in Some (e, p, w1)
  | OpVersion => let '(_, _, e, w1) := Pg.Version p w in Some (e, p, w1)
  | OpDrop => let '(e, w1) := Pg.Drop p w in Some (e, p, w1)
  | OpClose => Some (Pg.Close p w)
  end.

(** One call runs to completion before the next event; an event that
    cannot take place now (the call waits for the lock, the handle does
    not exist, the name is taken) yields [None]. *)
Definition fire (ev : Event) (s : System) : option System :=
  match ev with
  | Opens h config =>
      match handles s !! h with
      | Some _ => None
      | None =>
          match Pg.WithInstance (Some config) (world s) with
          | Some (inl px, w) =>
              Some {| world := w; handles := <[h := px]> (handles s);
                      history := history s |}
          | Some (inr _, w) =>
              Some {| world := w; handles := handles s; history := history s |}
          | None => None
          end
      end
  | Calls h op =>
      match handles s !! h with
      | None => None
      | Some p =>
          match Pg_call op p (world s) with
          | Some (e, p1, w) =>
              Some {| world := w; handles := <[h := p1]> (handles s);
                      history := note h op e (history s) |}
          | None => None
          end
      end
  end.

Fixpoint run (evs : list Event) (s : System) : option System :=
  match evs with
  | [] => Some s
  | ev :: rest =>
      match fire ev s with
      | Some s1 => run rest s1
      | None => None
      end
  end.

(** At the start there is no handle, and the advisory locks are held by
    sessions the server knows. *)
Definition boot (srv : Pg.Server) (f : Faults) : System :=
  {| world := {| Pg.server := srv; Pg.faults := f; Pg.trace := [] |};
     handles := ∅; history := [] |}.

Definition known_owners (srv : Pg.Server) : Prop :=
  forall aid owner n,
    Pg.advisory srv !! aid = Some (owner, n) -> (owner < Pg.next_session srv)%nat.

Definition reachable (s : System) : Prop :=
  exists srv f evs, known_owners srv /\ run evs (boot srv f) = Some s.

(** The handle's session holds the advisory lock of the handle's target. *)
Definition holds_lock (p : Pg.Shell) (srv : Pg.Server) : Prop :=
  exists aid n,
    GenerateAdvisoryLockId (Pg.DatabaseName (Pg.config p)) (Pg.SchemaName (Pg.config p))
      = inl aid
    /\ Pg.advisory srv !! aid = Some (Pg.session (Pg.conn p), n).

Definition same_target (p1 p2 : Pg.Shell) : Prop :=
  Pg.DatabaseName (Pg.config p1) = Pg.DatabaseName (Pg.config p2)
  /\ Pg.SchemaName (Pg.config p1) = Pg.SchemaName (Pg.config p2).

Definition open (p : Pg.Shell) : Prop := Pg.done (Pg.conn p) = false.

End Systems.

(** The requests a call has sent: what the trace gained. *)
Definition sent (w w1 : Pg.World) (new : list (Context * Request)) : Prop :=
  Pg.trace w1 = new ++ Pg.trace w.

(** What a [Version()] call whose query is answered reads from a server. *)
Definition Pg_stored (p : Pg.Shell) (srv : Pg.Server) : Z * bool * option error :=
  fst (Pg.Version p {| Pg.server := srv; Pg.faults := []; Pg.trace := [] |}).

(** What a [Version()] call reads when it is answered from the state
    [st] of the tables. *)
Definition KV_stored (s : KV.Shell)
  (st : gmap string (gmap string (gmap string KV.AttributeValue)))
  : Z * bool * option error :=
  fst (KV.Version s {| KV.store := st; KV.past := []; KV.lag := [];
                       KV.faults := []; KV.trace := [] |}).

(** A script of reads every one of which is served from the latest
    write. *)
Definition up_to_date (l : list nat) : Prop := Forall (fun n => n = O) l.

(** The rows a committed [SetVersion] leaves in the version table. *)
Definition written (version : Z) (dirty : bool) : list Pg.Row :=
  if (0 <=? version) || ((version =? NilVersion) && dirty) then [(version, dirty)] else [].

(** The effect of [CREATE TABLE IF NOT EXISTS]. *)
Definition created (table : string) (t : gmap string (list Pg.Row))
  : gmap string (list Pg.Row) :=
  match t !! table with
  | Some _ => t
  | None => <[table := []]> t
  end.

(** What a session may change on the server besides the tables: its own
    advisory locks.  Sessions are never forgotten. *)
Definition acts_as (sid : nat) (srv srv1 : Pg.Server) : Prop :=
  (Pg.next_session srv <= Pg.next_session srv1)%nat
  /\ Pg.current_database srv1 = Pg.current_database srv
  /\ Pg.current_schema srv1 = Pg.current_schema srv
  /\ forall aid owner n,
       owner <> sid ->
       Pg.advisory srv1 !! aid = Some (owner, n) <-> Pg.advisory srv !! aid = Some (owner, n).

(** The next [k] calls are not made to fail. *)
Definition no_fault_in (k : nat) (f : Faults) : Prop :=
  forall i, (i < k)%nat -> next_fault (drop i f) = None.

(** The trace has grown by requests whose context satisfies [P]. *)
Definition grows (P : Context -> Prop) (tr tr1 : list (Context * Request)) : Prop :=
  exists new, tr1 = new ++ tr /\ Forall (fun e => P (fst e)) new.

(** Every request a call sent was sent without deadline. *)
Definition background_only (w w1 : Pg.World) : Prop :=
  grows (fun c => c = Background) (Pg.trace w) (Pg.trace w1).

(** Every request a call sent was bounded by the timeout [d]. *)
Definition bounded_by (d : Z) (w w1 : Pg.World) : Prop :=
  grows (fun c => c = Some d) (Pg.trace w) (Pg.trace w1).

(** A call has sent the requests [new], latest first, and none of them
    has been made to fail. *)
Definition clean (w w1 : Pg.World) (new : list (Context * Request)) : Prop :=
  sent w w1 new
  /\ Pg.faults w1 = drop (length new) (Pg.faults w)
  /\ no_fault_in (length new) (Pg.faults w).

(** What holds of the handles on one server at every moment. *)
Definition invariant {ext : Externals} (s : System) : Prop :=
  known_owners (Pg.server (world s))
  /\ (forall h p, handles s !! h = Some p ->
        (Pg.session (Pg.conn p) < Pg.next_session (Pg.server (world s)))%nat)
  /\ (forall h1 h2 p1 p2,
        h1 <> h2 -> handles s !! h1 = Some p1 -> handles s !! h2 = Some p2 ->
        Pg.session (Pg.conn p1) <> Pg.session (Pg.conn p2))
  /\ (forall h p, handles s !! h = Some p -> open p -> Pg.isLocked p = true ->
        holds_lock p (Pg.server (world s)))
  /\ (forall h, inside h (history s)
                = match handles s !! h with
                  | Some p => Pg.isLocked p
                  | None => false
                  end).

(** * Positions in a statement: the helpers of [shell.go] *)

Module Position.

(** A [rune] is a Unicode code point. *)
Definition rune : Type := Z.

Definition newLine : rune := 10.

(** [strings.Replace(s, "\r\n", "\n", -1)]: every carriage return that
    is followed by a line feed is dropped, from left to right. *)
Fixpoint replace_crlf (s : string) : string :=
  match s with
  | String a rest =>
      match rest with
      | String b rest' =>
          if Ascii.eqb a "013" && Ascii.eqb b "010"
          then String "010" (replace_crlf rest')
          else String a (replace_crlf rest)
      | EmptyString => s
      end
  | EmptyString => EmptyString
  end.

(** The loop of [runesCount] over the runes in order. *)
Definition runesCount (input : list rune) (target : rune) : Z :=
  fold_left (fun count r => if r =? target then count + 1 else count) input 0.

(** The loop of [runesLastIndex]: [i] runs from [n - 1] down to [0]. *)
Fixpoint scan_down (input : list rune) (target : rune) (n : nat) : Z :=
  match n with
  | O => -1
  | S i =>
      match input !! i with
      | Some r => if r =? target then Z.of_nat i else scan_down input target i
      | None => scan_down input target i
      end
  end.

Definition runesLastIndex (input : list rune) (target : rune) : Z :=
  scan_down input target (length input).

(** The conversion [uint(x)] of an [int]. *)
Definition to_uint (x : Z) : Z := x mod 2 ^ 64.

(** What a call does: it returns its three results, or the slice
    expression [runes[:pos]] panics. *)
Inductive Result :=
| Returns (line col : Z) (ok : bool)
| Panics.

Section Runes.

(** The conversion [[]rune(s)], which decodes UTF-8. *)
Variable to_runes : string -> list rune.

Definition computeLineFromPos (s : string) (pos : Z) : Result :=
  let s := replace_crlf s in
  let runes := to_runes s in
  if Z.of_nat (length runes) <? pos then Returns 0 0 false
  else if pos <? 0 then Panics
  else
    let sel := take (Z.to_nat pos) runes in
    let line := to_uint (runesCount sel newLine + 1) in
    let col := to_uint (pos - 1 - runesLastIndex sel newLine) in
    Returns line col true.

End Runes.

(** The runes of a string of ASCII characters. *)
Fixpoint ascii_runes (s : string) : list rune :=
  match s with
  | EmptyString => []
  | String a rest => Z.of_nat (nat_of_ascii a) :: ascii_runes rest
  end.

End Position.

(** * Notions used to state further properties *)

(** The number of occurrences of a rune. *)
Definition occurrences (input : list Z) (target : Z) : nat :=
  length (filter (fun r => r = target) input).

(** A statement of two lines, the first of which is ended by CR LF. *)
Definition crlf_sample : string :=
  ("select 1" ++ String "013" (String "010" "from x"))%string.

(** The text of the [Version] attribute of an item if it has type N,
    and the value of its [Dirty] attribute if it has type BOOL. *)
Definition KV_version_text (item : gmap string KV.AttributeValue) : option string :=
  item !! "Version" ≫= KV.attr_N.

Definition KV_dirty_flag (item : gmap string KV.AttributeValue) : option bool :=
  item !! "Dirty" ≫= KV.attr_BOOL.

(** An item whose [Version] attribute is not a number. *)
Definition broken_item : gmap string KV.AttributeValue :=
  <["ID" := KV.AttrS KV.LatestMigrationVersion]>
    (<["Dirty" := KV.AttrBOOL false]> (<["Version" := KV.AttrN "v12"]> ∅)).

(** The tables that are left once those of [dropped] are gone. *)
Definition left_after (dropped : list string) (before after : gmap string (list Pg.Row))
  : Prop :=
  forall t, after !! t = if bool_decide (t ∈ dropped) then None else before !! t.

Section Tidiness.
Context {ext : Externals}.

(** The session of an open handle holds no advisory lock but the one of
    the handle's target, with a single hold, and only while the flag is
    up. *)
Definition own_locks_tidy (p : Pg.Shell) (srv : Pg.Server) : Prop :=
  open p ->
  forall aid n,
    Pg.advisory srv !! aid = Some (Pg.session (Pg.conn p), n) ->
    Pg.isLocked p = true /\ n = 1%nat
    /\ GenerateAdvisoryLockId (Pg.DatabaseName (Pg.config p)) (Pg.SchemaName (Pg.config p))
       = inl aid.

Definition tidy (s : System) : Prop :=
  forall h p, handles s !! h = Some p -> own_locks_tidy p (Pg.server (world s)).

End Tidiness.

(** ** [Open] of the earlier key-value variant: [src/unnamed/part_001] *)


Section Earlier_variant.
Context {ext : Externals}.


End Earlier_variant.

(** * Properties *)

(** ** [strconv] *)

Lemma string_of_uint_head (d : uint) :
  d <> Nil ->
  exists a rest, NilZero.string_of_uint d = String a rest
                 /\ Ascii.eqb a "+" = false /\ Ascii.eqb a "-" = false.
Proof.
  destruct d; intros Hd; try congruence; simpl; eauto.
Qed.

Lemma digits_of_pos (p : positive) :
  strconv.digits (NilZero.string_of_uint (Pos.to_uint p)) = Some (Z.pos p).
Proof.
  unfold strconv.digits.
  rewrite NilZero.usu by apply DecimalPos.Unsigned.to_uint_nonnil.
  simpl. unfold Z.of_uint. now rewrite DecimalPos.Unsigned.of_to.
Qed.

Lemma in_int_true (v : Z) : is_int v -> in_int v = true.
Proof.
  unfold is_int, in_int. intros [? ?].
  apply andb_true_iff; split; now apply Z.leb_le.
Qed.

(** Reading back what [Itoa] wrote gives the number. *)
Lemma Atoi_Itoa (v : Z) : is_int v -> strconv.Atoi (strconv.Itoa v) = (v, None).
Proof.
  intros Hv. destruct v as [|p|p].
  - reflexivity.
  - unfold strconv.Itoa. simpl Z.to_int. simpl NilZero.string_of_int.
    destruct (string_of_uint_head (Pos.to_uint p)) as (a & rest & Hs & Hplus & Hminus);
      [apply DecimalPos.Unsigned.to_uint_nonnil|].
    unfold strconv.Atoi. rewrite Hs, Hplus, Hminus, <- Hs.
    unfold strconv.parse. rewrite digits_of_pos.
    now rewrite in_int_true.
  - unfold strconv.Itoa. simpl Z.to_int. simpl NilZero.string_of_int.
    unfold strconv.Atoi.
    change (Ascii.eqb "-" "+") with false. change (Ascii.eqb "-" "-") with true.
    cbv iota. unfold strconv.parse. rewrite digits_of_pos.
    change (- Z.pos p) with (Z.neg p).
    now rewrite in_int_true.
Qed.

(** ** The relational version store *)

(** A [SetVersion] that reports success has replaced the content of the
    version table; one that reports an error has left the server as it
    was, whichever request failed. *)
Lemma Pg_SetVersion_outcome p v d w :
  match Pg.SetVersion p v d w with
  | (None, w1) =>
      Pg.done (Pg.conn p) = false
      /\ is_Some (Pg.tables (Pg.server w) !! Pg.MigrationsTable (Pg.config p))
      /\ Pg.server w1 =
           Pg.set_tables (<[Pg.MigrationsTable (Pg.config p) := written v d]>
                            (Pg.tables (Pg.server w))) (Pg.server w)
  | (Some _, w1) => Pg.server w1 = Pg.server w
  end.
Proof.
  unfold Pg.SetVersion, Pg.BeginTx, Pg.Tx_Exec, Pg.Tx_Rollback, Pg.Tx_Commit, Pg.send, written.
  destruct w as [srv f tr]; simpl.
  destruct (Pg.done (Pg.conn p)); simpl; [reflexivity|].
  destruct (next_fault f); simpl; [reflexivity|].
  destruct (next_fault (tail f)); simpl.
  { destruct (next_fault (tail (tail f))); reflexivity. }
  destruct (Pg.tables srv !! Pg.MigrationsTable (Pg.config p)) as [rows|] eqn:Ht; simpl.
  2:{ destruct (next_fault (tail (tail f))); reflexivity. }
  destruct ((0 <=? v) || (v =? NilVersion) && d); simpl.
  - destruct (next_fault (tail (tail f))); simpl.
    { destruct (next_fault (tail (tail (tail f)))); reflexivity. }
    rewrite lookup_insert_eq. simpl.
    destruct (next_fault (tail (tail (tail f)))); simpl; [reflexivity|].
    rewrite insert_insert_eq. eauto.
  - destruct (next_fault (tail (tail f))); simpl; [reflexivity|]. eauto.
Qed.

(** Without injected fault, [SetVersion] succeeds on an open handle whose
    version table exists. *)
Lemma Pg_SetVersion_succeeds p v d srv tr :
  open p ->
  is_Some (Pg.tables srv !! Pg.MigrationsTable (Pg.config p)) ->
  fst (Pg.SetVersion p v d {| Pg.server := srv; Pg.faults := []; Pg.trace := tr |}) = None.
Proof.
  unfold open. intros Hopen [rows Ht].
  unfold Pg.SetVersion, Pg.BeginTx, Pg.Tx_Exec, Pg.Tx_Rollback, Pg.Tx_Commit, Pg.send.
  rewrite Hopen. simpl. rewrite Ht. simpl.
  destruct ((0 <=? v) || (v =? NilVersion) && d); simpl; [|reflexivity].
  rewrite lookup_insert_eq. reflexivity.
Qed.

(** [Version] only reads. *)
Lemma Pg_Version_server p w : Pg.server (snd (Pg.Version p w)) = Pg.server w.
Proof.
  unfold Pg.Version, Pg.QueryRowContext, Pg.send.
  repeat case_match; simplify_eq; reflexivity.
Qed.

(** What an answered [Version()] returns, by the state of the table. *)
Lemma Pg_Version_read p w :
  open p -> next_fault (Pg.faults w) = None ->
  fst (Pg.Version p w) =
    match Pg.tables (Pg.server w) !! Pg.MigrationsTable (Pg.config p) with
    | Some ((v, d) :: _) => (v, d, None)
    | _ => (NilVersion, false, None)
    end.
Proof.
  unfold open. intros Hopen Hf.
  unfold Pg.Version, Pg.QueryRowContext, Pg.send. rewrite Hopen, Hf. simpl.
  destruct (Pg.tables (Pg.server w) !! Pg.MigrationsTable (Pg.config p)) as [[|[v d] rows]|];
    reflexivity.
Qed.

Lemma Pg_stored_read p srv :
  open p ->
  Pg_stored p srv =
    match Pg.tables srv !! Pg.MigrationsTable (Pg.config p) with
    | Some ((v, d) :: _) => (v, d, None)
    | _ => (NilVersion, false, None)
    end.
Proof. intros Hopen. unfold Pg_stored. now rewrite Pg_Version_read. Qed.

(** On the versions of the data model, the rows written read back as the
    pair that was set. *)
Lemma written_reads_back (v : Z) (d : bool) :
  -1 <= v ->
  match written v d with
  | (v', d') :: _ => (v', d', @None error)
  | [] => (NilVersion, false, None)
  end = (v, d, None).
Proof.
  intros Hv. unfold written, NilVersion.
  destruct (0 <=? v) eqn:H0; simpl; [reflexivity|].
  apply Z.leb_gt in H0. assert (v = -1) as -> by lia. simpl.
  now destruct d.
Qed.

Lemma Pg_roundtrip p v d w w1 :
  -1 <= v ->
  Pg.SetVersion p v d w = (None, w1) ->
  next_fault (Pg.faults w1) = None ->
  fst (Pg.Version p w1) = (v, d, None).
Proof.
  intros Hv Hset Hf.
  pose proof (Pg_SetVersion_outcome p v d w) as Hout. rewrite Hset in Hout.
  destruct Hout as (Hopen & _ & Hsrv).
  rewrite Pg_Version_read by assumption.
  rewrite Hsrv. simpl. rewrite lookup_insert_eq.
  now apply written_reads_back.
Qed.

(** ** The key-value version store *)

(** A [SetVersion] that reports success has put the whole item; one that
    reports an error has left the store as it was. *)
Lemma KV_SetVersion_outcome s v d w :
  match KV.SetVersion s v d w with
  | (None, w1) =>
      exists items,
        KV.store w !! KV.MigrationsTable (KV.config s) = Some items
        /\ KV.store w1 =
             <[KV.MigrationsTable (KV.config s) :=
                 <[KV.LatestMigrationVersion :=
                     <["ID" := KV.AttrS KV.LatestMigrationVersion]>
                       (<["Dirty" := KV.AttrBOOL d]>
                          (<["Version" := KV.AttrN (strconv.Itoa v)]> ∅))]> items]>
               (KV.store w)
  | (Some _, w1) => KV.store w1 = KV.store w
  end.
Proof.
  unfold KV.SetVersion, KV.dynamodb_PutItem, KV.send.
  destruct w as [st ps lg f tr]; simpl.
  destruct (next_fault f); simpl; [reflexivity|].
  destruct (st !! KV.MigrationsTable (KV.config s)) as [items|] eqn:Ht; simpl; [|reflexivity].
  unfold KV.key_of. rewrite lookup_insert_eq. simpl. eauto.
Qed.

Lemma KV_SetVersion_succeeds s v d w :
  KV.faults w = [] ->
  is_Some (KV.store w !! KV.MigrationsTable (KV.config s)) ->
  fst (KV.SetVersion s v d w) = None.
Proof.
  intros Hf [items Ht].
  unfold KV.SetVersion, KV.dynamodb_PutItem, KV.send. rewrite Hf. simpl. rewrite Ht.
  unfold KV.key_of. rewrite lookup_insert_eq. reflexivity.
Qed.

(** A read that does not lag is served from the latest write. *)
Lemma KV_seen_current w : KV.next_lag (KV.lag w) = O -> KV.seen w = KV.store w.
Proof. unfold KV.seen. now intros ->. Qed.

Lemma KV_Version_store s w : KV.store (snd (KV.Version s w)) = KV.store w.
Proof.
  unfold KV.Version, KV.dynamodb_GetItem, KV.send.
  repeat case_match; simplify_eq; reflexivity.
Qed.

(** The item [SetVersion] puts reads back as the pair that was set, when
    the read is served from a state that holds it. *)
Lemma KV_Version_of_item s v d w items rest :
  is_int v ->
  next_fault (KV.faults w) = None ->
  KV.seen w !! KV.MigrationsTable (KV.config s) = Some items ->
  items !! KV.LatestMigrationVersion =
    Some (<["ID" := KV.AttrS KV.LatestMigrationVersion]>
            (<["Dirty" := KV.AttrBOOL d]>
               (<["Version" := KV.AttrN (strconv.Itoa v)]> rest))) ->
  fst (KV.Version s w) = (v, d, None).
Proof.
  intros Hv Hf Ht Hitem.
  unfold KV.Version, KV.dynamodb_GetItem, KV.send. rewrite Hf. cbv beta iota zeta.
  change (KV.seen _) with (KV.seen w). rewrite Ht.
  unfold KV.key_of. rewrite lookup_insert_eq. simpl. rewrite Hitem. simpl.
  rewrite lookup_insert_eq.
  rewrite lookup_insert_ne by discriminate.
  rewrite lookup_insert_ne by discriminate.
  rewrite lookup_insert_eq. simpl.
  rewrite Atoi_Itoa by assumption.
  rewrite lookup_insert_ne by discriminate.
  rewrite lookup_insert_eq. reflexivity.
Qed.

(** A table without the item reads as the empty state. *)
Lemma KV_Version_no_item s w items :
  next_fault (KV.faults w) = None ->
  KV.seen w !! KV.MigrationsTable (KV.config s) = Some items ->
  items !! KV.LatestMigrationVersion = None ->
  fst (KV.Version s w) = (-1, false, None).
Proof.
  intros Hf Ht Hitem.
  unfold KV.Version, KV.dynamodb_GetItem, KV.send. rewrite Hf. cbv beta iota zeta.
  change (KV.seen _) with (KV.seen w). rewrite Ht.
  unfold KV.key_of. rewrite lookup_insert_eq. simpl. rewrite Hitem. reflexivity.
Qed.

(** A missing table is reported as the service's error. *)
Lemma KV_Version_no_table s w :
  next_fault (KV.faults w) = None ->
  KV.seen w !! KV.MigrationsTable (KV.config s) = None ->
  fst (KV.Version s w) = (0, false, Some (AwsError "ResourceNotFoundException")).
Proof.
  intros Hf Ht.
  unfold KV.Version, KV.dynamodb_GetItem, KV.send. rewrite Hf. cbv beta iota zeta.
  change (KV.seen _) with (KV.seen w). rewrite Ht.
  reflexivity.
Qed.

(** A read served from the latest write returns the pair that was set. *)
Lemma KV_roundtrip s v d w w1 :
  is_int v ->
  KV.SetVersion s v d w = (None, w1) ->
  next_fault (KV.faults w1) = None ->
  KV.next_lag (KV.lag w1) = O ->
  fst (KV.Version s w1) = (v, d, None).
Proof.
  intros Hv Hset Hf Hlag.
  pose proof (KV_SetVersion_outcome s v d w) as Hout. rewrite Hset in Hout.
  destruct Hout as (items & Ht & Hst).
  eapply KV_Version_of_item; eauto.
  - rewrite KV_seen_current by exact Hlag. rewrite Hst. apply lookup_insert_eq.
  - apply lookup_insert_eq.
Qed.

(** C1. For every pair [(version, dirty)] with [version >= -1],
    [SetVersion(version, dirty)] followed by [Version()] on the same store
    returns exactly [(version, dirty)] and no error: whenever
    [SetVersion] of [shell.go] has returned without error and the query
    of [Version] is answered, [Version] returns the pair, and on an
    existing table without injected fault [SetVersion] does return
    without error.  In particular [(-1, true)] reads back as
    [(-1, true)]. *)
Theorem SetVersion_Version_roundtrip (version : Z) (dirty : bool) :
  -1 <= version ->
  (forall p w w1,
      Pg.SetVersion p version dirty w = (None, w1) ->
      next_fault (Pg.faults w1) = None ->
      fst (Pg.Version p w1) = (version, dirty, None))
  /\ (forall p srv tr,
      open p -> is_Some (Pg.tables srv !! Pg.MigrationsTable (Pg.config p)) ->
      let r := Pg.SetVersion p version dirty
                 {| Pg.server := srv; Pg.faults := []; Pg.trace := tr |} in
      fst r = None /\ fst (Pg.Version p (snd r)) = (version, dirty, None)).
Proof.
  intros Hv. split.
  - intros p w w1. now apply Pg_roundtrip.
  - intros p srv tr Hopen Ht r.
    pose proof (Pg_SetVersion_succeeds p version dirty srv tr Hopen Ht) as Hok.
    fold r in Hok. split; [exact Hok|].
    destruct r as [e w1] eqn:Hr. simpl in *. subst e.
    eapply Pg_roundtrip; eauto.
    unfold r in Hr. clear r.
    revert Hr. unfold Pg.SetVersion, Pg.BeginTx, Pg.Tx_Exec, Pg.Tx_Rollback,
      Pg.Tx_Commit, Pg.send. simpl.
    repeat case_match; intros; simplify_eq; reflexivity.
Qed.

(** The dirty record without version, set and read back. *)
Lemma SetVersion_Version_roundtrip_witness :
  -1 <= -1
  /\ fst (Pg.Version Demo.pg_handle
            (snd (Pg.SetVersion Demo.pg_handle (-1) true
                    (Demo.pg_world Demo.ready_server [])))) = (-1, true, None).
Proof.
  assert (H1 : -1 <= -1) by lia.
  destruct (SetVersion_Version_roundtrip (-1) true H1) as (_ & Hpg).
  split; [assumption|].
  apply (Hpg Demo.pg_handle Demo.ready_server []); [reflexivity|].
  vm_compute. eauto.
Defined.

(** C3. [SetVersion] is atomic.  Whatever requests fail, after any
    [SetVersion(version, dirty)] call either the call has returned without
    error and the whole replacement is in place, or the call has returned
    an error and the backing store is exactly as it was before the call:
    a truncated table without the new row committed is never left behind.
    In place means: the version table holds exactly the rows [written
    version dirty], which a following [Version()] reads as the full new
    pair [(version, dirty)] for every version of the data model,
    [version >= -1].  The same holds of the single put of the key-value
    variant. *)
Theorem SetVersion_atomic (version : Z) (dirty : bool) :
  (forall p w,
      let r := Pg.SetVersion p version dirty w in
      (fst r = None
       /\ Pg.server (snd r)
          = Pg.set_tables (<[Pg.MigrationsTable (Pg.config p) := written version dirty]>
                             (Pg.tables (Pg.server w))) (Pg.server w)
       /\ (-1 <= version ->
           Pg_stored p (Pg.server (snd r)) = (version, dirty, None)))
      \/ (fst r <> None /\ Pg.server (snd r) = Pg.server w))
  /\ (forall s w,
      let r := KV.SetVersion s version dirty w in
      (fst r = None
       /\ (is_int version ->
           KV_stored s (KV.store (snd r)) = (version, dirty, None)))
      \/ (fst r <> None /\ KV.store (snd r) = KV.store w)).
Proof.
  split.
  - intros p w r. pose proof (Pg_SetVersion_outcome p version dirty w) as Hout.
    fold r in Hout. destruct r as [[e|] w1]; simpl.
    + right. split; [discriminate|exact Hout].
    + left. split; [reflexivity|]. destruct Hout as (Hopen & _ & Hsrv).
      split; [exact Hsrv|]. intros Hv.
      rewrite Pg_stored_read by exact Hopen.
      rewrite Hsrv. simpl. rewrite lookup_insert_eq.
      now apply written_reads_back.
  - intros s w r. pose proof (KV_SetVersion_outcome s version dirty w) as Hout.
    fold r in Hout. destruct r as [[e|] w1]; simpl.
    + right. split; [discriminate|exact Hout].
    + left. split; [reflexivity|]. destruct Hout as (items & Ht & Hst).
      intros Hint. unfold KV_stored. eapply KV_Version_of_item; eauto; simpl.
      * rewrite Hst. apply lookup_insert_eq.
      * apply lookup_insert_eq.
Qed.

(** An insert that fails after the truncate: the record [(3, true)] is
    still there. *)
Lemma SetVersion_atomic_witness :
  let r := Pg.SetVersion Demo.pg_handle 4 false
             (Demo.pg_world
                (Pg.set_tables {["schema_migrations" := [(3, true)]]} Demo.ready_server)
                [None; None; Some (IOError "connection reset")]) in
  fst r <> None
  /\ Pg_stored Demo.pg_handle (Pg.server (snd r)) = (3, true, None).
Proof.
  destruct (SetVersion_atomic 4 false) as [Hpg _].
  intros r.
  destruct (Hpg Demo.pg_handle
              (Demo.pg_world
                 (Pg.set_tables {["schema_migrations" := [(3, true)]]} Demo.ready_server)
                 [None; None; Some (IOError "connection reset")])) as [[Hok _]|[Herr Hsame]].
  - exfalso. vm_compute in Hok. discriminate.
  - split; [exact Herr|]. fold r in Hsame. rewrite Hsame. vm_compute. reflexivity.
Defined.

(** ** What a session changes on the server *)

Lemma acts_as_refl sid srv : acts_as sid srv srv.
Proof. unfold acts_as. intuition. Qed.

Lemma acts_as_trans sid srv1 srv2 srv3 :
  acts_as sid srv1 srv2 -> acts_as sid srv2 srv3 -> acts_as sid srv1 srv3.
Proof.
  unfold acts_as. intros (Hle1 & -> & -> & H12) (Hle2 & -> & -> & H23).
  repeat split; try reflexivity; [lia| |].
  - intros Hl. apply H12; [assumption|]. now apply H23.
  - intros Hl. apply H23; [assumption|]. now apply H12.
Qed.

Lemma acts_as_set_tables sid t srv : acts_as sid srv (Pg.set_tables t srv).
Proof. unfold acts_as. simpl. intuition. Qed.

Lemma acts_as_lock sid aid srv srv1 :
  Pg.pg_advisory_lock sid aid srv = Some srv1 ->
  acts_as sid srv srv1
  /\ Pg.tables srv1 = Pg.tables srv
  /\ exists n, Pg.advisory srv1 !! aid = Some (sid, n).
Proof.
  unfold Pg.pg_advisory_lock.
  destruct (Pg.advisory srv !! aid) as [[owner n]|] eqn:Ha.
  - destruct (decide (owner = sid)) as [->|]; [|discriminate].
    intros [= <-]. simpl. split; [|split; [reflexivity|]].
    + unfold acts_as. simpl. repeat split; try reflexivity.
      * intros Hl. destruct (decide (aid0 = aid)) as [->|Hne].
        -- rewrite lookup_insert_eq in Hl. congruence.
        -- now rewrite lookup_insert_ne in Hl.
      * intros Hl. destruct (decide (aid0 = aid)) as [->|Hne].
        -- congruence.
        -- now rewrite lookup_insert_ne.
    + rewrite lookup_insert_eq. eauto.
  - intros [= <-]. simpl. split; [|split; [reflexivity|]].
    + unfold acts_as. simpl. repeat split; try reflexivity.
      * intros Hl. destruct (decide (aid0 = aid)) as [->|Hne].
        -- rewrite lookup_insert_eq in Hl. congruence.
        -- now rewrite lookup_insert_ne in Hl.
      * intros Hl. destruct (decide (aid0 = aid)) as [->|Hne].
        -- congruence.
        -- now rewrite lookup_insert_ne.
    + rewrite lookup_insert_eq. eauto.
Qed.

Lemma acts_as_unlock sid aid srv :
  acts_as sid srv (Pg.pg_advisory_unlock sid aid srv)
  /\ Pg.tables (Pg.pg_advisory_unlock sid aid srv) = Pg.tables srv.
Proof.
  unfold Pg.pg_advisory_unlock.
  destruct (Pg.advisory srv !! aid) as [[owner n]|] eqn:Ha;
    [|split; [apply acts_as_refl|reflexivity]].
  assert (Hdel : acts_as owner srv (Pg.set_advisory (delete aid (Pg.advisory srv)) srv)).
  { unfold acts_as. simpl. repeat split; try reflexivity.
    - intros Hl. apply lookup_delete_Some in Hl. tauto.
    - intros Hl. apply lookup_delete_Some. split; [|assumption]. congruence. }
  assert (Hins : forall m,
             acts_as owner srv (Pg.set_advisory (<[aid := (owner, m)]> (Pg.advisory srv)) srv)).
  { intros m. unfold acts_as. simpl. repeat split; try reflexivity.
    - intros Hl. destruct (decide (aid0 = aid)) as [->|Hne].
      + rewrite lookup_insert_eq in Hl. congruence.
      + now rewrite lookup_insert_ne in Hl.
    - intros Hl. destruct (decide (aid0 = aid)) as [->|Hne].
      + congruence.
      + now rewrite lookup_insert_ne. }
  destruct n as [|[|n]]; destruct (decide (owner = sid)) as [->|];
    (split; [first [apply acts_as_refl | apply Hdel | apply Hins] | reflexivity]).
Qed.

Lemma acts_as_end_session sid srv :
  acts_as sid srv (Pg.end_session sid srv)
  /\ Pg.tables (Pg.end_session sid srv) = Pg.tables srv
  /\ forall aid n, Pg.advisory (Pg.end_session sid srv) !! aid <> Some (sid, n).
Proof.
  unfold Pg.end_session, acts_as. simpl. repeat split; try reflexivity.
  - intros Hl. apply map_lookup_filter_Some in Hl. tauto.
  - intros Hl. apply map_lookup_filter_Some. split; [assumption|]. simpl. assumption.
  - intros aid n Hl. apply map_lookup_filter_Some in Hl. simpl in Hl. tauto.
Qed.

(** ** [Drop] *)

Lemma Pg_ExecContext_tables c ctx q w :
  match q with AdvisoryLock _ | AdvisoryUnlock _ => False | _ => True end ->
  let r := Pg.ExecContext c ctx q w in
  acts_as (Pg.session c) (Pg.server w) (Pg.server (snd r))
  /\ Pg.advisory (Pg.server (snd r)) = Pg.advisory (Pg.server w)
  /\ (fst r = None ->
      Pg.done c = false /\ next_fault (Pg.faults w) = None
      /\ Pg.tables (Pg.server (snd r)) = snd (Pg.run_stmt q (Pg.tables (Pg.server w)))).
Proof.
  intros Hq. unfold Pg.ExecContext, Pg.send.
  destruct (Pg.done c); simpl.
  { split; [apply acts_as_refl|]. split; [reflexivity|discriminate]. }
  destruct (next_fault (Pg.faults w)); simpl.
  { split; [apply acts_as_refl|]. split; [reflexivity|discriminate]. }
  destruct q; try contradiction; simpl;
    repeat match goal with
      | |- context [match ?t !! ?k with _ => _ end] => destruct (t !! k); simpl
      | |- context [if ?b then _ else _] => destruct b; simpl
      end;
    (split; [apply acts_as_set_tables|]; split; [reflexivity|]; intros; auto).
Qed.

Lemma Pg_drop_each_spec c names : forall w,
  let r := Pg.drop_each c names w in
  acts_as (Pg.session c) (Pg.server w) (Pg.server (snd r))
  /\ Pg.advisory (Pg.server (snd r)) = Pg.advisory (Pg.server w)
  /\ (fst r = None ->
      forall t, Pg.tables (Pg.server (snd r)) !! t =
                  if bool_decide (t ∈ names) then None
                  else Pg.tables (Pg.server w) !! t).
Proof.
  induction names as [|n names IH]; intros w; cbn [Pg.drop_each fst snd].
  - split; [apply acts_as_refl|]. split; [reflexivity|]. intros _ t.
    rewrite bool_decide_eq_false_2 by apply not_elem_of_nil. reflexivity.
  - pose proof (Pg_ExecContext_tables c Background (DropTable n) w I) as Hx.
    cbn zeta in Hx.
    destruct (Pg.ExecContext c Background (DropTable n) w) as [[e|] w1];
      cbn [fst snd Pg.run_stmt] in *.
    + destruct Hx as (Hacts & Hadv & _). split; [assumption|]. split; [assumption|discriminate].
    + destruct Hx as (Hacts & Hadv & Hok). destruct (Hok eq_refl) as (_ & _ & Ht).
      destruct (IH w1) as (Hacts' & Hadv' & Hok').
      split; [eapply acts_as_trans; eassumption|]. split; [congruence|].
      intros Hnone t. rewrite (Hok' Hnone t), Ht.
      destruct (decide (t = n)) as [->|Hne].
      * rewrite (bool_decide_eq_true_2 (n ∈ n :: names)) by (apply elem_of_cons; now left).
        rewrite lookup_delete_eq. now destruct (bool_decide (n ∈ names)).
      * rewrite lookup_delete_ne by congruence.
        destruct (bool_decide (t ∈ names)) eqn:Hin.
        -- apply bool_decide_eq_true_1 in Hin.
           rewrite bool_decide_eq_true_2; [reflexivity|]. apply elem_of_cons; now right.
        -- apply bool_decide_eq_false_1 in Hin.
           rewrite bool_decide_eq_false_2; [reflexivity|].
           intros Hin'. apply elem_of_cons in Hin'. tauto.
Qed.

(** [Drop] leaves the locks alone; when it reports success, no named
    table is left. *)
Lemma Pg_Drop_spec p w :
  let r := Pg.Drop p w in
  acts_as (Pg.session (Pg.conn p)) (Pg.server w) (Pg.server (snd r))
  /\ Pg.advisory (Pg.server (snd r)) = Pg.advisory (Pg.server w)
  /\ (fst r = None ->
      open p /\ forall t, t <> EmptyString -> Pg.tables (Pg.server (snd r)) !! t = None).
Proof.
  unfold Pg.Drop, Pg.QueryContext, Pg.send, open.
  destruct (Pg.done (Pg.conn p)); simpl.
  { split; [apply acts_as_refl|]. split; [reflexivity|discriminate]. }
  destruct (next_fault (Pg.faults w)); simpl.
  { split; [apply acts_as_refl|]. split; [reflexivity|discriminate]. }
  match goal with |- context [Pg.drop_each ?c ?l ?w0] =>
    pose proof (Pg_drop_each_spec c l w0) as Hd;
    destruct (Pg.drop_each c l w0) as [e w1] eqn:Heq end.
  simpl in Hd. destruct Hd as (Hacts & Hadv & Hok).
  destruct (next_fault (Pg.faults w1)); simpl.
  { split; [assumption|]. split; [assumption|discriminate]. }
  split; [assumption|]. split; [assumption|].
  intros ->. split; [reflexivity|]. intros t Ht.
  rewrite (Hok eq_refl t).
  destruct (bool_decide _) eqn:Hin; [reflexivity|].
  apply bool_decide_eq_false_1 in Hin.
  destruct (Pg.tables (Pg.server w) !! t) as [rows|] eqn:Hl; [|reflexivity].
  exfalso. apply Hin. apply list_elem_of_filter. split.
  - destruct t; [congruence|simpl; lia].
  - apply list_elem_of_fmap. exists (t, rows). split; [reflexivity|].
    now apply elem_of_map_to_list.
Qed.

(** ** Traces *)

Lemma grows_refl P tr : grows P tr tr.
Proof. exists []. split; [reflexivity|constructor]. Qed.

Lemma grows_cons (P : Context -> Prop) tr tr1 c q :
  P c -> grows P tr tr1 -> grows P tr ((c, q) :: tr1).
Proof.
  intros Hc (new & -> & Hall). exists ((c, q) :: new).
  split; [reflexivity|]. now constructor.
Qed.

Lemma grows_trans P tr1 tr2 tr3 : grows P tr1 tr2 -> grows P tr2 tr3 -> grows P tr1 tr3.
Proof.
  intros (n1 & -> & H1) (n2 & -> & H2). exists (n2 ++ n1).
  split; [now rewrite app_assoc|]. now apply Forall_app.
Qed.

(** Closes goals about the trace of a world reached by a known number of
    requests. *)
Ltac trace_grows :=
  unfold background_only; simpl;
  repeat (apply grows_cons; [reflexivity|]); apply grows_refl.

Lemma no_fault_in_0 f : no_fault_in 0 f.
Proof. intros i Hi. lia. Qed.

Lemma no_fault_in_S k f :
  next_fault f = None -> no_fault_in k (tail f) -> no_fault_in (S k) f.
Proof.
  intros H0 Hk [|i] Hi; [exact H0|].
  destruct f as [|x f]; [now destruct i|]. simpl. apply Hk. lia.
Qed.

Lemma clean_refl w : clean w w [].
Proof.
  unfold clean, sent. simpl. split; [reflexivity|]. split; [reflexivity|apply no_fault_in_0].
Qed.

Lemma no_fault_in_app k m f :
  no_fault_in k f -> no_fault_in m (drop k f) -> no_fault_in (m + k) f.
Proof.
  intros Hk Hm i Hi. destruct (decide (i < k)%nat) as [Hlt|Hge]; [now apply Hk|].
  replace i with (k + (i - k))%nat by lia. rewrite <- drop_drop. apply Hm. lia.
Qed.

Lemma clean_trans w w1 w2 n1 n2 :
  clean w w1 n1 -> clean w1 w2 n2 -> clean w w2 (n2 ++ n1).
Proof.
  unfold clean, sent. intros (Ht1 & Hf1 & Hn1) (Ht2 & Hf2 & Hn2).
  rewrite length_app. split; [|split].
  - rewrite Ht2, Ht1. now rewrite app_assoc.
  - rewrite Hf2, Hf1, drop_drop. f_equal. lia.
  - apply no_fault_in_app; [assumption|]. now rewrite <- Hf1.
Qed.

Lemma clean_send ctx q w :
  next_fault (Pg.faults w) = None -> clean w (snd (Pg.send ctx q w)) [(ctx, q)].
Proof.
  intros Hf. unfold clean, sent. simpl. split; [reflexivity|]. split.
  - now destruct (Pg.faults w).
  - apply no_fault_in_S; [assumption|apply no_fault_in_0].
Qed.

Lemma clean_set_server w w1 new srv :
  clean w w1 new -> clean w (Pg.set_server srv w1) new.
Proof. unfold clean, sent. simpl. auto. Qed.

(** ** [Lock] and [Unlock] *)

Section Locking.
Context {ext : Externals}.

(** [Lock] on a handle that is not locked: either the server has
    granted the lock to the handle's session and the flag is raised, or
    an error is returned and neither flag nor server has changed. *)
Lemma Pg_Lock_spec p w e p1 w1 :
  Pg.Lock p w = Some (e, p1, w1) ->
  background_only w w1
  /\ match e with
     | None =>
         Pg.isLocked p = false /\ open p /\ p1 = Pg.set_isLocked true p
         /\ next_fault (Pg.faults w) = None
         /\ Pg.faults w1 = tail (Pg.faults w)
         /\ exists aid,
             GenerateAdvisoryLockId (Pg.DatabaseName (Pg.config p))
               (Pg.SchemaName (Pg.config p)) = inl aid
             /\ Pg.pg_advisory_lock (Pg.session (Pg.conn p)) aid (Pg.server w)
                = Some (Pg.server w1)
             /\ Pg.trace w1 = (Background, AdvisoryLock aid) :: Pg.trace w
     | Some _ => p1 = p /\ Pg.server w1 = Pg.server w
     end.
Proof.
  unfold Pg.Lock, Pg.ExecContext_lock, Pg.send, open.
  destruct (Pg.isLocked p); [intros [= <- <- <-]; split; [trace_grows|auto]|].
  destruct (GenerateAdvisoryLockId _ _) as [aid|err] eqn:Hid;
    [|intros [= <- <- <-]; split; [trace_grows|auto]].
  destruct (Pg.done (Pg.conn p)); [intros [= <- <- <-]; split; [trace_grows|auto]|].
  destruct (next_fault (Pg.faults w)) eqn:Hf;
    [intros [= <- <- <-]; split; [trace_grows|auto]|].
  simpl.
  destruct (Pg.pg_advisory_lock _ _ _) as [srv|] eqn:Hl; [|discriminate].
  intros [= <- <- <-]. split; [trace_grows|].
  repeat split; try reflexivity. exists aid. simpl. auto.
Qed.

(** [Unlock]: either it returns without error and the flag is down, the
    server having released the lock if the flag was up, or it returns
    an error and neither flag nor server has changed. *)
Lemma Pg_Unlock_spec p w :
  let r := Pg.Unlock p w in
  background_only w (snd r)
  /\ Pg.conn (snd (fst r)) = Pg.conn p /\ Pg.config (snd (fst r)) = Pg.config p
  /\ match fst (fst r) with
     | None =>
         Pg.isLocked (snd (fst r)) = false
         /\ ((Pg.isLocked p = false /\ snd r = w)
             \/ (Pg.isLocked p = true /\ open p
                 /\ next_fault (Pg.faults w) = None
                 /\ Pg.faults (snd r) = tail (Pg.faults w)
                 /\ exists aid,
                     GenerateAdvisoryLockId (Pg.DatabaseName (Pg.config p))
                       (Pg.SchemaName (Pg.config p)) = inl aid
                     /\ Pg.server (snd r)
                        = Pg.pg_advisory_unlock (Pg.session (Pg.conn p)) aid (Pg.server w)
                     /\ Pg.trace (snd r) = (Background, AdvisoryUnlock aid) :: Pg.trace w))
     | Some _ =>
         snd (fst r) = p /\ Pg.isLocked p = true /\ Pg.server (snd r) = Pg.server w
     end.
Proof.
  unfold Pg.Unlock, Pg.ExecContext, Pg.send, open.
  destruct (Pg.isLocked p) eqn:Hlk; simpl.
  2:{ split; [trace_grows|]. intuition eauto. }
  destruct (GenerateAdvisoryLockId _ _) as [aid|err] eqn:Hid; simpl.
  2:{ split; [trace_grows|]. intuition eauto. }
  destruct (Pg.done (Pg.conn p)); simpl.
  { split; [trace_grows|]. intuition eauto. }
  destruct (next_fault (Pg.faults w)) eqn:Hf; simpl.
  { split; [trace_grows|]. intuition eauto. }
  split; [trace_grows|]. repeat split; try reflexivity.
  right. repeat split; try reflexivity. exists aid. auto.
Qed.

(** [Close] ends the session and keeps the flag. *)
Lemma Pg_Close_spec p w :
  let r := Pg.Close p w in
  background_only w (snd r)
  /\ Pg.done (Pg.conn (snd (fst r))) = true
  /\ Pg.session (Pg.conn (snd (fst r))) = Pg.session (Pg.conn p)
  /\ Pg.isLocked (snd (fst r)) = Pg.isLocked p
  /\ Pg.config (snd (fst r)) = Pg.config p
  /\ Pg.server (snd r) = Pg.end_session (Pg.session (Pg.conn p)) (Pg.server w).
Proof.
  unfold Pg.Close, Pg.send. simpl. split; [trace_grows|]. auto.
Qed.

End Locking.

(** ** Opening a handle *)

Lemma Pg_ExecContext_sent c ctx q w :
  let r := Pg.ExecContext c ctx q w in
  grows (fun x => x = ctx) (Pg.trace w) (Pg.trace (snd r))
  /\ (fst r = None ->
      Pg.trace (snd r) = (ctx, q) :: Pg.trace w /\ Pg.faults (snd r) = tail (Pg.faults w)).
Proof.
  unfold Pg.ExecContext, Pg.send.
  destruct (Pg.done c); simpl; [split; [apply grows_refl|discriminate]|].
  destruct (next_fault (Pg.faults w)); simpl;
    [split; [apply grows_cons; [reflexivity|apply grows_refl]|discriminate]|].
  destruct q; simpl;
    repeat match goal with
      | |- context [match ?t !! ?k with _ => _ end] => destruct (t !! k); simpl
      | |- context [if ?b then _ else _] => destruct b; simpl
      end;
    (split; [apply grows_cons; [reflexivity|apply grows_refl]|auto]).
Qed.

Lemma acts_as_connect sid srv : acts_as sid srv (Pg.connect srv).
Proof. unfold acts_as. simpl. repeat split; auto. Qed.

Section Opening.
Context {ext : Externals}.

(** [ensureVersionTable] on a fresh handle: when it succeeds, the table
    has been created if it was absent, by a request sent between the
    acquisition and the release of the advisory lock, and none of the
    three requests has failed. *)
Lemma Pg_ensureVersionTable_spec p w e p1 w1 :
  Pg.isLocked p = false ->
  Pg.ensureVersionTable p w = Some (e, p1, w1) ->
  background_only w w1
  /\ acts_as (Pg.session (Pg.conn p)) (Pg.server w) (Pg.server w1)
  /\ (e = None ->
      p1 = p /\ open p
      /\ Pg.tables (Pg.server w1)
         = created (Pg.MigrationsTable (Pg.config p)) (Pg.tables (Pg.server w))
      /\ exists aid,
          clean w w1 [(Background, AdvisoryUnlock aid);
                      (Background, CreateVersionTable (Pg.MigrationsTable (Pg.config p)));
                      (Background, AdvisoryLock aid)]).
Proof.
  intros Hlk. unfold Pg.ensureVersionTable.
  destruct (Pg.Lock p w) as [[[e0 p0] w0]|] eqn:HL; [|discriminate].
  apply Pg_Lock_spec in HL. destruct HL as [Hbg0 HL].
  destruct e0 as [err|].
  { destruct HL as (-> & Hsrv). intros [= <- <- <-].
    split; [assumption|]. split; [rewrite Hsrv; apply acts_as_refl|discriminate]. }
  destruct HL as (_ & Hopen & -> & Hf0 & Hfs0 & aid & Hid & Hgrant & Htr0).
  apply acts_as_lock in Hgrant. destruct Hgrant as (Hacts0 & Htab0 & _).
  cbn [Pg.conn Pg.config Pg.set_isLocked].
  pose proof (Pg_ExecContext_tables (Pg.conn p) Background
                (CreateVersionTable (Pg.MigrationsTable (Pg.config p))) w0 I) as Hx.
  pose proof (Pg_ExecContext_sent (Pg.conn p) Background
                (CreateVersionTable (Pg.MigrationsTable (Pg.config p))) w0) as Hs.
  cbn zeta in Hx, Hs.
  destruct (Pg.ExecContext _ _ _ w0) as [r wc]. cbn [fst snd] in Hx, Hs.
  destruct Hx as (Hacts1 & _ & Hok1). destruct Hs as (Hbg1 & Hsent1).
  pose proof (Pg_Unlock_spec (Pg.set_isLocked true p) wc) as Hu. cbn zeta in Hu.
  destruct (Pg.Unlock (Pg.set_isLocked true p) wc) as [[eu pu] wu].
  cbn [fst snd] in Hu. destruct Hu as (Hbg2 & Hconn & Hcfg & Hu).
  intros Heq. injection Heq as He <- <-.
  split; [exact (grows_trans _ _ _ _ (grows_trans _ _ _ _ Hbg0 Hbg1) Hbg2)|].
  assert (Hacts : acts_as (Pg.session (Pg.conn p)) (Pg.server w) (Pg.server wu)).
  { eapply acts_as_trans; [exact Hacts0|]. eapply acts_as_trans; [exact Hacts1|].
    destruct eu as [err|].
    - destruct Hu as (_ & _ & ->). apply acts_as_refl.
    - destruct Hu as (_ & [[Hno _]|(_ & _ & _ & _ & aid' & _ & -> & _)]);
        [discriminate|]. apply acts_as_unlock. }
  split; [exact Hacts|].
  intros ->. destruct eu as [err|]; [destruct r; discriminate|].
  destruct r as [err|]; [discriminate|].
  destruct (Hok1 eq_refl) as (_ & Hf1 & Htab1).
  destruct (Hsent1 eq_refl) as (Htr1 & Hfs1).
  destruct Hu as (Hlk' & [[Hno _]|(_ & _ & Hf2 & Hfs2 & aid' & Hid' & Hsrv2 & Htr2)]);
    [discriminate|].
  cbn [Pg.conn Pg.config Pg.set_isLocked] in *.
  assert (aid' = aid) as -> by congruence.
  split.
  { destruct p as [c l cfg], pu as [c' l' cfg']. simpl in *. congruence. }
  split; [exact Hopen|]. split.
  { rewrite Hsrv2. rewrite (proj2 (acts_as_unlock _ _ _)).
    rewrite Htab1, Htab0. unfold created. simpl.
    now destruct (Pg.tables (Pg.server w) !! Pg.MigrationsTable (Pg.config p)). }
  exists aid. split; [|split].
  - unfold sent. rewrite Htr2, Htr1, Htr0. reflexivity.
  - rewrite Hfs2, Hfs1, Hfs0. simpl. now destruct (Pg.faults w) as [|? [|? [|? ?]]].
  - apply no_fault_in_S; [exact Hf0|]. rewrite <- Hfs0.
    apply no_fault_in_S; [exact Hf1|]. rewrite <- Hfs1.
    apply no_fault_in_S; [exact Hf2|]. apply no_fault_in_0.
Qed.

Lemma send_inv ctx q w e w0 :
  Pg.send ctx q w = (e, w0) ->
  e = next_fault (Pg.faults w)
  /\ Pg.server w0 = Pg.server w
  /\ grows (fun c => c = ctx) (Pg.trace w) (Pg.trace w0)
  /\ (e = None -> clean w w0 [(ctx, q)]).
Proof.
  intros Hs. pose proof (clean_send ctx q w) as Hc. rewrite Hs in Hc.
  unfold Pg.send in Hs. injection Hs as <- <-.
  split; [reflexivity|]. split; [reflexivity|]. split; [|exact Hc].
  apply grows_cons; [reflexivity|apply grows_refl].
Qed.

Lemma Pg_connect_and_ensure cfg w2 r w1 :
  match Pg.DB_Conn Background w2 with
  | (inr err, w3) => Some (inr err, w3)
  | (inl conn, w3) =>
      match Pg.ensureVersionTable
              {| Pg.conn := conn; Pg.isLocked := false; Pg.config := cfg |} w3 with
      | None => None
      | Some (Some err, _, w4) => Some (inr err, w4)
      | Some (None, px, w4) => Some (inl px, w4)
      end
  end = Some (r, w1) ->
  background_only w2 w1
  /\ acts_as (Pg.next_session (Pg.server w2)) (Pg.server w2) (Pg.server w1)
  /\ (Pg.server w1 = Pg.server w2
      \/ (Pg.next_session (Pg.server w2) < Pg.next_session (Pg.server w1))%nat)
  /\ forall px, r = inl px ->
       px = {| Pg.conn := {| Pg.session := Pg.next_session (Pg.server w2);
                             Pg.done := false |};
               Pg.isLocked := false; Pg.config := cfg |}
       /\ (Pg.next_session (Pg.server w2) < Pg.next_session (Pg.server w1))%nat
       /\ Pg.tables (Pg.server w1)
          = created (Pg.MigrationsTable cfg) (Pg.tables (Pg.server w2))
       /\ exists aid,
           clean w2 w1 [(Background, AdvisoryUnlock aid);
                        (Background, CreateVersionTable (Pg.MigrationsTable cfg));
                        (Background, AdvisoryLock aid);
                        (Background, AcquireConn)].
Proof.
  unfold Pg.DB_Conn.
  destruct (Pg.send Background AcquireConn w2) as [e w3] eqn:Hs.
  apply send_inv in Hs. destruct Hs as (-> & Hsrv & Hbg & Hclean).
  destruct (next_fault (Pg.faults w2)) as [err|] eqn:Hf.
  { intros [= <- <-]. split; [exact Hbg|]. rewrite Hsrv.
    split; [apply acts_as_refl|]. split; [now left|discriminate]. }
  specialize (Hclean eq_refl).
  match goal with |- context [Pg.ensureVersionTable ?p ?w] =>
    destruct (Pg.ensureVersionTable p w) as [[[e px] w4]|] eqn:He end; [|discriminate].
  apply Pg_ensureVersionTable_spec in He; [|reflexivity].
  cbn [Pg.conn Pg.session Pg.config Pg.server Pg.set_server Pg.trace] in He.
  destruct He as (Hbg' & Hacts & Hok).
  intros Hr.
  assert (Hw : w1 = w4) by (destruct e; congruence). subst w4.
  rewrite Hsrv in *.
  assert (Hlt : (Pg.next_session (Pg.server w2) < Pg.next_session (Pg.server w1))%nat).
  { destruct Hacts as (Hle & _). simpl in Hle. lia. }
  split; [eapply grows_trans; [exact Hbg|exact Hbg']|].
  split; [eapply acts_as_trans; [apply acts_as_connect|exact Hacts]|].
  split; [now right|].
  intros px0 ->. destruct e as [err|]; [discriminate|]. injection Hr as <-.
  destruct (Hok eq_refl) as (-> & _ & Htab & aid & Hc).
  split; [reflexivity|]. split; [exact Hlt|]. split; [exact Htab|].
  exists aid.
  apply (clean_trans w2 w3 w1 [(Background, AcquireConn)]
           [(Background, AdvisoryUnlock aid);
            (Background, CreateVersionTable (Pg.MigrationsTable cfg));
            (Background, AdvisoryLock aid)] Hclean).
  destruct Hc as (Hc1 & Hc2 & Hc3). split; [exact Hc1|]. split; assumption.
Qed.

Lemma DB_QueryRow_inv q answer w r w0 :
  Pg.DB_QueryRow q answer w = (r, w0) ->
  Pg.server w0 = Pg.server w
  /\ background_only w w0
  /\ forall name, r = inl name -> name = answer (Pg.server w) /\ clean w w0 [(Background, q)].
Proof.
  unfold Pg.DB_QueryRow.
  destruct (Pg.send Background q w) as [e w'] eqn:Hs.
  apply send_inv in Hs. destruct Hs as (-> & Hsrv & Hbg & Hclean).
  destruct (next_fault (Pg.faults w)); intros [= <- <-];
    (split; [exact Hsrv|]; split; [exact Hbg|]).
  - discriminate.
  - intros name [= <-]. rewrite Hsrv. auto.
Qed.

Lemma Pg_WithInstance_spec cfg w r w1 :
  Pg.WithInstance (Some cfg) w = Some (r, w1) ->
  background_only w w1
  /\ acts_as (Pg.next_session (Pg.server w)) (Pg.server w) (Pg.server w1)
  /\ (Pg.server w1 = Pg.server w
      \/ (Pg.next_session (Pg.server w) < Pg.next_session (Pg.server w1))%nat)
  /\ forall px, r = inl px ->
       Pg.conn px = {| Pg.session := Pg.next_session (Pg.server w); Pg.done := false |}
       /\ Pg.isLocked px = false
       /\ Pg.MigrationsTable (Pg.config px)
          = (if (String.length (Pg.MigrationsTable cfg) =? 0)%nat
             then Pg.DefaultMigrationsTable else Pg.MigrationsTable cfg)
       /\ Pg.DatabaseName (Pg.config px)
          = (if String.eqb (Pg.DatabaseName cfg) ""
             then Pg.current_database (Pg.server w) else Pg.DatabaseName cfg)
       /\ Pg.SchemaName (Pg.config px)
          = (if String.eqb (Pg.SchemaName cfg) ""
             then Pg.current_schema (Pg.server w) else Pg.SchemaName cfg)
       /\ Pg.StatementTimeout (Pg.config px) = Pg.StatementTimeout cfg
       /\ (Pg.next_session (Pg.server w) < Pg.next_session (Pg.server w1))%nat
       /\ Pg.tables (Pg.server w1)
          = created (Pg.MigrationsTable (Pg.config px)) (Pg.tables (Pg.server w))
       /\ exists aid new,
           clean w w1
             ([(Background, AdvisoryUnlock aid);
               (Background, CreateVersionTable (Pg.MigrationsTable (Pg.config px)));
               (Background, AdvisoryLock aid);
               (Background, AcquireConn)] ++ new).
Proof.
  unfold Pg.WithInstance.
  destruct (Pg.send Background Ping w) as [e0 w0] eqn:Hs0.
  apply send_inv in Hs0. destruct Hs0 as (-> & Hsrv0 & Hbg0 & Hclean0).
  destruct (next_fault (Pg.faults w)) as [err|].
  { intros [= <- <-]. split; [exact Hbg0|]. rewrite Hsrv0.
    split; [apply acts_as_refl|]. split; [now left|discriminate]. }
  specialize (Hclean0 eq_refl).
  (* the database name *)
  match goal with |- match ?x with _ => _ end = _ -> _ => set (r1 := x) end.
  assert (Hr1 : Pg.server (snd r1) = Pg.server w
                /\ background_only w (snd r1)
                /\ forall name, fst r1 = inl name ->
                     name = (if String.eqb (Pg.DatabaseName cfg) ""
                             then Pg.current_database (Pg.server w)
                             else Pg.DatabaseName cfg)
                     /\ exists new, clean w (snd r1) new).
  { unfold r1. destruct (String.eqb (Pg.DatabaseName cfg) "").
    - destruct (Pg.DB_QueryRow _ _ w0) as [a w'] eqn:Hq.
      apply DB_QueryRow_inv in Hq. destruct Hq as (Hsrv & Hbg & Hname).
      assert (Hbgw : background_only w w') by (eapply grows_trans; eassumption).
      destruct a as [name|err]; simpl.
      + destruct (Hname name eq_refl) as (-> & Hc).
        destruct (_ =? _)%nat; simpl;
          (split; [congruence|]; split; [exact Hbgw|]); [discriminate|].
        intros ? [= <-]. split; [now rewrite Hsrv0|].
        eexists. eapply clean_trans; eassumption.
      + split; [congruence|]. split; [exact Hbgw|discriminate].
    - simpl. split; [exact Hsrv0|]. split; [exact Hbg0|].
      intros ? [= <-]. split; [reflexivity|]. eexists; eassumption. }
  destruct r1 as [[databaseName|err] w1']; cbn [fst snd] in Hr1;
    destruct Hr1 as (Hsrv1 & Hbg1 & Hname1).
  2:{ intros [= <- <-]. split; [exact Hbg1|]. rewrite Hsrv1.
      split; [apply acts_as_refl|]. split; [now left|discriminate]. }
  destruct (Hname1 _ eq_refl) as (Hdb & new1 & Hclean1). clear Hname1.
  (* the schema name *)
  match goal with |- match ?x with _ => _ end = _ -> _ => set (r2 := x) end.
  assert (Hr2 : Pg.server (snd r2) = Pg.server w
                /\ background_only w (snd r2)
                /\ forall name, fst r2 = inl name ->
                     name = (if String.eqb (Pg.SchemaName cfg) ""
                             then Pg.current_schema (Pg.server w)
                             else Pg.SchemaName cfg)
                     /\ exists new, clean w (snd r2) new).
  { unfold r2. destruct (String.eqb (Pg.SchemaName cfg) "").
    - destruct (Pg.DB_QueryRow _ _ w1') as [a w'] eqn:Hq.
      apply DB_QueryRow_inv in Hq. destruct Hq as (Hsrv & Hbg & Hname).
      assert (Hbgw : background_only w w') by (eapply grows_trans; eassumption).
      destruct a as [name|err]; simpl.
      + destruct (Hname name eq_refl) as (-> & Hc).
        destruct (_ =? _)%nat; simpl;
          (split; [congruence|]; split; [exact Hbgw|]); [discriminate|].
        intros ? [= <-]. split; [now rewrite Hsrv1|].
        eexists. eapply clean_trans; eassumption.
      + split; [congruence|]. split; [exact Hbgw|discriminate].
    - simpl. split; [exact Hsrv1|]. split; [exact Hbg1|].
      intros ? [= <-]. split; [reflexivity|]. eexists; eassumption. }
  destruct r2 as [[schemaName|err] w2]; cbn [fst snd] in Hr2;
    destruct Hr2 as (Hsrv2 & Hbg2 & Hname2).
  2:{ intros [= <- <-]. split; [exact Hbg2|]. rewrite Hsrv2.
      split; [apply acts_as_refl|]. split; [now left|discriminate]. }
  destruct (Hname2 _ eq_refl) as (Hsch & new2 & Hclean2). clear Hname2.
  intros H. apply Pg_connect_and_ensure in H.
  rewrite Hsrv2 in H. destruct H as (Hbg & Hacts & Hcases & Hok).
  split; [eapply grows_trans; eassumption|].
  split; [exact Hacts|]. split; [exact Hcases|].
  intros px ->. destruct (Hok _ eq_refl) as (-> & Hlt & Htab & aid & Hc).
  cbn [Pg.conn Pg.isLocked Pg.config Pg.MigrationsTable Pg.DatabaseName
         Pg.SchemaName Pg.StatementTimeout] in *.
  repeat split; try assumption.
  exists aid, new2. eapply clean_trans; eassumption.
Qed.

End Opening.

(** ** No request carries a deadline *)

Ltac split_leaves :=
  repeat (simpl;
          match goal with
          | |- context [next_fault ?f] => destruct (next_fault f)
          | |- context [Pg.done ?c] => destruct (Pg.done c)
          | |- context [@lookup _ _ _ _ ?k ?t] => destruct (t !! k)
          | |- context [if ?b then _ else _] => destruct b
          end).

Lemma Pg_SetVersion_background p v d w :
  background_only w (snd (Pg.SetVersion p v d w)).
Proof.
  unfold Pg.SetVersion, Pg.BeginTx, Pg.Tx_Exec, Pg.Tx_Rollback, Pg.Tx_Commit, Pg.send.
  destruct w as [srv f tr]; simpl.
  split_leaves; try trace_grows.
  all: repeat case_match; simplify_eq; trace_grows.
Qed.

Lemma Pg_Version_background p w : background_only w (snd (Pg.Version p w)).
Proof.
  unfold Pg.Version, Pg.QueryRowContext, Pg.send.
  destruct w as [srv f tr]; simpl.
  split_leaves; try trace_grows.
  all: repeat case_match; simplify_eq; trace_grows.
Qed.

Lemma Pg_drop_each_background c names : forall w,
  background_only w (snd (Pg.drop_each c names w)).
Proof.
  induction names as [|n names IH]; intros w; cbn [Pg.drop_each].
  - apply grows_refl.
  - pose proof (Pg_ExecContext_sent c Background (DropTable n) w) as [Hg _].
    destruct (Pg.ExecContext c Background (DropTable n) w) as [[e|] w1]; simpl in *.
    + exact Hg.
    + eapply grows_trans; [exact Hg|apply IH].
Qed.

Lemma Pg_Drop_background p w : background_only w (snd (Pg.Drop p w)).
Proof.
  unfold Pg.Drop, Pg.QueryContext.
  destruct (Pg.done (Pg.conn p)); cbv beta iota; [apply grows_refl|].
  destruct (Pg.send Background ListTables w) as [e w0] eqn:Hs.
  apply send_inv in Hs. destruct Hs as (_ & _ & Hg & _).
  destruct e as [err|]; cbv beta iota; [exact Hg|].
  match goal with |- context [Pg.drop_each ?c ?l ?w0] =>
    pose proof (Pg_drop_each_background c l w0) as Hd;
    destruct (Pg.drop_each c l w0) as [e w1] end.
  cbn [snd] in Hd.
  destruct (Pg.send Background RowsClose w1) as [e1 w2] eqn:Hs.
  apply send_inv in Hs. destruct Hs as (_ & _ & Hg2 & _).
  assert (background_only w w2).
  { eapply grows_trans; [exact Hg|]. eapply grows_trans; [exact Hd|exact Hg2]. }
  now destruct e1.
Qed.

Section Calls.
Context {ext : Externals}.

Lemma Pg_call_background op p w e p1 w1 :
  Pg_call op p w = Some (e, p1, w1) -> background_only w w1.
Proof.
  destruct op; cbn [Pg_call].
  - intros H. now apply Pg_Lock_spec in H.
  - intros H. assert (Heq : Pg.Unlock p w = (e, p1, w1)) by congruence.
    pose proof (Pg_Unlock_spec p w) as Hu.
    rewrite Heq in Hu. apply Hu.
  - pose proof (Pg_SetVersion_background p version dirty w) as Hb.
    destruct (Pg.SetVersion p version dirty w). now intros [= <- <- <-].
  - pose proof (Pg_Version_background p w) as Hb.
    destruct (Pg.Version p w) as [[[? ?] ?] ?]. now intros [= <- <- <-].
  - pose proof (Pg_Drop_background p w) as Hb.
    destruct (Pg.Drop p w). now intros [= <- <- <-].
  - intros H. assert (Heq : Pg.Close p w = (e, p1, w1)) by congruence.
    pose proof (Pg_Close_spec p w) as Hu.
    rewrite Heq in Hu. apply Hu.
Qed.
End Calls.

(** ** Handles on one server *)

Lemma inside_note_other h h' op e hist :
  h' <> h -> inside h' (note h op e hist) = inside h' hist.
Proof.
  intros Hne. destruct op; simpl; try reflexivity;
    (destruct (Nat.eqb_spec h' h); [contradiction|reflexivity]).
Qed.

Section Handles.
Context {ext : Externals}.

Lemma holds_lock_same p p1 srv srv1 :
  Pg.config p1 = Pg.config p ->
  Pg.session (Pg.conn p1) = Pg.session (Pg.conn p) ->
  Pg.advisory srv1 = Pg.advisory srv ->
  holds_lock p srv -> holds_lock p1 srv1.
Proof.
  unfold holds_lock. intros -> -> ->. auto.
Qed.

(** What a call does to the server, to the handle that makes it and to
    the history. *)
Lemma Pg_call_frame op p w e p1 w1 :
  Pg_call op p w = Some (e, p1, w1) ->
  acts_as (Pg.session (Pg.conn p)) (Pg.server w) (Pg.server w1)
  /\ Pg.session (Pg.conn p1) = Pg.session (Pg.conn p)
  /\ ((open p -> Pg.isLocked p = true -> holds_lock p (Pg.server w)) ->
      open p1 -> Pg.isLocked p1 = true -> holds_lock p1 (Pg.server w1))
  /\ (forall h hist, inside h hist = Pg.isLocked p ->
                     inside h (note h op e hist) = Pg.isLocked p1).
Proof.
  destruct op; cbn [Pg_call note].
  - (* Lock *)
    intros H. apply Pg_Lock_spec in H. destruct H as [_ H].
    destruct e as [err|].
    + destruct H as (-> & Hsrv). rewrite Hsrv.
      split; [apply acts_as_refl|]. split; [reflexivity|]. split; [auto|].
      intros h hist Hin. simpl. now rewrite andb_false_r.
    + destruct H as (Hlk & Hopen & -> & _ & _ & aid & Hid & Hgrant & _).
      apply acts_as_lock in Hgrant. destruct Hgrant as (Hacts & _ & n & Hown).
      split; [exact Hacts|]. split; [reflexivity|]. split.
      * intros _ _ _. exists aid, n. simpl. auto.
      * intros h hist _. simpl. now rewrite Nat.eqb_refl.
  - (* Unlock *)
    intros H. assert (Heq : Pg.Unlock p w = (e, p1, w1)) by congruence.
    pose proof (Pg_Unlock_spec p w) as Hu. rewrite Heq in Hu.
    cbn [fst snd] in Hu. destruct Hu as (_ & Hconn & Hcfg & Hu).
    destruct e as [err|].
    + destruct Hu as (-> & _ & Hsrv). rewrite Hsrv.
      split; [apply acts_as_refl|]. split; [reflexivity|]. split; [auto|].
      intros h hist Hin. simpl. now rewrite andb_false_r.
    + destruct Hu as (Hlk1 & Hu). split.
      { destruct Hu as [[_ ->]|(_ & _ & _ & _ & aid & _ & -> & _)];
          [apply acts_as_refl|apply acts_as_unlock]. }
      split; [now rewrite Hconn|]. split; [congruence|].
      intros h hist _. simpl. now rewrite Nat.eqb_refl.
  - (* SetVersion *)
    pose proof (Pg_SetVersion_outcome p version dirty w) as Hout.
    destruct (Pg.SetVersion p version dirty w) as [e' w'].
    intros [= <- <- <-].
    assert (Hadv : Pg.advisory (Pg.server w') = Pg.advisory (Pg.server w)
                   /\ acts_as (Pg.session (Pg.conn p)) (Pg.server w) (Pg.server w')).
    { destruct e' as [err|].
      - rewrite Hout. split; [reflexivity|apply acts_as_refl].
      - destruct Hout as (_ & _ & ->). split; [reflexivity|apply acts_as_set_tables]. }
    destruct Hadv as [Hadv Hacts].
    split; [exact Hacts|]. split; [reflexivity|]. split; [|auto].
    intros Hold Hopen Hlk. eapply holds_lock_same; eauto.
  - (* Version *)
    pose proof (Pg_Version_server p w) as Hsrv.
    destruct (Pg.Version p w) as [[[v d] e'] w']. cbn [snd] in Hsrv.
    intros [= <- <- <-]. rewrite Hsrv.
    split; [apply acts_as_refl|]. split; [reflexivity|]. split; [auto|auto].
  - (* Drop *)
    pose proof (Pg_Drop_spec p w) as Hd. cbn zeta in Hd.
    destruct (Pg.Drop p w) as [e' w']. cbn [fst snd] in Hd.
    destruct Hd as (Hacts & Hadv & _).
    intros [= <- <- <-].
    split; [exact Hacts|]. split; [reflexivity|]. split; [|auto].
    intros Hold Hopen Hlk. eapply holds_lock_same; eauto.
  - (* Close *)
    intros H. assert (Heq : Pg.Close p w = (e, p1, w1)) by congruence.
    pose proof (Pg_Close_spec p w) as Hc. rewrite Heq in Hc.
    cbn [fst snd] in Hc. destruct Hc as (_ & Hdone & Hsess & Hlk & Hcfg & ->).
    split; [apply acts_as_end_session|]. split; [exact Hsess|]. split.
    + unfold open. congruence.
    + intros h hist Hin. congruence.
Qed.

Lemma known_owners_step sid srv srv1 :
  known_owners srv -> acts_as sid srv srv1 ->
  (sid < Pg.next_session srv1)%nat -> known_owners srv1.
Proof.
  unfold known_owners. intros Hk (Hle & _ & _ & Hfr) Hsid aid owner n Hl.
  destruct (decide (owner = sid)) as [->|Hne]; [exact Hsid|].
  apply Hfr in Hl; [|exact Hne]. apply Hk in Hl. lia.
Qed.

Lemma holds_lock_other sid p srv srv1 :
  acts_as sid srv srv1 -> Pg.session (Pg.conn p) <> sid ->
  holds_lock p srv -> holds_lock p srv1.
Proof.
  unfold holds_lock. intros (_ & _ & _ & Hfr) Hne (aid & n & Hid & Hl).
  exists aid, n. split; [exact Hid|]. now apply Hfr.
Qed.

Lemma fire_invariant ev s s1 : invariant s -> fire ev s = Some s1 -> invariant s1.
Proof.
  intros (Hown & Hsess & Hdist & Hheld & Hhist).
  destruct ev as [h cfg|h op]; cbn [fire].
  - (* a new handle *)
    destruct (handles s !! h) as [?|] eqn:Hfree; [discriminate|].
    destruct (Pg.WithInstance (Some cfg) (world s)) as [[r w1]|] eqn:Hw; [|discriminate].
    apply Pg_WithInstance_spec in Hw. destruct Hw as (_ & Hacts & Hcases & Hok).
    assert (Hown1 : known_owners (Pg.server w1)).
    { destruct Hcases as [->|Hlt]; [exact Hown|].
      eapply known_owners_step; eauto. }
    assert (Hle : (Pg.next_session (Pg.server (world s))
                   <= Pg.next_session (Pg.server w1))%nat) by apply Hacts.
    assert (Hold : forall h' p, handles s !! h' = Some p ->
                     open p -> Pg.isLocked p = true -> holds_lock p (Pg.server w1)).
    { intros h' p Hp Hopen Hlk. eapply holds_lock_other; [exact Hacts| |eauto].
      apply Hsess in Hp. lia. }
    destruct r as [px|err]; intros [= <-]; unfold invariant; cbn [world handles history].
    + destruct (Hok px eq_refl) as (Hconn & Hlk & _ & _ & _ & _ & Hlt & _).
      assert (Hpx : Pg.session (Pg.conn px) = Pg.next_session (Pg.server (world s)))
        by now rewrite Hconn.
      split; [exact Hown1|]. split; [|split; [|split]].
      * intros h' p Hp. destruct (decide (h' = h)) as [->|Hne].
        -- rewrite lookup_insert_eq in Hp. injection Hp as <-. lia.
        -- rewrite lookup_insert_ne in Hp by congruence. apply Hsess in Hp. lia.
      * intros h1 h2 p1 p2 Hne H1 H2.
        destruct (decide (h1 = h)) as [->|Hne1]; destruct (decide (h2 = h)) as [->|Hne2].
        -- contradiction.
        -- rewrite lookup_insert_eq in H1. injection H1 as <-.
           rewrite lookup_insert_ne in H2 by congruence. apply Hsess in H2. lia.
        -- rewrite lookup_insert_eq in H2. injection H2 as <-.
           rewrite lookup_insert_ne in H1 by congruence. apply Hsess in H1. lia.
        -- rewrite lookup_insert_ne in H1 by congruence.
           rewrite lookup_insert_ne in H2 by congruence. eauto.
      * intros h' p Hp Hopen Hl. destruct (decide (h' = h)) as [->|Hne].
        -- rewrite lookup_insert_eq in Hp. injection Hp as <-. congruence.
        -- rewrite lookup_insert_ne in Hp by congruence. eauto.
      * intros h'. rewrite Hhist. destruct (decide (h' = h)) as [->|Hne].
        -- rewrite lookup_insert_eq, Hfree. now rewrite Hlk.
        -- now rewrite lookup_insert_ne by congruence.
    + split; [exact Hown1|]. split; [|split; [|split]]; eauto.
      intros h' p Hp. apply Hsess in Hp. lia.
  - (* a call on a handle *)
    destruct (handles s !! h) as [p|] eqn:Hp; [|discriminate].
    destruct (Pg_call op p (world s)) as [[[e p1] w1]|] eqn:Hc; [|discriminate].
    apply Pg_call_frame in Hc. destruct Hc as (Hacts & Hsame & Hself & Hflag).
    assert (Hle : (Pg.next_session (Pg.server (world s))
                   <= Pg.next_session (Pg.server w1))%nat) by apply Hacts.
    pose proof (Hsess h p Hp) as Hlt.
    intros [= <-]. unfold invariant; cbn [world handles history].
    split; [|split; [|split; [|split]]].
    + eapply known_owners_step; eauto. lia.
    + intros h' p' Hp'. destruct (decide (h' = h)) as [->|Hne].
      * rewrite lookup_insert_eq in Hp'. injection Hp' as <-. lia.
      * rewrite lookup_insert_ne in Hp' by congruence. apply Hsess in Hp'. lia.
    + intros h1 h2 p1' p2' Hne H1 H2.
      destruct (decide (h1 = h)) as [->|Hne1]; destruct (decide (h2 = h)) as [->|Hne2].
      * contradiction.
      * rewrite lookup_insert_eq in H1. injection H1 as <-.
        rewrite lookup_insert_ne in H2 by congruence. rewrite Hsame. eauto.
      * rewrite lookup_insert_eq in H2. injection H2 as <-.
        rewrite lookup_insert_ne in H1 by congruence. rewrite Hsame. eauto.
      * rewrite lookup_insert_ne in H1 by congruence.
        rewrite lookup_insert_ne in H2 by congruence. eauto.
    + intros h' p' Hp' Hopen Hl. destruct (decide (h' = h)) as [->|Hne].
      * rewrite lookup_insert_eq in Hp'. injection Hp' as <-.
        apply Hself; eauto.
      * rewrite lookup_insert_ne in Hp' by congruence.
        eapply holds_lock_other; [exact Hacts| |eauto]. eauto.
    + intros h'. destruct (decide (h' = h)) as [->|Hne].
      * rewrite lookup_insert_eq. apply Hflag. now rewrite Hhist, Hp.
      * rewrite lookup_insert_ne by congruence.
        rewrite inside_note_other by exact Hne. apply Hhist.
Qed.

Lemma run_invariant evs : forall s s1,
  invariant s -> run evs s = Some s1 -> invariant s1.
Proof.
  induction evs as [|ev evs IH]; intros s s1 Hinv; cbn [run].
  - now intros [= <-].
  - destruct (fire ev s) as [s'|] eqn:Hf; [|discriminate].
    intros Hr. eapply IH; [|exact Hr]. eapply fire_invariant; eauto.
Qed.

Lemma boot_invariant srv f : known_owners srv -> invariant (boot srv f).
Proof.
  intros Hk. unfold invariant, boot; cbn [world handles history Pg.server].
  split; [exact Hk|]. split; [|split; [|split]].
  - intros h p Hp. now rewrite lookup_empty in Hp.
  - intros h1 h2 p1 p2 _ Hp. now rewrite lookup_empty in Hp.
  - intros h p Hp. now rewrite lookup_empty in Hp.
  - intros h. now rewrite lookup_empty.
Qed.

Lemma reachable_invariant s : reachable s -> invariant s.
Proof.
  intros (srv & f & evs & Hk & Hrun).
  eapply run_invariant; [|exact Hrun]. now apply boot_invariant.
Qed.
End Handles.

(** ** The distributed lock *)

Section Lock_claims.
Context {ext : Externals}.



(** C6, as amended.  In the relational variant, [Lock()] on a handle
    whose [isLocked] flag is up returns at once with [ErrLocked]: it
    does not wait, sends no request (the world, trace included, is
    unchanged) and leaves the handle as it is; in particular this is what
    a second [Lock()] does after a first one that succeeded.  The
    key-value variant keeps no flag and its [Lock] always succeeds. *)
Theorem Lock_on_locked_handle p w :
  Pg.isLocked p = true \/ (exists p0 w0, Pg.Lock p0 w0 = Some (None, p, w)) ->
  Pg.Lock p w = Some (Some ErrLocked, p, w)
  /\ (forall s k, KV.Lock s k = (None, k)).
Proof.
  intros Hlk.
  assert (Hflag : Pg.isLocked p = true).
  { destruct Hlk as [Hlk|(p0 & w0 & HL)]; [exact Hlk|].
    apply Pg_Lock_spec in HL. destruct HL as (_ & _ & _ & -> & _). reflexivity. }
  split; [|reflexivity].
  unfold Pg.Lock. now rewrite Hflag.
Qed.

End Lock_claims.





(** C6 fails in the key-value variant: a second [Lock()] on a handle whose
    first [Lock()] has succeeded succeeds as well. *)
Lemma KV_Lock_twice_succeeds :
  let w := Demo.kv_world Demo.kv_ready [] in
  fst (KV.Lock Demo.kv_handle w) = None
  /\ fst (KV.Lock Demo.kv_handle (snd (KV.Lock Demo.kv_handle w))) = None.
Proof. split; reflexivity. Qed.

(** A handle whose flag is up. *)
Lemma Lock_on_locked_handle_witness :
  Pg.isLocked (Pg.set_isLocked true Demo.pg_handle) = true
  /\ Pg.Lock (ext := Demo.externals) (Pg.set_isLocked true Demo.pg_handle)
       (Demo.pg_world Demo.ready_server [])
     = Some (Some ErrLocked, Pg.set_isLocked true Demo.pg_handle,
             Demo.pg_world Demo.ready_server []).
Proof.
  split; [reflexivity|].
  apply (Lock_on_locked_handle (ext := Demo.externals)). left. reflexivity.
Defined.

(** ** The empty state *)

Lemma created_is_Some table t : is_Some (created table t !! table).
Proof.
  unfold created. destruct (t !! table) eqn:Hl; [rewrite Hl; eauto|].
  rewrite lookup_insert_eq. eauto.
Qed.

Lemma Pg_Version_no_error p w :
  open p -> next_fault (Pg.faults w) = None -> snd (fst (Pg.Version p w)) = None.
Proof.
  intros Ho Hf. rewrite Pg_Version_read by assumption.
  now destruct (Pg.tables (Pg.server w) !! Pg.MigrationsTable (Pg.config p))
    as [[|[v d] rows]|].
Qed.

Section Opening_claims.
Context {ext : Externals}.

(** [Open] is [WithInstance] on the configuration read from the URL. *)
Lemma Pg_Open_inv url w px w1 :
  Pg.Open url w = Some (inl px, w1) ->
  exists purl v,
    nurl_Parse url = inl purl
    /\ (if String.eqb (Get (Query purl) "x-statement-timeout") "" then (0, None)
        else strconv.Atoi (Get (Query purl) "x-statement-timeout")) = (v, None)
    /\ Pg.WithInstance
         (Some {| Pg.MigrationsTable := Get (Query purl) "x-migrations-table";
                  Pg.DatabaseName := Path purl;
                  Pg.SchemaName := "";
                  Pg.StatementTimeout := wrap64 (v * Pg.Millisecond) |}) w
       = Some (inl px, w1).
Proof.
  unfold Pg.Open.
  destruct (nurl_Parse url) as [purl|err]; [|discriminate].
  destruct (sql_Open _) as [err|]; [discriminate|].
  destruct (if String.eqb _ _ then _ else _) as [v [e|]] eqn:Hv; [discriminate|].
  intros H. exists purl, v. auto.
Qed.

(** C2, as amended.  In the relational variant an answered [Version()]
    returns [(-1, false)] and no error whenever the version table has no
    row or does not exist: on the table [WithInstance] has just created,
    and after a [Drop()] that has succeeded, which leaves no named table
    behind.  In the key-value variant [Version()] returns [(-1, false)]
    and no error when the table exists and holds no item under the fixed
    key; when the table itself does not exist it returns the error of
    the service.  The table and its items are those of the state the
    read is served from, [KV.seen w], which is the latest one unless the
    read lags. *)
Theorem Version_of_empty_store :
  (forall p w,
      open p -> next_fault (Pg.faults w) = None ->
      Pg.tables (Pg.server w) !! Pg.MigrationsTable (Pg.config p) = None
      \/ Pg.tables (Pg.server w) !! Pg.MigrationsTable (Pg.config p) = Some [] ->
      fst (Pg.Version p w) = (-1, false, None))
  /\ (forall cfg w px w1,
        Pg.WithInstance (Some cfg) w = Some (inl px, w1) ->
        Pg.tables (Pg.server w) !! Pg.MigrationsTable (Pg.config px) = None ->
        next_fault (Pg.faults w1) = None ->
        fst (Pg.Version px w1) = (-1, false, None))
  /\ (forall p w,
        Pg.MigrationsTable (Pg.config p) <> EmptyString ->
        fst (Pg.Drop p w) = None ->
        next_fault (Pg.faults (snd (Pg.Drop p w))) = None ->
        Pg.tables (Pg.server (snd (Pg.Drop p w))) !! Pg.MigrationsTable (Pg.config p) = None
        /\ fst (Pg.Version p (snd (Pg.Drop p w))) = (-1, false, None))
  /\ (forall s w items,
        next_fault (KV.faults w) = None ->
        KV.seen w !! KV.MigrationsTable (KV.config s) = Some items ->
        items !! KV.LatestMigrationVersion = None ->
        fst (KV.Version s w) = (-1, false, None))
  /\ (forall s w,
        next_fault (KV.faults w) = None ->
        KV.seen w !! KV.MigrationsTable (KV.config s) = None ->
        fst (KV.Version s w) = (0, false, Some (AwsError "ResourceNotFoundException"))).
Proof.
  split; [|split; [|split; [|split]]].
  - intros p w Ho Hf Ht. rewrite Pg_Version_read by assumption.
    destruct (Pg.tables (Pg.server w) !! Pg.MigrationsTable (Pg.config p))
      as [[|[v d] rows]|]; try reflexivity.
    destruct Ht; congruence.
  - intros cfg w px w1 Hw Ht Hf.
    apply Pg_WithInstance_spec in Hw. destruct Hw as (_ & _ & _ & Hok).
    destruct (Hok px eq_refl) as (Hconn & _ & _ & _ & _ & _ & _ & Htab & _).
    rewrite Pg_Version_read; [|unfold open; now rewrite Hconn|assumption].
    rewrite Htab. unfold created. rewrite Ht, lookup_insert_eq. reflexivity.
  - intros p w Hname Hok Hf.
    pose proof (Pg_Drop_spec p w) as Hd. cbn zeta in Hd.
    destruct Hd as (_ & _ & Hd). destruct (Hd Hok) as (Ho & Hgone).
    split; [now apply Hgone|].
    rewrite Pg_Version_read by assumption. now rewrite Hgone.
  - intros s w items. apply KV_Version_no_item.
  - intros s w. apply KV_Version_no_table.
Qed.

(** C9, as amended.  In the relational variant a successful
    [WithInstance], and so a successful [Open], leaves an open, unlocked
    handle whose version table exists: it has been created if it was
    absent, by a request sent after the advisory lock was acquired on the
    handle's own connection and before it was released, and an answered
    [Version()] that follows returns no error.  None of the requests of a
    successful [Open] has failed; in particular [WithInstance] fails with
    the error of the ping when the server cannot be reached.  The
    key-value variant's [Open] takes no world: it sends no request and
    creates nothing, and [Version()] on a missing table fails (missing
    in the state the read is served from). *)
Theorem Open_ensures_version_table :
  (forall cfg w px w1,
      Pg.WithInstance (Some cfg) w = Some (inl px, w1) ->
      open px /\ Pg.isLocked px = false
      /\ is_Some (Pg.tables (Pg.server w1) !! Pg.MigrationsTable (Pg.config px))
      /\ Pg.tables (Pg.server w1)
         = created (Pg.MigrationsTable (Pg.config px)) (Pg.tables (Pg.server w))
      /\ (exists aid new,
             clean w w1
               ([(Background, AdvisoryUnlock aid);
                 (Background, CreateVersionTable (Pg.MigrationsTable (Pg.config px)));
                 (Background, AdvisoryLock aid);
                 (Background, AcquireConn)] ++ new))
      /\ (next_fault (Pg.faults w1) = None -> snd (fst (Pg.Version px w1)) = None))
  /\ (forall url w px w1,
        Pg.Open url w = Some (inl px, w1) ->
        open px /\ Pg.isLocked px = false
        /\ is_Some (Pg.tables (Pg.server w1) !! Pg.MigrationsTable (Pg.config px))
        /\ Pg.tables (Pg.server w1)
           = created (Pg.MigrationsTable (Pg.config px)) (Pg.tables (Pg.server w))
        /\ (exists aid new,
               clean w w1
                 ([(Background, AdvisoryUnlock aid);
                   (Background, CreateVersionTable (Pg.MigrationsTable (Pg.config px)));
                   (Background, AdvisoryLock aid);
                   (Background, AcquireConn)] ++ new))
        /\ (next_fault (Pg.faults w1) = None -> snd (fst (Pg.Version px w1)) = None))
  /\ (forall cfg w e,
        next_fault (Pg.faults w) = Some e ->
        exists w1, Pg.WithInstance (Some cfg) w = Some (inr e, w1))
  /\ (forall s w,
        next_fault (KV.faults w) = None ->
        KV.seen w !! KV.MigrationsTable (KV.config s) = None ->
        snd (fst (KV.Version s w)) = Some (AwsError "ResourceNotFoundException")).
Proof.
  assert (HW : forall cfg w px w1,
             Pg.WithInstance (Some cfg) w = Some (inl px, w1) ->
             open px /\ Pg.isLocked px = false
             /\ is_Some (Pg.tables (Pg.server w1) !! Pg.MigrationsTable (Pg.config px))
             /\ Pg.tables (Pg.server w1)
                = created (Pg.MigrationsTable (Pg.config px)) (Pg.tables (Pg.server w))
             /\ (exists aid new,
                    clean w w1
                      ([(Background, AdvisoryUnlock aid);
                        (Background,
                          CreateVersionTable (Pg.MigrationsTable (Pg.config px)));
                        (Background, AdvisoryLock aid);
                        (Background, AcquireConn)] ++ new))
             /\ (next_fault (Pg.faults w1) = None ->
                 snd (fst (Pg.Version px w1)) = None)).
  { intros cfg w px w1 Hw.
    apply Pg_WithInstance_spec in Hw. destruct Hw as (_ & _ & _ & Hok).
    destruct (Hok px eq_refl) as (Hconn & Hlk & _ & _ & _ & _ & _ & Htab & Hclean).
    assert (Ho : open px) by (unfold open; now rewrite Hconn).
    split; [exact Ho|]. split; [exact Hlk|]. split.
    { rewrite Htab. apply created_is_Some. }
    split; [exact Htab|]. split; [exact Hclean|].
    intros Hf. now apply Pg_Version_no_error. }
  split; [exact HW|]. split; [|split].
  - intros url w px w1 Ho. apply Pg_Open_inv in Ho.
    destruct Ho as (purl & v & _ & _ & Hw). eapply HW; eauto.
  - intros cfg w e Hf. unfold Pg.WithInstance, Pg.send. rewrite Hf. eauto.
  - intros s w Hf Ht. now rewrite KV_Version_no_table.
Qed.

End Opening_claims.

(** C2 fails in the key-value variant when the table itself is absent: no
    version record exists, and [Version()] does not return
    [(-1, false)] without error. *)
Lemma KV_Version_without_table :
  KV.store (Demo.kv_world Demo.kv_bare []) !! KV.MigrationsTable (KV.config Demo.kv_handle)
    = None
  /\ fst (KV.Version Demo.kv_handle (Demo.kv_world Demo.kv_bare []))
     <> (-1, false, None).
Proof. split; [reflexivity|]. vm_compute. discriminate. Qed.

(** A store that holds [(7, true)] reads as the empty state after
    [Drop]. *)
Lemma Version_of_empty_store_witness :
  let w := Demo.pg_world
             (Pg.set_tables {["schema_migrations" := [(7, true)]]} Demo.ready_server) [] in
  fst (Pg.Version Demo.pg_handle w) = (7, true, None)
  /\ fst (Pg.Drop Demo.pg_handle w) = None
  /\ fst (Pg.Version Demo.pg_handle (snd (Pg.Drop Demo.pg_handle w))) = (-1, false, None).
Proof.
  intros w. split; [vm_compute; reflexivity|].
  assert (Hok : fst (Pg.Drop Demo.pg_handle w) = None) by (vm_compute; reflexivity).
  split; [exact Hok|].
  destruct (Version_of_empty_store (ext := Demo.externals)) as (_ & _ & Hdrop & _).
  destruct (Hdrop Demo.pg_handle w) as [_ Hv];
    [discriminate | exact Hok | vm_compute; reflexivity | exact Hv].
Defined.

(** C9 fails in the key-value variant: [Open] succeeds although the
    table it names does not exist, and the [Version()] call that follows
    fails for lack of it. *)
Lemma KV_Open_leaves_store_absent :
  match KV.Open (ext := Demo.externals) "shell://host/app?x-dynamodb-table=migrations" with
  | inl s =>
      KV.MigrationsTable (KV.config s) = "migrations"%string
      /\ snd (fst (KV.Version s (Demo.kv_world Demo.kv_bare [])))
         = Some (AwsError "ResourceNotFoundException")
  | inr _ => False
  end.
Proof. vm_compute. split; reflexivity. Qed.

(** [WithInstance] on a server without the version table creates it. *)
Lemma Open_ensures_version_table_witness :
  match Pg.WithInstance (ext := Demo.externals) (Some Demo.pg_config)
          (Demo.pg_world Demo.fresh_server []) with
  | Some (inl px, w1) =>
      Pg.tables Demo.fresh_server !! Pg.MigrationsTable (Pg.config px) = None
      /\ is_Some (Pg.tables (Pg.server w1) !! Pg.MigrationsTable (Pg.config px))
  | _ => False
  end.
Proof.
  destruct (Pg.WithInstance (ext := Demo.externals) (Some Demo.pg_config)
              (Demo.pg_world Demo.fresh_server [])) as [[[px|e] w1]|] eqn:Hw;
    [|vm_compute in Hw; discriminate..].
  destruct (Open_ensures_version_table (ext := Demo.externals)) as (HW & _).
  destruct (HW _ _ _ _ Hw) as (_ & _ & Hsome & _).
  split; [|exact Hsome].
  vm_compute in Hw. injection Hw as <- <-. reflexivity.
Defined.

(** ** The statement timeout *)

Lemma Pg_Version_sent p w :
  open p ->
  Pg.trace (snd (Pg.Version p w))
  = (Background, SelectVersion (Pg.MigrationsTable (Pg.config p))) :: Pg.trace w.
Proof.
  unfold open. intros Ho. unfold Pg.Version, Pg.QueryRowContext, Pg.send. rewrite Ho.
  destruct w as [srv f tr]; simpl.
  repeat case_match; simplify_eq; reflexivity.
Qed.

(** No timeout bounds the query of [Version]. *)
Lemma Pg_Version_unbounded d p w : open p -> ~ bounded_by d w (snd (Pg.Version p w)).
Proof.
  intros Ho (new & Hs & Hall). rewrite Pg_Version_sent in Hs by exact Ho.
  change (?x :: Pg.trace w) with ([x] ++ Pg.trace w) in Hs.
  apply app_inv_tail in Hs. subst new.
  inversion Hall as [|? ? Hhd _]. discriminate.
Qed.

Section Timeout_claims.
Context {ext : Externals}.

Lemma Pg_WithInstance_background cfg w r w1 :
  Pg.WithInstance cfg w = Some (r, w1) -> background_only w w1.
Proof.
  destruct cfg as [cfg|].
  - intros H. now apply Pg_WithInstance_spec in H.
  - intros [= <- <-]. apply grows_refl.
Qed.

Lemma Pg_Open_background url w r w1 :
  Pg.Open url w = Some (r, w1) -> background_only w w1.
Proof.
  unfold Pg.Open.
  destruct (nurl_Parse url) as [purl|err]; [|intros [= <- <-]; apply grows_refl].
  destruct (sql_Open _) as [err|]; [intros [= <- <-]; apply grows_refl|].
  destruct (if String.eqb _ _ then _ else _) as [v [e|]];
    [intros [= <- <-]; apply grows_refl|].
  apply Pg_WithInstance_background.
Qed.

(** C8, as amended.  In the relational variant the statement-timeout
    option is read as a decimal number of milliseconds and stored in the
    configuration: a value that [strconv.Atoi] rejects makes [Open] fail
    with that error before any request is sent, and the handle of a
    successful [Open] carries the parsed value.  The timeout bounds no
    statement: every request of [Open], [WithInstance], [Lock],
    [Unlock], [SetVersion], [Version], [Drop] and [Close] is sent with
    the background context, which has no deadline. *)
Theorem statement_timeout_is_only_stored :
  (forall url purl w v e,
      nurl_Parse url = inl purl ->
      sql_Open (Get (Query purl) "x-postgres-dsn") = None ->
      Get (Query purl) "x-statement-timeout" <> EmptyString ->
      strconv.Atoi (Get (Query purl) "x-statement-timeout") = (v, Some e) ->
      Pg.Open url w
      = Some (inr (NumError "Atoi" (Get (Query purl) "x-statement-timeout") e), w))
  /\ (forall url w px w1,
        Pg.Open url w = Some (inl px, w1) ->
        exists purl v,
          nurl_Parse url = inl purl
          /\ (if String.eqb (Get (Query purl) "x-statement-timeout") "" then (0, None)
              else strconv.Atoi (Get (Query purl) "x-statement-timeout")) = (v, None)
          /\ Pg.StatementTimeout (Pg.config px) = wrap64 (v * Pg.Millisecond))
  /\ (forall url w r w1, Pg.Open url w = Some (r, w1) -> background_only w w1)
  /\ (forall cfg w r w1, Pg.WithInstance cfg w = Some (r, w1) -> background_only w w1)
  /\ (forall op p w e p1 w1, Pg_call op p w = Some (e, p1, w1) -> background_only w w1)
  /\ (forall d p w, open p -> ~ bounded_by d w (snd (Pg.Version p w))).
Proof.
  split; [|split; [|split; [|split; [|split]]]].
  - intros url purl w v e Hp Hs Hne Ha. unfold Pg.Open. rewrite Hp, Hs.
    apply String.eqb_neq in Hne. rewrite Hne, Ha. reflexivity.
  - intros url w px w1 Ho. apply Pg_Open_inv in Ho.
    destruct Ho as (purl & v & Hp & Hv & Hw). exists purl, v.
    split; [exact Hp|]. split; [exact Hv|].
    apply Pg_WithInstance_spec in Hw. destruct Hw as (_ & _ & _ & Hok).
    now destruct (Hok px eq_refl) as (_ & _ & _ & _ & _ & -> & _).
  - apply Pg_Open_background.
  - apply Pg_WithInstance_background.
  - apply Pg_call_background.
  - apply Pg_Version_unbounded.
Qed.

End Timeout_claims.

(** C8 fails: the handle opened with a statement timeout of 100 ms sends
    the query of [Version()] without any deadline. *)
Lemma statement_timeout_not_applied :
  match Pg.Open (ext := Demo.externals) "shell://host/app?x-statement-timeout=100"
          (Demo.pg_world Demo.fresh_server []) with
  | Some (inl p, w) =>
      Pg.StatementTimeout (Pg.config p) = 100 * Pg.Millisecond
      /\ ~ bounded_by (100 * Pg.Millisecond) w (snd (Pg.Version p w))
  | _ => False
  end.
Proof.
  destruct (Pg.Open _ _) as [[[p|e] w]|] eqn:Ho; vm_compute in Ho; try discriminate.
  injection Ho as <- <-. split; [reflexivity|].
  apply Pg_Version_unbounded. reflexivity.
Qed.

(** A statement timeout that is not a decimal integer. *)
Lemma statement_timeout_is_only_stored_witness :
  Pg.Open (ext := Demo.externals) "shell://host/app?x-statement-timeout=1e3"
    (Demo.pg_world Demo.fresh_server [])
  = Some (inr (NumError "Atoi" "1e3" strconv.ErrSyntax), Demo.pg_world Demo.fresh_server []).
Proof.
  destruct (statement_timeout_is_only_stored (ext := Demo.externals)) as (Hbad & _).
  apply (Hbad "shell://host/app?x-statement-timeout=1e3"%string
           {| Path := "/app"; Query := [("x-statement-timeout", "1e3")]%string |}
           (Demo.pg_world Demo.fresh_server []) 0 strconv.ErrSyntax);
    [reflexivity | reflexivity | discriminate | reflexivity].
Defined.

(** ** The runner *)

Lemma Run_without_timeout_eq s p migration env :
  KV.Run_v0 s migration env = Pg.Run p migration env.
Proof. reflexivity. Qed.

(** C7.  Provided the payload could be written out: with a positive run
    timeout, [Run] of [part_000] kills a child that has not exited when
    the deadline passes and returns the error of a killed process, which
    differs from the error of a child that exits in time with a non-zero
    status and from the error of a child that could not be started.  With
    a timeout that is zero, unset or negative, [Run] returns when the
    child exits and never if it does not.  The relational variant and
    [part_001] have no run timeout at all, and their [Run] always waits
    in that way. *)
Theorem Run_timeout s migration env :
  os.tempdir_err env = None -> os.read_err migration = None -> os.write_err env = None ->
  let child := os.behaviour env (os.bytes migration) in
  (0 < KV.Timeout (KV.config s) ->
   (os.starts child = true ->
    (os.lifetime child = None
     \/ exists t, os.lifetime child = Some t /\ KV.Timeout (KV.config s) < t) ->
    KV.Run s migration env = Some (Some (ExitError Killed)))
   /\ (os.starts child = true ->
       forall t, os.lifetime child = Some t -> t <= KV.Timeout (KV.config s) ->
       KV.Run s migration env = Some (os.wait_result child)
       /\ os.wait_result child <> Some (ExitError Killed))
   /\ (os.starts child = false ->
       KV.Run s migration env = Some (Some (LaunchError "exec"))))
  /\ (KV.Timeout (KV.config s) <= 0 -> os.starts child = true ->
      KV.Run s migration env
      = match os.lifetime child with
        | Some _ => Some (os.wait_result child)
        | None => None
        end)
  /\ (forall p, os.starts child = true ->
      Pg.Run p migration env
      = match os.lifetime child with
        | Some _ => Some (os.wait_result child)
        | None => None
        end
      /\ KV.Run_v0 s migration env = Pg.Run p migration env).
Proof.
  intros Htmp Hread Hwrite child.
  unfold KV.Run, Pg.Run, KV.Run_v0. rewrite Htmp, Hread, Hwrite.
  unfold os.Cmd_Run. cbn [os.ctx os.image]. fold child.
  split; [|split].
  - intros Hpos. apply Z.ltb_lt in Hpos as Hb. rewrite Hb.
    cbn [WithTimeout Background].
    assert (Hd : (KV.Timeout (KV.config s) <=? 0) = false) by (apply Z.leb_gt; lia).
    rewrite Hd. split; [|split].
    + intros Hst [Hnever|(t & Hl & Hlt)]; rewrite Hst; cbn [negb].
      * now rewrite Hnever.
      * rewrite Hl. assert ((t <=? KV.Timeout (KV.config s)) = false) as ->
          by (apply Z.leb_gt; lia). reflexivity.
    + intros Hst t Hl Hle. rewrite Hst, Hl. cbn [negb].
      assert ((t <=? KV.Timeout (KV.config s)) = true) as -> by (apply Z.leb_le; lia).
      split; [reflexivity|]. unfold os.wait_result.
      destruct (os.status child =? 0); discriminate.
    + intros Hst. rewrite Hst. reflexivity.
  - intros Hle Hst.
    assert (Hb : (0 <? KV.Timeout (KV.config s)) = false) by (apply Z.ltb_ge; lia).
    rewrite Hb. cbn [Background]. rewrite Hst. cbn [negb].
    now destruct (os.lifetime child).
  - intros p Hst. cbn [Background]. rewrite Hst. cbn [negb].
    split; [|reflexivity]. now destruct (os.lifetime child).
Qed.

(** A program that never exits is killed after the timeout of the handle
    that has one, and keeps the handle without one waiting for ever. *)
Lemma Run_timeout_witness :
  (os.tempdir_err (Demo.os_env Demo.sleeper) = None
   /\ os.read_err Demo.payload = None
   /\ os.write_err (Demo.os_env Demo.sleeper) = None)
  /\ KV.Run Demo.kv_timed Demo.payload (Demo.os_env Demo.sleeper)
     = Some (Some (ExitError Killed))
  /\ Pg.Run Demo.pg_handle Demo.payload (Demo.os_env Demo.sleeper) = None.
Proof.
  split; [repeat split|].
  destruct (Run_timeout Demo.kv_timed Demo.payload (Demo.os_env Demo.sleeper)
              eq_refl eq_refl eq_refl) as (Hpos & _ & Hpg).
  split.
  - destruct Hpos as (Hkill & _); [reflexivity|].
    apply Hkill; [reflexivity|now left].
  - destruct (Hpg Demo.pg_handle eq_refl) as [Hrun _]. exact Hrun.
Defined.

(** ** The two variants against the contract *)

Lemma Pg_SetVersion_faults p v d w :
  Pg.faults w = [] -> Pg.faults (snd (Pg.SetVersion p v d w)) = [].
Proof.
  intros Hf. unfold Pg.SetVersion, Pg.BeginTx, Pg.Tx_Exec, Pg.Tx_Rollback,
    Pg.Tx_Commit, Pg.send.
  destruct w as [srv f tr]; simpl in *; subst f.
  split_leaves; reflexivity.
Qed.

Lemma Pg_Version_faults p w :
  Pg.faults w = [] -> Pg.faults (snd (Pg.Version p w)) = [].
Proof.
  intros Hf. unfold Pg.Version, Pg.QueryRowContext, Pg.send.
  destruct w as [srv f tr]; simpl in *; subst f.
  repeat case_match; simplify_eq; reflexivity.
Qed.

Lemma KV_SetVersion_faults s v d w :
  KV.faults w = [] -> KV.faults (snd (KV.SetVersion s v d w)) = [].
Proof.
  intros Hf. unfold KV.SetVersion, KV.dynamodb_PutItem, KV.send.
  destruct w as [st ps lg f tr]; simpl in *; subst f.
  repeat case_match; simplify_eq; reflexivity.
Qed.

Lemma KV_Version_faults s w :
  KV.faults w = [] -> KV.faults (snd (KV.Version s w)) = [].
Proof.
  intros Hf. unfold KV.Version, KV.dynamodb_GetItem, KV.send.
  destruct w as [st ps lg f tr]; simpl in *; subst f.
  repeat case_match; simplify_eq; reflexivity.
Qed.

(** Case analysis on the innermost scrutinees, which both sides of an
    equation between two runs share. *)
Ltac split_inner :=
  repeat (match goal with
          | |- context [match ?x with _ => _ end] =>
              lazymatch x with
              | context [match _ with _ => _ end] => fail
              | _ => destruct x eqn:?
              end
          end; simpl).

(** The result of [Version] does not depend on the trace. *)
Lemma Pg_Version_stored p w :
  Pg.faults w = [] -> fst (Pg.Version p w) = Pg_stored p (Pg.server w).
Proof.
  intros Hf. unfold Pg_stored, Pg.Version, Pg.QueryRowContext, Pg.send.
  destruct w as [srv f tr]; simpl in *; subst f. simpl.
  split_inner; reflexivity.
Qed.

(** In the key-value variant it is the record of the state the read is
    served from: the latest one when the read does not lag. *)
Lemma KV_Version_seen s w :
  KV.faults w = [] -> fst (KV.Version s w) = KV_stored s (KV.seen w).
Proof.
  intros Hf. unfold KV_stored, KV.Version, KV.dynamodb_GetItem, KV.send, KV.seen.
  destruct w as [st ps lg f tr]; simpl in *; subst f. simpl.
  split_inner; reflexivity.
Qed.

Lemma KV_Version_stored s w :
  KV.faults w = [] -> KV.next_lag (KV.lag w) = O ->
  fst (KV.Version s w) = KV_stored s (KV.store w).
Proof.
  intros Hf Hl. rewrite KV_Version_seen by exact Hf.
  now rewrite KV_seen_current.
Qed.

Lemma up_to_date_next l : up_to_date l -> KV.next_lag l = O.
Proof. intros H. destruct l as [|n l]; [reflexivity|]. now inversion H. Qed.

Lemma up_to_date_tail l : up_to_date l -> up_to_date (tail l).
Proof. intros H. destruct l as [|n l]; [exact H|]. now inversion H. Qed.

Lemma KV_SetVersion_lag s v d w : KV.lag (snd (KV.SetVersion s v d w)) = KV.lag w.
Proof.
  unfold KV.SetVersion, KV.dynamodb_PutItem, KV.send.
  repeat case_match; simplify_eq; reflexivity.
Qed.

Lemma KV_Version_lag s w : up_to_date (KV.lag w) -> up_to_date (KV.lag (snd (KV.Version s w))).
Proof.
  intros H. pose proof (up_to_date_tail _ H) as Ht.
  unfold KV.Version, KV.dynamodb_GetItem, KV.send.
  repeat case_match; simplify_eq; assumption.
Qed.

(** On the versions of the data model the contract keeps what was set. *)
Lemma Contract_get_set v d c :
  -1 <= v -> Contract.GetVersion (Contract.SetVersion v d c) = (v, d).
Proof.
  intros Hv. unfold Contract.SetVersion, Contract.GetVersion, NilVersion.
  destruct (v =? -1) eqn:He; simpl; [|reflexivity].
  apply Z.eqb_eq in He. subst v. now destruct d.
Qed.

Section Agreement.
Context {ext : Externals}.

(** Both variants simulate the contract on the operations of the
    version store. *)
Lemma variants_simulate ops : forall p w s k c,
  Forall store_op ops ->
  open p -> Pg.faults w = [] ->
  is_Some (Pg.tables (Pg.server w) !! Pg.MigrationsTable (Pg.config p)) ->
  KV.faults k = [] -> up_to_date (KV.lag k) ->
  is_Some (KV.store k !! KV.MigrationsTable (KV.config s)) ->
  Pg_stored p (Pg.server w) = (Contract.GetVersion c, None) ->
  KV_stored s (KV.store k) = (Contract.GetVersion c, None) ->
  Pg_run ops p w = Some (Contract_run ops c) /\ KV_run ops s k = Contract_run ops c.
Proof.
  induction ops as [|op ops IH]; intros p w s k c Hops Ho Hfw Htw Hfk Hlag Htk Hpg Hkv.
  - split; reflexivity.
  - inversion Hops as [|? ? Hop Hrest]; subst.
    destruct op as [| |v d| | |]; try contradiction.
    + (* SetVersion *)
      destruct Hop as [Hv Hint].
      cbn [Pg_run Pg_apply KV_run KV_apply Contract_run].
      (* relational *)
      pose proof (Pg_SetVersion_outcome p v d w) as Hout.
      pose proof (Pg_SetVersion_faults p v d w Hfw) as Hfw1.
      assert (Hok : fst (Pg.SetVersion p v d w) = None).
      { destruct w as [srv f tr]; simpl in Hfw; subst f.
        now apply Pg_SetVersion_succeeds. }
      destruct (Pg.SetVersion p v d w) as [e w1]. cbn [fst snd] in *. subst e.
      destruct Hout as (_ & _ & Hsrv).
      (* key-value *)
      pose proof (KV_SetVersion_outcome s v d k) as Hout'.
      pose proof (KV_SetVersion_faults s v d k Hfk) as Hfk1.
      pose proof (KV_SetVersion_lag s v d k) as Hlag1.
      assert (Hok' : fst (KV.SetVersion s v d k) = None)
        by now apply KV_SetVersion_succeeds.
      destruct (KV.SetVersion s v d k) as [e k1]. cbn [fst snd] in *. subst e.
      destruct Hout' as (items & Hitems & Hst).
      destruct (IH p w1 s k1 (Contract.SetVersion v d c)) as [IHpg IHkv]; auto.
      * rewrite Hsrv. simpl. rewrite lookup_insert_eq. eauto.
      * now rewrite Hlag1.
      * rewrite Hst, lookup_insert_eq. eauto.
      * rewrite Contract_get_set by assumption.
        rewrite Pg_stored_read by assumption.
        rewrite Hsrv. simpl. rewrite lookup_insert_eq.
        now apply written_reads_back.
      * rewrite Contract_get_set by assumption.
        unfold KV_stored. eapply KV_Version_of_item; eauto; simpl.
        -- rewrite Hst. apply lookup_insert_eq.
        -- apply lookup_insert_eq.
      * rewrite IHpg, IHkv. split; reflexivity.
    + (* Version *)
      cbn [Pg_run Pg_apply KV_run KV_apply Contract_run].
      pose proof (Pg_Version_stored p w Hfw) as Hr.
      pose proof (Pg_Version_server p w) as Hsrv.
      pose proof (Pg_Version_faults p w Hfw) as Hfw1.
      destruct (Pg.Version p w) as [[[v d] e] w1]. cbn [fst snd] in *.
      pose proof (KV_Version_stored s k Hfk (up_to_date_next _ Hlag)) as Hr'.
      pose proof (KV_Version_store s k) as Hst.
      pose proof (KV_Version_faults s k Hfk) as Hfk1.
      pose proof (KV_Version_lag s k Hlag) as Hlag1.
      destruct (KV.Version s k) as [[[v' d'] e'] k1]. cbn [fst snd] in *.
      rewrite Hpg in Hr. rewrite Hkv in Hr'.
      destruct (IH p w1 s k1 c) as [IHpg IHkv]; auto.
      * now rewrite Hsrv.
      * now rewrite Hst.
      * now rewrite Hsrv.
      * now rewrite Hst.
      * rewrite IHpg, IHkv.
        destruct (Contract.GetVersion c) as [v0 d0].
        injection Hr as -> -> ->. injection Hr' as -> -> ->.
        split; reflexivity.
Qed.

(** C4, as amended.  The relational and the key-value variant implement
    the same version store as long as the reads of the key-value variant
    are served from the latest write: started from stores that read as
    the same record, without injected fault and without lagging read, any
    sequence of [SetVersion] calls with [version >= -1] and of [Version]
    calls returns the same outcomes in both variants, which are the
    outcomes of the specification's store.  The key-value [Version] does
    not ask for a consistent read, so nothing in the driver keeps its
    reads from lagging: in general it returns the record of the state
    its read is served from, [KV.seen].  The equivalence does not extend
    to the rest of the interface: [Lock], [Unlock], [Drop] and [Close] do
    nothing in the key-value variant. *)
Theorem version_store_variants_agree ops p w s k c :
  Forall store_op ops ->
  open p -> Pg.faults w = [] ->
  is_Some (Pg.tables (Pg.server w) !! Pg.MigrationsTable (Pg.config p)) ->
  KV.faults k = [] -> up_to_date (KV.lag k) ->
  is_Some (KV.store k !! KV.MigrationsTable (KV.config s)) ->
  Pg_stored p (Pg.server w) = (Contract.GetVersion c, None) ->
  KV_stored s (KV.store k) = (Contract.GetVersion c, None) ->
  Pg_run ops p w = Some (KV_run ops s k)
  /\ KV_run ops s k = Contract_run ops c
  /\ (forall k', KV.faults k' = [] -> fst (KV.Version s k') = KV_stored s (KV.seen k'))
  /\ (forall k', KV.Lock s k' = (None, k') /\ KV.Unlock s k' = (None, k')
                 /\ KV.Drop s k' = (None, k') /\ KV.Close s k' = (None, k')).
Proof.
  intros Hops Ho Hfw Htw Hfk Hlag Htk Hpg Hkv.
  destruct (variants_simulate ops p w s k c) as [H1 H2]; auto.
  rewrite H1, H2. split; [reflexivity|]. split; [reflexivity|].
  split; [intros k'; apply KV_Version_seen|].
  intros k'. repeat split.
Qed.

End Agreement.

(** C4 fails: a second [Lock] fails in the relational variant and
    succeeds in the key-value variant; after [Drop] the relational
    variant reads the empty state where the key-value variant still reads
    the version that was set; and after the same two [SetVersion] calls
    the relational [Version] returns the pair set last where a key-value
    [Version] whose read lags by one write returns the pair set
    before. *)
Lemma variants_disagree :
  Pg_run (ext := Demo.externals) [OpLock; OpLock] Demo.pg_handle
    (Demo.pg_world Demo.ready_server [])
  = Some [Returned false; Returned true]
  /\ KV_run [OpLock; OpLock] Demo.kv_handle (Demo.kv_world Demo.kv_ready [])
     = [Returned false; Returned false]
  /\ Pg_run (ext := Demo.externals) [OpSetVersion 3 false; OpDrop; OpVersion] Demo.pg_handle
       (Demo.pg_world Demo.ready_server [])
     = Some [Returned false; Returned false; Got (-1) false false]
  /\ KV_run [OpSetVersion 3 false; OpDrop; OpVersion] Demo.kv_handle
       (Demo.kv_world Demo.kv_ready [])
     = [Returned false; Returned false; Got 3 false false]
  /\ Pg_run (ext := Demo.externals) [OpSetVersion 1 false; OpSetVersion 2 false; OpVersion]
       Demo.pg_handle (Demo.pg_world Demo.ready_server [])
     = Some [Returned false; Returned false; Got 2 false false]
  /\ KV_run [OpSetVersion 1 false; OpSetVersion 2 false; OpVersion] Demo.kv_handle
       (Demo.kv_lagging Demo.kv_ready [1%nat])
     = [Returned false; Returned false; Got 1 false false].
Proof. repeat split; vm_compute; reflexivity. Qed.

(** Two fresh stores driven through the same sets and reads. *)
Lemma version_store_variants_agree_witness :
  let ops := [OpSetVersion (-1) true; OpVersion; OpSetVersion 5 false; OpVersion] in
  Forall store_op ops
  /\ Pg_run (ext := Demo.externals) ops Demo.pg_handle (Demo.pg_world Demo.ready_server [])
     = Some (KV_run ops Demo.kv_handle (Demo.kv_world Demo.kv_ready []))
  /\ KV_run ops Demo.kv_handle (Demo.kv_world Demo.kv_ready [])
     = [Returned false; Got (-1) true false; Returned false; Got 5 false false].
Proof.
  intros ops.
  assert (Hops : Forall store_op ops).
  { unfold ops.
    repeat (constructor;
            [first [exact I | cbn [store_op]; unfold is_int, MinInt, MaxInt; lia]|]).
    constructor. }
  split; [exact Hops|].
  destruct (version_store_variants_agree (ext := Demo.externals) ops
              Demo.pg_handle (Demo.pg_world Demo.ready_server [])
              Demo.kv_handle (Demo.kv_world Demo.kv_ready []) None)
    as (Hagree & Hcontract & _ & _);
    [exact Hops | reflexivity | reflexivity | vm_compute; eauto | reflexivity
    | constructor | vm_compute; eauto | vm_compute; reflexivity
    | vm_compute; reflexivity |].
  split; [exact Hagree|]. rewrite Hcontract. vm_compute. reflexivity.
Defined.

(** * Further properties of the driver *)

(** ** Positions in a statement *)

Lemma runesCount_acc (input : list Z) (target : Z) : forall acc,
  fold_left (fun count r => if r =? target then count + 1 else count) input acc
  = acc + Z.of_nat (occurrences input target).
Proof.
  unfold occurrences.
  induction input as [|r input IH]; intros acc; simpl; [lia|].
  rewrite IH. rewrite filter_cons.
  destruct (Z.eqb_spec r target) as [->|Hne].
  - rewrite decide_True by reflexivity. simpl. lia.
  - rewrite decide_False by exact Hne. lia.
Qed.

Lemma runesCount_occurrences (input : list Z) (target : Z) :
  Position.runesCount input target = Z.of_nat (occurrences input target).
Proof. unfold Position.runesCount. now rewrite runesCount_acc. Qed.

Lemma occurrences_le (input : list Z) (target : Z) :
  (occurrences input target <= length input)%nat.
Proof. unfold occurrences. apply length_filter. Qed.

(** The downward scan finds the greatest index below [n] that holds the
    target, if there is one. *)
Lemma scan_down_spec (input : list Z) (target : Z) : forall n,
  (Position.scan_down input target n = -1
   /\ forall j, (j < n)%nat -> input !! j <> Some target)
  \/ (exists i, (i < n)%nat
        /\ Position.scan_down input target n = Z.of_nat i
        /\ input !! i = Some target
        /\ forall j, (i < j < n)%nat -> input !! j <> Some target).
Proof.
  induction n as [|n IH]; simpl; unfold Position.rune in *.
  - left. split; [reflexivity|]. intros j Hj. lia.
  - assert (Hrec : input !! n <> Some target ->
              (Position.scan_down input target n = -1
               /\ forall j, (j < S n)%nat -> input !! j <> Some target)
              \/ (exists i, (i < S n)%nat
                    /\ Position.scan_down input target n = Z.of_nat i
                    /\ input !! i = Some target
                    /\ forall j, (i < j < S n)%nat -> input !! j <> Some target)).
    { intros Hn. destruct IH as [[Hs Hall]|(i & Hi & Hs & Hat & Hall)].
      - left. split; [exact Hs|]. intros j Hj.
        destruct (decide (j = n)) as [->|Hne]; [exact Hn|]. apply Hall. lia.
      - right. exists i. split; [lia|]. split; [exact Hs|]. split; [exact Hat|].
        intros j Hj. destruct (decide (j = n)) as [->|Hne]; [exact Hn|]. apply Hall. lia. }
    destruct (input !! n) as [r|] eqn:Hl.
    + destruct (Z.eqb_spec r target) as [->|Hne].
      * right. exists n. split; [lia|]. split; [reflexivity|]. split; [exact Hl|].
        intros j Hj. lia.
      * apply Hrec. congruence.
    + apply Hrec. discriminate.
Qed.

Lemma runesLastIndex_cases (input : list Z) (target : Z) :
  (Position.runesLastIndex input target = -1
   /\ forall j, input !! j <> Some target)
  \/ (exists i, (i < length input)%nat
        /\ Position.runesLastIndex input target = Z.of_nat i
        /\ input !! i = Some target
        /\ forall j, (i < j)%nat -> input !! j <> Some target).
Proof.
  unfold Position.runesLastIndex.
  assert (Hout : forall j, (length input <= j)%nat -> input !! j <> Some target).
  { intros j Hj. rewrite lookup_ge_None_2 by exact Hj. discriminate. }
  destruct (scan_down_spec input target (length input))
    as [[Hs Hall]|(i & Hi & Hs & Hat & Hall)].
  - left. split; [exact Hs|]. intros j.
    destruct (decide (j < length input)%nat); [now apply Hall|apply Hout; lia].
  - right. exists i. split; [exact Hi|]. split; [exact Hs|]. split; [exact Hat|].
    intros j Hj. destruct (decide (j < length input)%nat); [apply Hall; lia|apply Hout; lia].
Qed.

Lemma to_uint_small (x : Z) : 0 <= x < 2 ^ 64 -> Position.to_uint x = x.
Proof. intros H. unfold Position.to_uint. now apply Z.mod_small. Qed.

(** X1.  [runesCount] returns the number of positions of the input that
    hold the target rune: a number between zero and the length of the
    input, which is zero exactly when the target does not occur, and
    which adds up over concatenation. *)
Theorem runesCount_counts (input : list Z) (target : Z) :
  Position.runesCount input target
  = Z.of_nat (length (filter (fun r => r = target) input))
  /\ 0 <= Position.runesCount input target <= Z.of_nat (length input)
  /\ (Position.runesCount input target = 0 <-> target ∉ input)
  /\ forall more, Position.runesCount (input ++ more) target
                  = Position.runesCount input target + Position.runesCount more target.
Proof.
  rewrite runesCount_occurrences. split; [reflexivity|]. split.
  - pose proof (occurrences_le input target). lia.
  - split.
    + unfold occurrences. split.
      * intros H0 Hin. assert (Hf : target ∈ filter (fun r => r = target) input)
          by (apply list_elem_of_filter; auto).
        destruct (filter _ input); [now apply not_elem_of_nil in Hf|simpl in H0; lia].
      * intros Hnot. destruct (filter (fun r => r = target) input) as [|x l] eqn:Hf;
          [reflexivity|].
        exfalso. assert (Hx : x ∈ filter (fun r => r = target) input)
          by (rewrite Hf; apply elem_of_cons; now left).
        apply list_elem_of_filter in Hx. destruct Hx as [-> Hx]. contradiction.
    + intros more. rewrite !runesCount_occurrences. unfold occurrences.
      rewrite filter_app, length_app. lia.
Qed.

(** X2.  [runesLastIndex] returns the index of the last occurrence of
    the target rune: the result is [-1] exactly when the target does not
    occur; otherwise it is an index of the input that holds the target,
    and no later index does. *)
Theorem runesLastIndex_last (input : list Z) (target : Z) :
  let i := Position.runesLastIndex input target in
  -1 <= i < Z.of_nat (length input)
  /\ (i = -1 <-> target ∉ input)
  /\ (0 <= i -> input !! Z.to_nat i = Some target)
  /\ (forall j, i < Z.of_nat j -> input !! j <> Some target).
Proof.
  intros i. unfold i. clear i.
  destruct (runesLastIndex_cases input target) as [[Hs Hall]|(i & Hi & Hs & Hat & Hall)];
    rewrite Hs.
  - split; [lia|]. split; [|split].
    + split; [|reflexivity]. intros _ Hin.
      apply list_elem_of_lookup in Hin. destruct Hin as [j Hj]. now apply (Hall j).
    + lia.
    + intros j _. apply Hall.
  - split; [lia|]. split; [|split].
    + split; [lia|]. intros Hnot. exfalso. apply Hnot.
      eapply list_elem_of_lookup_2. exact Hat.
    + intros _. now rewrite Nat2Z.id.
    + intros j Hj. apply Hall. lia.
Qed.

(** X3.  [computeLineFromPos], whatever the decoding of the string into
    runes, once CR LF pairs have been replaced by LF: a position beyond
    the last rune yields [(0, 0, false)]; a negative position makes the
    slice expression panic; a position [pos] from zero to the number of
    runes yields [ok = true], the line being one more than the number of
    line feeds among the first [pos] runes and the column the number of
    runes from the one after the last of these line feeds up to position
    [pos], which is [pos] itself when there is none.  Neither conversion
    to [uint] wraps around. *)
Theorem computeLineFromPos_meaning (to_runes : string -> list Z) (s : string) (pos : Z) :
  is_int pos ->
  let runes := to_runes (Position.replace_crlf s) in
  (Z.of_nat (length runes) < pos ->
   Position.computeLineFromPos to_runes s pos = Position.Returns 0 0 false)
  /\ (pos < 0 -> Position.computeLineFromPos to_runes s pos = Position.Panics)
  /\ (0 <= pos <= Z.of_nat (length runes) ->
      exists line col,
        Position.computeLineFromPos to_runes s pos = Position.Returns line col true
        /\ line = 1 + Z.of_nat (length (filter (fun r => r = Position.newLine)
                                          (take (Z.to_nat pos) runes)))
        /\ 0 <= col <= pos
        /\ (forall j, (Z.to_nat (pos - col) <= j < Z.to_nat pos)%nat ->
                      runes !! j <> Some Position.newLine)
        /\ (col < pos -> runes !! Z.to_nat (pos - col - 1) = Some Position.newLine)).
Proof.
  intros Hint runes. unfold Position.computeLineFromPos, Position.rune.
  cbv zeta. fold runes.
  assert (Hmax : pos < 2 ^ 63) by (unfold is_int, MaxInt in Hint; lia).
  split; [|split].
  - intros Hgt. apply Z.ltb_lt in Hgt. now rewrite Hgt.
  - intros Hneg.
    assert ((Z.of_nat (length runes) <? pos) = false) as -> by (apply Z.ltb_ge; lia).
    apply Z.ltb_lt in Hneg. now rewrite Hneg.
  - intros [H0 Hle].
    assert ((Z.of_nat (length runes) <? pos) = false) as -> by (apply Z.ltb_ge; lia).
    assert ((pos <? 0) = false) as -> by (apply Z.ltb_ge; lia).
    set (sel := take (Z.to_nat pos) runes).
    assert (Hlen : length sel = Z.to_nat pos) by (apply length_take_le; lia).
    assert (Hsel : forall j, (j < Z.to_nat pos)%nat -> sel !! j = runes !! j)
      by (intros j Hj; now apply lookup_take_lt).
    pose proof (occurrences_le sel Position.newLine) as Hocc.
    rewrite runesCount_occurrences.
    rewrite (to_uint_small (Z.of_nat (occurrences sel Position.newLine) + 1))
      by (rewrite Hlen in Hocc; lia).
    destruct (runesLastIndex_cases sel Position.newLine)
      as [[Hs Hall]|(i & Hi & Hs & Hat & Hall)]; rewrite Hs.
    + rewrite to_uint_small by lia.
      eexists _, _. split; [reflexivity|]. split; [unfold occurrences; lia|].
      split; [lia|]. split; [|lia].
      intros j Hj. rewrite <- Hsel by lia. apply Hall.
    + rewrite Hlen in Hi. rewrite to_uint_small by lia.
      eexists _, _. split; [reflexivity|]. split; [unfold occurrences; lia|].
      split; [lia|]. split.
      * intros j Hj. rewrite <- Hsel by lia. apply Hall. lia.
      * intros _. replace (Z.to_nat (pos - (pos - 1 - Z.of_nat i) - 1)) with i by lia.
        rewrite <- Hsel by lia. exact Hat.
Qed.

(** Position 12 of a statement whose first line is ended by CR LF is the
    third character of its second line. *)
Lemma computeLineFromPos_meaning_witness :
  is_int 12
  /\ Position.computeLineFromPos Position.ascii_runes crlf_sample 12
     = Position.Returns 2 3 true.
Proof.
  assert (Hint : is_int 12) by (unfold is_int, MinInt, MaxInt; lia).
  split; [exact Hint|].
  destruct (computeLineFromPos_meaning Position.ascii_runes crlf_sample 12 Hint)
    as (_ & _ & Hin).
  destruct Hin as (line & col & Heq & _); [vm_compute; split; discriminate|].
  rewrite Heq. vm_compute in Heq. injection Heq as <- <-. reflexivity.
Defined.

(** ** Waiting for the lock, and handing it over *)

Section Lock_progress.
Context {ext : Externals}.

(** X4.  [Lock] waits, and does not return, exactly when the handle is
    open and not locked, the lock request reaches the server, and the
    advisory lock of the handle's target is held by another session.  In
    every other case [Lock] returns: a taken lock is never reported as an
    error. *)
Theorem Lock_waits_iff_held_elsewhere p w :
  Pg.Lock p w = None <->
  (Pg.isLocked p = false /\ open p /\ next_fault (Pg.faults w) = None
   /\ exists aid owner n,
       GenerateAdvisoryLockId (Pg.DatabaseName (Pg.config p)) (Pg.SchemaName (Pg.config p))
         = inl aid
       /\ Pg.advisory (Pg.server w) !! aid = Some (owner, n)
       /\ owner <> Pg.session (Pg.conn p)).
Proof.
  unfold Pg.Lock, Pg.ExecContext_lock, Pg.send, Pg.pg_advisory_lock, open.
  destruct (Pg.isLocked p).
  { split; [discriminate|]. intros (? & _). discriminate. }
  destruct (GenerateAdvisoryLockId _ _) as [aid|err].
  2:{ split; [discriminate|]. intros (_ & _ & _ & ? & ? & ? & ? & _). discriminate. }
  destruct (Pg.done (Pg.conn p)).
  { split; [discriminate|]. intros (_ & ? & _). discriminate. }
  destruct (next_fault (Pg.faults w)).
  { split; [discriminate|]. intros (_ & _ & ? & _). discriminate. }
  cbn [Pg.server].
  destruct (Pg.advisory (Pg.server w) !! aid) as [[owner n]|] eqn:Ha.
  - destruct (decide (owner = Pg.session (Pg.conn p))) as [->|Hne].
    + split; [discriminate|].
      intros (_ & _ & _ & aid' & owner' & n' & [= <-] & Hl & Hne). congruence.
    + split; [|reflexivity]. intros _. repeat split. exists aid, owner, n. auto.
  - split; [discriminate|].
    intros (_ & _ & _ & aid' & owner' & n' & [= <-] & Hl & Hne). congruence.
Qed.

Lemma own_locks_tidy_other sid p srv srv1 :
  acts_as sid srv srv1 -> Pg.session (Pg.conn p) <> sid ->
  own_locks_tidy p srv -> own_locks_tidy p srv1.
Proof.
  unfold own_locks_tidy. intros (_ & _ & _ & Hfr) Hne Ht Hopen aid n Hl.
  apply (Ht Hopen aid n). now apply Hfr.
Qed.

Lemma own_locks_tidy_same p p1 srv srv1 :
  Pg.conn p1 = Pg.conn p -> Pg.config p1 = Pg.config p -> Pg.isLocked p1 = Pg.isLocked p ->
  Pg.advisory srv1 = Pg.advisory srv ->
  own_locks_tidy p srv -> own_locks_tidy p1 srv1.
Proof.
  unfold own_locks_tidy, open. intros -> -> -> ->. auto.
Qed.

(** A lock granted to a session that held none is a single hold. *)
Lemma lock_granted_fresh sid aid srv srv1 :
  (forall n, Pg.advisory srv !! aid <> Some (sid, n)) ->
  Pg.pg_advisory_lock sid aid srv = Some srv1 ->
  Pg.advisory srv !! aid = None
  /\ Pg.advisory srv1 = <[aid := (sid, 1%nat)]> (Pg.advisory srv).
Proof.
  unfold Pg.pg_advisory_lock. intros Hfree.
  destruct (Pg.advisory srv !! aid) as [[owner n]|] eqn:Ha.
  - destruct (decide (owner = sid)) as [->|]; [|discriminate].
    exfalso. now apply (Hfree n).
  - intros [= <-]. auto.
Qed.

(** Giving back a single hold frees the key. *)
Lemma unlock_single_hold sid aid srv :
  Pg.advisory srv !! aid = Some (sid, 1%nat) ->
  Pg.advisory (Pg.pg_advisory_unlock sid aid srv) = delete aid (Pg.advisory srv).
Proof.
  unfold Pg.pg_advisory_unlock. intros ->.
  now rewrite decide_True by reflexivity.
Qed.

Lemma Pg_call_advisory op p w e p1 w1 :
  match op with OpSetVersion _ _ | OpVersion | OpDrop => True | _ => False end ->
  Pg_call op p w = Some (e, p1, w1) ->
  p1 = p /\ Pg.advisory (Pg.server w1) = Pg.advisory (Pg.server w).
Proof.
  destruct op; try contradiction; intros _; cbn [Pg_call].
  - pose proof (Pg_SetVersion_outcome p version dirty w) as Hout.
    destruct (Pg.SetVersion p version dirty w) as [e' w'].
    intros [= <- <- <-]. split; [reflexivity|].
    destruct e' as [err|]; [now rewrite Hout|].
    destruct Hout as (_ & _ & ->). reflexivity.
  - pose proof (Pg_Version_server p w) as Hsrv.
    destruct (Pg.Version p w) as [[[v d] e'] w']. cbn [snd] in Hsrv.
    intros [= <- <- <-]. now rewrite Hsrv.
  - pose proof (Pg_Drop_spec p w) as Hd. cbn zeta in Hd.
    destruct (Pg.Drop p w) as [e' w']. cbn [fst snd] in Hd.
    destruct Hd as (_ & Hadv & _).
    intros [= <- <- <-]. auto.
Qed.

Lemma Pg_call_tidy op p w e p1 w1 :
  Pg_call op p w = Some (e, p1, w1) ->
  (open p -> Pg.isLocked p = true -> holds_lock p (Pg.server w)) ->
  own_locks_tidy p (Pg.server w) -> own_locks_tidy p1 (Pg.server w1).
Proof.
  intros Hc Hheld Ht.
  destruct op.
  - (* Lock *)
    cbn [Pg_call] in Hc. apply Pg_Lock_spec in Hc. destruct Hc as [_ Hc].
    destruct e as [err|].
    + destruct Hc as (-> & Hsrv).
      eapply own_locks_tidy_same; [reflexivity..| |exact Ht]. now rewrite Hsrv.
    + destruct Hc as (Hlk & Hopen & -> & _ & _ & aid & Hid & Hgrant & _).
      apply lock_granted_fresh in Hgrant.
      2:{ intros n Hl. destruct (Ht Hopen aid n Hl) as (Hl' & _). congruence. }
      destruct Hgrant as (Hnone & Hadv).
      intros _ aid' n Hl. rewrite Hadv in Hl. cbn [Pg.conn Pg.set_isLocked] in Hl.
      destruct (decide (aid' = aid)) as [->|Hne].
      * rewrite lookup_insert_eq in Hl. injection Hl as <-. auto.
      * rewrite lookup_insert_ne in Hl by congruence.
        destruct (Ht Hopen aid' n Hl) as (Hl' & _). congruence.
  - (* Unlock *)
    cbn [Pg_call] in Hc.
    assert (Heq : Pg.Unlock p w = (e, p1, w1)) by congruence.
    pose proof (Pg_Unlock_spec p w) as Hu. rewrite Heq in Hu.
    cbn [fst snd] in Hu. destruct Hu as (_ & Hconn & Hcfg & Hu).
    destruct e as [err|].
    + destruct Hu as (-> & _ & Hsrv).
      eapply own_locks_tidy_same; [reflexivity..| |exact Ht]. now rewrite Hsrv.
    + destruct Hu as (Hlk1 & [[Hlk ->]|(Hlk & Hopen & _ & _ & aid & Hid & Hsrv & _)]).
      * eapply own_locks_tidy_same; [exact Hconn|exact Hcfg|congruence|reflexivity|exact Ht].
      * destruct (Hheld Hopen Hlk) as (aid0 & n0 & Hid0 & Hl0).
        assert (aid0 = aid) as -> by congruence.
        destruct (Ht Hopen aid n0 Hl0) as (_ & -> & _).
        intros _ aid' n Hl. exfalso.
        rewrite Hsrv, (unlock_single_hold _ _ _ Hl0), Hconn in Hl.
        apply lookup_delete_Some in Hl. destruct Hl as [Hne Hl].
        destruct (Ht Hopen aid' n Hl) as (_ & _ & Hid'). congruence.
  - apply Pg_call_advisory in Hc; [|exact I]. destruct Hc as [-> Hadv].
    eapply own_locks_tidy_same; [reflexivity..|exact Hadv|exact Ht].
  - apply Pg_call_advisory in Hc; [|exact I]. destruct Hc as [-> Hadv].
    eapply own_locks_tidy_same; [reflexivity..|exact Hadv|exact Ht].
  - apply Pg_call_advisory in Hc; [|exact I]. destruct Hc as [-> Hadv].
    eapply own_locks_tidy_same; [reflexivity..|exact Hadv|exact Ht].
  - (* Close *)
    cbn [Pg_call] in Hc.
    assert (Heq : Pg.Close p w = (e, p1, w1)) by congruence.
    pose proof (Pg_Close_spec p w) as Hcl. rewrite Heq in Hcl.
    cbn [fst snd] in Hcl. destruct Hcl as (_ & Hdone & _).
    intros Hopen. unfold open in Hopen. congruence.
Qed.

(** A successful [ensureVersionTable] gives back the lock it took. *)
Lemma Pg_ensureVersionTable_advisory p w p1 w1 :
  Pg.isLocked p = false ->
  (forall aid n, Pg.advisory (Pg.server w) !! aid <> Some (Pg.session (Pg.conn p), n)) ->
  Pg.ensureVersionTable p w = Some (None, p1, w1) ->
  Pg.advisory (Pg.server w1) = Pg.advisory (Pg.server w).
Proof.
  intros Hlk Hfree. unfold Pg.ensureVersionTable.
  destruct (Pg.Lock p w) as [[[e0 p0] w0]|] eqn:HL; [|discriminate].
  apply Pg_Lock_spec in HL. destruct HL as [_ HL].
  destruct e0 as [err|]; [discriminate|].
  destruct HL as (_ & Hopen & -> & _ & _ & aid & Hid & Hgrant & _).
  apply lock_granted_fresh in Hgrant; [|intros n; apply Hfree].
  destruct Hgrant as (Hnone & Hadv0).
  cbn [Pg.conn Pg.config Pg.set_isLocked].
  pose proof (Pg_ExecContext_tables (Pg.conn p) Background
                (CreateVersionTable (Pg.MigrationsTable (Pg.config p))) w0 I) as Hx.
  cbn zeta in Hx.
  destruct (Pg.ExecContext _ _ _ w0) as [r wc]. cbn [fst snd] in Hx.
  destruct Hx as (_ & Hadv1 & _).
  pose proof (Pg_Unlock_spec (Pg.set_isLocked true p) wc) as Hu. cbn zeta in Hu.
  destruct (Pg.Unlock (Pg.set_isLocked true p) wc) as [[eu pu] wu].
  cbn [fst snd] in Hu. destruct Hu as (_ & _ & _ & Hu).
  intros Heq. injection Heq as He <- <-.
  destruct eu as [err|]; [destruct r; discriminate|].
  destruct Hu as (_ & [[Hno _]|(_ & _ & _ & _ & aid' & Hid' & Hsrv & _)]); [discriminate|].
  cbn [Pg.conn Pg.config Pg.set_isLocked] in *.
  assert (aid' = aid) as -> by congruence.
  rewrite Hsrv, unlock_single_hold.
  - rewrite Hadv1, Hadv0. now apply delete_insert_id.
  - rewrite Hadv1, Hadv0. apply lookup_insert_eq.
Qed.

Lemma Pg_connect_and_ensure_advisory cfg w2 px w1 :
  known_owners (Pg.server w2) ->
  match Pg.DB_Conn Background w2 with
  | (inr err, w3) => Some (inr err, w3)
  | (inl conn, w3) =>
      match Pg.ensureVersionTable
              {| Pg.conn := conn; Pg.isLocked := false; Pg.config := cfg |} w3 with
      | None => None
      | Some (Some err, _, w4) => Some (inr err, w4)
      | Some (None, px, w4) => Some (inl px, w4)
      end
  end = Some (inl px, w1) ->
  Pg.advisory (Pg.server w1) = Pg.advisory (Pg.server w2).
Proof.
  intros Hk. unfold Pg.DB_Conn.
  destruct (Pg.send Background AcquireConn w2) as [e w3] eqn:Hs.
  apply send_inv in Hs. destruct Hs as (-> & Hsrv & _ & _).
  destruct (next_fault (Pg.faults w2)) as [err|]; [discriminate|].
  match goal with |- context [Pg.ensureVersionTable ?p ?w] =>
    destruct (Pg.ensureVersionTable p w) as [[[e px'] w4]|] eqn:He end; [|discriminate].
  destruct e as [err|]; [discriminate|]. intros [= <- <-].
  apply Pg_ensureVersionTable_advisory in He; [|reflexivity|].
  - rewrite He. cbn [Pg.server Pg.set_server Pg.connect Pg.advisory]. now rewrite Hsrv.
  - cbn [Pg.server Pg.set_server Pg.connect Pg.advisory Pg.conn Pg.session].
    rewrite Hsrv. intros aid n Hl. apply Hk in Hl. lia.
Qed.

Lemma Pg_WithInstance_advisory cfg w px w1 :
  known_owners (Pg.server w) ->
  Pg.WithInstance (Some cfg) w = Some (inl px, w1) ->
  Pg.advisory (Pg.server w1) = Pg.advisory (Pg.server w).
Proof.
  intros Hk. unfold Pg.WithInstance.
  destruct (Pg.send Background Ping w) as [e0 w0] eqn:Hs0.
  apply send_inv in Hs0. destruct Hs0 as (-> & Hsrv0 & _ & _).
  destruct (next_fault (Pg.faults w)) as [err|]; [discriminate|].
  match goal with |- match ?x with _ => _ end = _ -> _ => set (r1 := x) end.
  assert (Hr1 : Pg.server (snd r1) = Pg.server w).
  { unfold r1. destruct (String.eqb (Pg.DatabaseName cfg) ""); [|exact Hsrv0].
    destruct (Pg.DB_QueryRow _ _ w0) as [a w'] eqn:Hq.
    apply DB_QueryRow_inv in Hq. destruct Hq as (Hsrv & _).
    destruct a as [name|err]; simpl; [|congruence].
    destruct (_ =? _)%nat; simpl; congruence. }
  destruct r1 as [[databaseName|err] w1']; cbn [fst snd] in Hr1; [|discriminate].
  match goal with |- match ?x with _ => _ end = _ -> _ => set (r2 := x) end.
  assert (Hr2 : Pg.server (snd r2) = Pg.server w).
  { unfold r2. destruct (String.eqb (Pg.SchemaName cfg) ""); [|exact Hr1].
    destruct (Pg.DB_QueryRow _ _ w1') as [a w'] eqn:Hq.
    apply DB_QueryRow_inv in Hq. destruct Hq as (Hsrv & _).
    destruct a as [name|err]; simpl; [|congruence].
    destruct (_ =? _)%nat; simpl; congruence. }
  destruct r2 as [[schemaName|err] w2]; cbn [fst snd] in Hr2; [|discriminate].
  intros H. apply Pg_connect_and_ensure_advisory in H; [|now rewrite Hr2].
  now rewrite H, Hr2.
Qed.

Lemma fire_tidy ev s s1 :
  invariant s -> tidy s -> fire ev s = Some s1 -> tidy s1.
Proof.
  intros (Hown & Hsess & Hdist & Hheld & _) Ht.
  destruct ev as [h cfg|h op]; cbn [fire].
  - destruct (handles s !! h) as [?|] eqn:Hfree; [discriminate|].
    destruct (Pg.WithInstance (Some cfg) (world s)) as [[r w1]|] eqn:Hw; [|discriminate].
    pose proof Hw as Hw'.
    apply Pg_WithInstance_spec in Hw. destruct Hw as (_ & Hacts & _ & Hok).
    assert (Hold : forall h' p, handles s !! h' = Some p -> own_locks_tidy p (Pg.server w1)).
    { intros h' p Hp. eapply own_locks_tidy_other; [exact Hacts| |eauto].
      apply Hsess in Hp. lia. }
    destruct r as [px|err]; intros [= <-]; unfold tidy; cbn [world handles].
    + intros h' p Hp. destruct (decide (h' = h)) as [->|Hne].
      * rewrite lookup_insert_eq in Hp. injection Hp as <-.
        destruct (Hok px eq_refl) as (Hconn & _).
        apply Pg_WithInstance_advisory in Hw'; [|exact Hown].
        intros _ aid n Hl. exfalso. rewrite Hw', Hconn in Hl. cbn [Pg.session] in Hl.
        apply Hown in Hl. lia.
      * rewrite lookup_insert_ne in Hp by congruence. eauto.
    + exact Hold.
  - destruct (handles s !! h) as [p|] eqn:Hp; [|discriminate].
    destruct (Pg_call op p (world s)) as [[[e p1] w1]|] eqn:Hc; [|discriminate].
    pose proof Hc as Hc'.
    apply Pg_call_frame in Hc. destruct Hc as (Hacts & _).
    intros [= <-]. unfold tidy; cbn [world handles].
    intros h' p' Hp'. destruct (decide (h' = h)) as [->|Hne].
    + rewrite lookup_insert_eq in Hp'. injection Hp' as <-.
      eapply Pg_call_tidy; eauto.
    + rewrite lookup_insert_ne in Hp' by congruence.
      eapply own_locks_tidy_other; [exact Hacts| |eauto]. eauto.
Qed.

Lemma run_tidy evs : forall s s1,
  invariant s -> tidy s -> run evs s = Some s1 -> tidy s1.
Proof.
  induction evs as [|ev evs IH]; intros s s1 Hinv Ht; cbn [run].
  - now intros [= <-].
  - destruct (fire ev s) as [s'|] eqn:Hf; [|discriminate].
    intros Hr. eapply IH; [| |exact Hr].
    + eapply fire_invariant; eauto.
    + eapply fire_tidy; eauto.
Qed.

Lemma reachable_tidy s : reachable s -> tidy s.
Proof.
  intros (srv & f & evs & Hk & Hrun).
  eapply run_tidy; [| |exact Hrun].
  - now apply boot_invariant.
  - intros h p Hp. cbn [boot handles] in Hp. now rewrite lookup_empty in Hp.
Qed.

(** X5.  The flag and the server agree in both directions, and [Unlock]
    hands the lock over.  In every state that handles reach by any
    interleaving of calls, whatever requests fail: the session of an open
    handle whose flag is down holds no advisory lock at all; and when an
    open handle whose flag is up unlocks without error, its flag is down,
    its session holds no advisory lock any more, and a [Lock] by any
    open, unlocked handle on the same target whose request reaches the
    server is granted at once. *)
Theorem Unlock_releases_the_lock s h p :
  reachable s -> handles s !! h = Some p -> open p ->
  (Pg.isLocked p = false ->
   forall aid n,
     Pg.advisory (Pg.server (world s)) !! aid <> Some (Pg.session (Pg.conn p), n))
  /\ (Pg.isLocked p = true ->
      forall p1 w1,
        Pg.Unlock p (world s) = (None, p1, w1) ->
        Pg.isLocked p1 = false
        /\ (forall aid n,
               Pg.advisory (Pg.server w1) !! aid <> Some (Pg.session (Pg.conn p), n))
        /\ forall q,
             same_target p q -> open q -> Pg.isLocked q = false ->
             next_fault (Pg.faults w1) = None ->
             exists w2, Pg.Lock q w1 = Some (None, Pg.set_isLocked true q, w2)
                        /\ holds_lock q (Pg.server w2)).
Proof.
  intros Hreach Hp Hopen.
  pose proof (reachable_tidy s Hreach h p Hp) as Ht.
  apply reachable_invariant in Hreach. destruct Hreach as (_ & _ & _ & Hheld & _).
  split.
  { intros Hlk aid n Hl. destruct (Ht Hopen aid n Hl) as (Hlk' & _). congruence. }
  intros Hlk p1 w1 HU.
  destruct (Hheld h p Hp Hopen Hlk) as (aid & n & Hid & Hl).
  destruct (Ht Hopen aid n Hl) as (_ & -> & _).
  pose proof (Pg_Unlock_spec p (world s)) as Hu. rewrite HU in Hu.
  cbn [fst snd] in Hu. destruct Hu as (_ & _ & _ & Hlk1 & Hu).
  destruct Hu as [[Hno _]|(_ & _ & _ & _ & aid' & Hid' & Hsrv & _)]; [congruence|].
  assert (aid' = aid) as -> by congruence.
  assert (Hadv : Pg.advisory (Pg.server w1) = delete aid (Pg.advisory (Pg.server (world s))))
    by (rewrite Hsrv; now apply unlock_single_hold).
  split; [exact Hlk1|]. split.
  - intros aid' n Hl'. rewrite Hadv in Hl'.
    apply lookup_delete_Some in Hl'. destruct Hl' as [Hne Hl'].
    destruct (Ht Hopen aid' n Hl') as (_ & _ & Hid''). congruence.
  - intros q [Hdb Hsch] Hoq Hlq Hf.
    unfold Pg.Lock, Pg.ExecContext_lock, Pg.send, Pg.pg_advisory_lock.
    rewrite Hlq, <- Hdb, <- Hsch, Hid. unfold open in Hoq. rewrite Hoq, Hf.
    cbn [Pg.server]. rewrite Hadv, lookup_delete_eq.
    eexists. split; [reflexivity|].
    exists aid, 1%nat. cbn [Pg.config Pg.conn Pg.set_isLocked Pg.server Pg.set_server
                              Pg.set_advisory Pg.advisory].
    rewrite <- Hdb, <- Hsch. split; [exact Hid|]. apply lookup_insert_eq.
Qed.

End Lock_progress.

(** Two handles on one target: while the first holds the lock, [Lock] on
    the second waits; once the first has unlocked, it is granted. *)
Lemma Unlock_releases_the_lock_witness :
  match run (ext := Demo.externals)
          [Opens 1 Demo.pg_config; Opens 2 Demo.pg_config; Calls 1 OpLock]
          (boot Demo.fresh_server []) with
  | Some s =>
      match handles s !! 1%nat, handles s !! 2%nat with
      | Some p, Some q =>
          (reachable (ext := Demo.externals) s /\ open p /\ Pg.isLocked p = true)
          /\ Pg.Lock (ext := Demo.externals) q (world s) = None
          /\ fst (fst (Pg.Unlock (ext := Demo.externals) p (world s))) = None
          /\ exists w2,
               Pg.Lock (ext := Demo.externals) q
                 (snd (Pg.Unlock (ext := Demo.externals) p (world s)))
               = Some (None, Pg.set_isLocked true q, w2)
      | _, _ => False
      end
  | None => False
  end.
Proof.
  destruct (run (ext := Demo.externals)
              [Opens 1 Demo.pg_config; Opens 2 Demo.pg_config; Calls 1 OpLock]
              (boot Demo.fresh_server [])) as [s|] eqn:Hrun;
    [|vm_compute in Hrun; discriminate].
  assert (Hreach : reachable (ext := Demo.externals) s).
  { exists Demo.fresh_server, [], [Opens 1 Demo.pg_config; Opens 2 Demo.pg_config;
                                   Calls 1 OpLock].
    split; [|exact Hrun]. intros aid owner n Hl. cbn in Hl.
    rewrite lookup_empty in Hl. discriminate. }
  destruct (handles s !! 1%nat) as [p|] eqn:H1;
    [|vm_compute in Hrun; injection Hrun as <-; vm_compute in H1; discriminate].
  destruct (handles s !! 2%nat) as [q|] eqn:H2;
    [|vm_compute in Hrun; injection Hrun as <-; vm_compute in H2; discriminate].
  destruct (Pg.Unlock (ext := Demo.externals) p (world s)) as [[e p1] w1] eqn:HU.
  assert (Hfacts : same_target p q /\ open p /\ open q /\ Pg.isLocked p = true
                   /\ Pg.isLocked q = false
                   /\ Pg.Lock (ext := Demo.externals) q (world s) = None
                   /\ e = None /\ next_fault (Pg.faults w1) = None).
  { vm_compute in Hrun. injection Hrun as <-.
    vm_compute in H1. injection H1 as <-. vm_compute in H2. injection H2 as <-.
    vm_compute in HU. injection HU as <- <- <-.
    repeat split. }
  destruct Hfacts as (Hsame & Hop & Hoq & Hlp & Hlq & Hwait & -> & Hf).
  split; [auto|]. split; [exact Hwait|]. split; [reflexivity|]. cbn [snd].
  destruct (Unlock_releases_the_lock (ext := Demo.externals) s 1%nat p Hreach H1 Hop)
    as [_ Hrel].
  destruct (Hrel Hlp p1 w1 HU) as (_ & _ & Hgrant).
  destruct (Hgrant q Hsame Hoq Hlq Hf) as (w2 & HL & _).
  exists w2. exact HL.
Defined.

(** ** After [Close] *)

Section Closing.
Context {ext : Externals}.

(** X6.  [Close] ends the session of the handle: afterwards that session
    holds no advisory lock, and the tables are as they were.  Every later
    call on the closed handle returns at once, without sending a request
    and without changing the world: [SetVersion], [Version] and [Drop]
    fail with the closed-connection error, [Lock] fails instead of
    waiting, [Unlock] leaves the flag as it is and fails exactly when the
    flag is up, and a second [Close] reports the connection as closed
    already. *)
Theorem calls_after_Close_fail p w :
  let r := Pg.Close p w in
  let p1 := snd (fst r) in
  (forall aid n,
      Pg.advisory (Pg.server (snd r)) !! aid <> Some (Pg.session (Pg.conn p), n))
  /\ Pg.tables (Pg.server (snd r)) = Pg.tables (Pg.server w)
  /\ forall w',
       (forall v d,
           Pg.SetVersion p1 v d w'
           = (Some (DatabaseError (Some ErrConnDone) "transaction start failed" None), w'))
       /\ Pg.Version p1 w'
          = (0, false,
             Some (Pg.database_Error ErrConnDone ""
                     (SelectVersion (Pg.MigrationsTable (Pg.config p)))), w')
       /\ Pg.Drop p1 w' = (Some (Pg.database_Error ErrConnDone "" ListTables), w')
       /\ (exists err, Pg.Lock p1 w' = Some (Some err, p1, w'))
       /\ snd (Pg.Unlock p1 w') = w'
       /\ snd (fst (Pg.Unlock p1 w')) = p1
       /\ (fst (fst (Pg.Unlock p1 w')) = None <-> Pg.isLocked p = false)
       /\ exists dbErr, fst (fst (Pg.Close p1 w')) = Some (CloseError (Some ErrConnDone) dbErr).
Proof.
  intros r p1.
  pose proof (Pg_Close_spec p w) as Hc. cbn zeta in Hc. fold r in Hc. fold p1 in Hc.
  destruct Hc as (_ & Hdone & Hsess & Hlk & Hcfg & Hsrv).
  destruct (acts_as_end_session (Pg.session (Pg.conn p)) (Pg.server w)) as (_ & Htab & Hfree).
  split; [rewrite Hsrv; exact Hfree|]. split; [rewrite Hsrv; exact Htab|].
  intros w'. split; [|split; [|split; [|split; [|split; [|split; [|split]]]]]].
  - intros v d. unfold Pg.SetVersion, Pg.BeginTx. now rewrite Hdone.
  - unfold Pg.Version, Pg.QueryRowContext. now rewrite Hdone, Hcfg.
  - unfold Pg.Drop, Pg.QueryContext. now rewrite Hdone.
  - unfold Pg.Lock, Pg.ExecContext_lock. rewrite Hdone.
    destruct (Pg.isLocked p1); [eauto|].
    destruct (GenerateAdvisoryLockId _ _); eauto.
  - unfold Pg.Unlock, Pg.ExecContext. rewrite Hdone.
    destruct (Pg.isLocked p1); [|reflexivity].
    now destruct (GenerateAdvisoryLockId _ _).
  - unfold Pg.Unlock, Pg.ExecContext. rewrite Hdone.
    destruct (Pg.isLocked p1); [|reflexivity].
    now destruct (GenerateAdvisoryLockId _ _).
  - unfold Pg.Unlock, Pg.ExecContext. rewrite Hdone, <- Hlk.
    destruct (Pg.isLocked p1); simpl; [|tauto].
    destruct (GenerateAdvisoryLockId _ _); simpl; split; discriminate.
  - unfold Pg.Close, Pg.send. rewrite Hdone. simpl. eauto.
Qed.

End Closing.

(** ** [Drop] *)

Lemma left_after_nil t : left_after [] t t.
Proof. intros x. now rewrite bool_decide_eq_false_2 by apply not_elem_of_nil. Qed.

Lemma left_after_cons n dropped before after :
  left_after dropped (delete n before) after -> left_after (n :: dropped) before after.
Proof.
  intros H x. rewrite (H x).
  destruct (decide (x = n)) as [->|Hne].
  - rewrite (bool_decide_eq_true_2 (n ∈ n :: dropped)) by (apply elem_of_cons; now left).
    rewrite lookup_delete_eq. now destruct (bool_decide (n ∈ dropped)).
  - rewrite lookup_delete_ne by congruence.
    destruct (bool_decide (x ∈ dropped)) eqn:Hin.
    + apply bool_decide_eq_true_1 in Hin.
      rewrite bool_decide_eq_true_2; [reflexivity|]. apply elem_of_cons; now right.
    + apply bool_decide_eq_false_1 in Hin.
      rewrite bool_decide_eq_false_2; [reflexivity|].
      intros Hin'. apply elem_of_cons in Hin'. tauto.
Qed.

Lemma left_after_subseteq dropped before after :
  left_after dropped before after -> after ⊆ before.
Proof.
  intros H. apply map_subseteq_spec. intros t rows Hl. rewrite (H t) in Hl.
  now destruct (bool_decide (t ∈ dropped)).
Qed.

(** The loop of [Drop] stops at the first statement that fails: the
    tables before it are gone, the others are as they were. *)
Lemma Pg_drop_each_prefix c names : forall w,
  let r := Pg.drop_each c names w in
  exists dropped kept,
    names = dropped ++ kept
    /\ left_after dropped (Pg.tables (Pg.server w)) (Pg.tables (Pg.server (snd r)))
    /\ match fst r with
       | None => kept = []
       | Some err =>
           exists t rest e, kept = t :: rest /\ err = Pg.database_Error e "" (DropTable t)
       end.
Proof.
  induction names as [|n names IH]; intros w; cbn [Pg.drop_each fst snd].
  - exists [], []. split; [reflexivity|]. split; [apply left_after_nil|reflexivity].
  - unfold Pg.ExecContext, Pg.send.
    destruct (Pg.done c).
    { exists [], (n :: names). split; [reflexivity|]. split; [apply left_after_nil|].
      cbn [fst]. eauto. }
    cbv beta iota.
    destruct (next_fault (Pg.faults w)) as [e|].
    { exists [], (n :: names). split; [reflexivity|]. split; [apply left_after_nil|].
      cbn [fst]. eauto. }
    cbn [Pg.run_stmt].
    match goal with |- context [Pg.drop_each c names ?w1] =>
      destruct (IH w1) as (dropped & kept & Hn & Hw & Hr) end.
    exists (n :: dropped), kept. split; [now rewrite Hn|]. split; [|exact Hr].
    apply left_after_cons. exact Hw.
Qed.

(** X7.  [Drop] only deletes, and it is not atomic.  Whatever requests
    fail, the advisory locks are untouched and every table left is a
    table that was there, with the rows it had; the tables that are gone
    are the first ones of the listing, up to the first statement that
    failed; when [Drop] returns without error none of the listed tables
    is left, and when a listed table has been kept, [Drop] has returned
    an error and the first table kept is still in place. *)
Theorem Drop_deletes_a_prefix p w :
  let r := Pg.Drop p w in
  let names := filter (fun n => (0 < String.length n)%nat)
                 (map_to_list (Pg.tables (Pg.server w))).*1 in
  Pg.advisory (Pg.server (snd r)) = Pg.advisory (Pg.server w)
  /\ Pg.tables (Pg.server (snd r)) ⊆ Pg.tables (Pg.server w)
  /\ exists dropped kept,
       names = dropped ++ kept
       /\ left_after dropped (Pg.tables (Pg.server w)) (Pg.tables (Pg.server (snd r)))
       /\ (fst r = None -> kept = [])
       /\ (forall t rest, kept = t :: rest ->
             is_Some (Pg.tables (Pg.server (snd r)) !! t) /\ fst r <> None).
Proof.
  intros r names.
  pose proof (Pg_Drop_spec p w) as Hspec. cbn zeta in Hspec. fold r in Hspec.
  destruct Hspec as (_ & Hadv & _). split; [exact Hadv|].
  assert (Hnodup : NoDup names).
  { unfold names. apply NoDup_filter. apply NoDup_fst_map_to_list. }
  assert (Hin : forall t, t ∈ names -> is_Some (Pg.tables (Pg.server w) !! t)).
  { intros t Ht. unfold names in Ht. apply list_elem_of_filter in Ht. destruct Ht as [_ Ht].
    apply list_elem_of_fmap in Ht. destruct Ht as ([t' rows] & -> & Ht).
    apply elem_of_map_to_list in Ht. simpl. eauto. }
  assert (Hmain : exists dropped kept,
             names = dropped ++ kept
             /\ left_after dropped (Pg.tables (Pg.server w)) (Pg.tables (Pg.server (snd r)))
             /\ (fst r = None -> kept = [])
             /\ (kept <> [] -> fst r <> None)).
  { unfold r, Pg.Drop, Pg.QueryContext, Pg.send.
    destruct (Pg.done (Pg.conn p)).
    { exists [], names. split; [reflexivity|]. split; [apply left_after_nil|].
      split; discriminate. }
    cbv beta iota.
    destruct (next_fault (Pg.faults w)).
    { exists [], names. split; [reflexivity|]. split; [apply left_after_nil|].
      split; discriminate. }
    cbn [Pg.server]. fold names.
    match goal with |- context [Pg.drop_each ?c names ?w0] =>
      destruct (Pg_drop_each_prefix c names w0) as (dropped & kept & Hn & Hw & Hr);
      destruct (Pg.drop_each c names w0) as [e w1] end.
    cbn [fst snd Pg.server] in Hw, Hr.
    exists dropped, kept. split; [exact Hn|].
    destruct (next_fault (Pg.faults w1)); cbn [fst snd Pg.server];
      (split; [exact Hw|]).
    - split; discriminate.
    - destruct e as [err|].
      + split; discriminate.
      + split; [intros _; exact Hr|]. intros Hk. contradiction. }
  destruct Hmain as (dropped & kept & Hn & Hw & Hnone & Hkept).
  split; [eapply left_after_subseteq; exact Hw|].
  exists dropped, kept. split; [exact Hn|]. split; [exact Hw|]. split; [exact Hnone|].
  intros t rest ->. split; [|apply Hkept; discriminate].
  rewrite (Hw t). rewrite bool_decide_eq_false_2.
  - apply Hin. rewrite Hn. apply elem_of_app. right. apply elem_of_cons. now left.
  - intros Hd. rewrite Hn in Hnodup. apply NoDup_app in Hnodup.
    destruct Hnodup as (_ & Hdisj & _). apply (Hdisj t Hd). apply elem_of_cons. now left.
Qed.

(** ** Opening a handle *)

Section Opening_more.
Context {ext : Externals}.

Lemma Pg_WithInstance_names cfg w px w1 :
  Pg.WithInstance (Some cfg) w = Some (inl px, w1) ->
  Pg.DatabaseName (Pg.config px) <> ""%string
  /\ Pg.SchemaName (Pg.config px) <> ""%string
  /\ Pg.MigrationsTable (Pg.config px) <> ""%string
  /\ (Pg.DatabaseName cfg <> ""%string -> Pg.DatabaseName (Pg.config px) = Pg.DatabaseName cfg)
  /\ (Pg.SchemaName cfg <> ""%string -> Pg.SchemaName (Pg.config px) = Pg.SchemaName cfg)
  /\ (Pg.MigrationsTable cfg <> ""%string ->
      Pg.MigrationsTable (Pg.config px) = Pg.MigrationsTable cfg)
  /\ (Pg.DatabaseName cfg = ""%string ->
      Pg.DatabaseName (Pg.config px) = Pg.current_database (Pg.server w))
  /\ (Pg.SchemaName cfg = ""%string ->
      Pg.SchemaName (Pg.config px) = Pg.current_schema (Pg.server w))
  /\ (Pg.MigrationsTable cfg = ""%string ->
      Pg.MigrationsTable (Pg.config px) = Pg.DefaultMigrationsTable).
Proof.
  intros HW. pose proof HW as Hspec. apply Pg_WithInstance_spec in Hspec.
  destruct Hspec as (_ & _ & _ & Hok).
  destruct (Hok px eq_refl) as (_ & _ & Htab & Hdb & Hsch & _). clear Hok.
  assert (Hlen : forall s : string, (String.length s =? 0)%nat = true <-> s = ""%string).
  { intros s. destruct s; simpl; split; intros; congruence. }
  assert (Hnames :
    (String.eqb (Pg.DatabaseName cfg) "" = true ->
     Pg.current_database (Pg.server w) <> ""%string)
    /\ (String.eqb (Pg.SchemaName cfg) "" = true ->
        Pg.current_schema (Pg.server w) <> ""%string)).
  { revert HW. unfold Pg.WithInstance, Pg.DB_QueryRow, Pg.send.
    destruct (next_fault (Pg.faults w)); [discriminate|]. cbn [Pg.server Pg.faults].
    destruct (String.eqb (Pg.DatabaseName cfg) "") eqn:Edb;
      destruct (String.eqb (Pg.SchemaName cfg) "") eqn:Esch;
      cbv beta iota zeta; cbn [Pg.server Pg.faults];
      repeat match goal with
        | |- context [next_fault ?f] =>
            destruct (next_fault f); cbv beta iota zeta; cbn [Pg.server Pg.faults];
            [discriminate|]
        | |- context [(String.length ?n =? 0)%nat] =>
            destruct (String.length n =? 0)%nat eqn:?; cbv beta iota zeta;
            cbn [Pg.server Pg.faults]; [discriminate|]
        end;
      intros _; split; intros Hyes; try discriminate Hyes;
      intros Hn; apply Hlen in Hn; congruence. }
  destruct Hnames as [Hndb Hnsch].
  rewrite Htab, Hdb, Hsch.
  destruct (String.eqb_spec (Pg.DatabaseName cfg) "") as [Edb|Edb];
    destruct (String.eqb_spec (Pg.SchemaName cfg) "") as [Esch|Esch];
    destruct ((String.length (Pg.MigrationsTable cfg) =? 0)%nat) eqn:Et;
    (try (apply Hlen in Et));
    (try (assert (Pg.MigrationsTable cfg <> ""%string)
            by (intros Hn; apply Hlen in Hn; congruence)));
    repeat split; intros; try congruence; try discriminate; auto.
Qed.

(** X8.  The configuration of a handle is complete.  After a successful
    [WithInstance] the database name, the schema name and the name of
    the migrations table are not empty: each is the one given, or, if
    that is empty, the current database, the current schema reported by
    the server and [schema_migrations].  After a successful [Open] the
    migrations table is the value of [x-migrations-table] or
    [schema_migrations], the database name is the path of the URL or the
    current database, and the schema is the current schema. *)
Theorem handle_configuration :
  (forall cfg w px w1,
      Pg.WithInstance (Some cfg) w = Some (inl px, w1) ->
      Pg.DatabaseName (Pg.config px) <> ""%string
      /\ Pg.SchemaName (Pg.config px) <> ""%string
      /\ Pg.MigrationsTable (Pg.config px) <> ""%string
      /\ (Pg.DatabaseName cfg <> ""%string ->
          Pg.DatabaseName (Pg.config px) = Pg.DatabaseName cfg)
      /\ (Pg.SchemaName cfg <> ""%string -> Pg.SchemaName (Pg.config px) = Pg.SchemaName cfg)
      /\ (Pg.MigrationsTable cfg <> ""%string ->
          Pg.MigrationsTable (Pg.config px) = Pg.MigrationsTable cfg)
      /\ (Pg.DatabaseName cfg = ""%string ->
          Pg.DatabaseName (Pg.config px) = Pg.current_database (Pg.server w))
      /\ (Pg.SchemaName cfg = ""%string ->
          Pg.SchemaName (Pg.config px) = Pg.current_schema (Pg.server w))
      /\ (Pg.MigrationsTable cfg = ""%string ->
          Pg.MigrationsTable (Pg.config px) = Pg.DefaultMigrationsTable))
  /\ (forall url w px w1,
      Pg.Open url w = Some (inl px, w1) ->
      exists purl,
        nurl_Parse url = inl purl
        /\ sql_Open (Get (Query purl) "x-postgres-dsn") = None
        /\ Pg.MigrationsTable (Pg.config px)
           = (if String.eqb (Get (Query purl) "x-migrations-table") ""
              then Pg.DefaultMigrationsTable
              else Get (Query purl) "x-migrations-table")
        /\ Pg.DatabaseName (Pg.config px)
           = (if String.eqb (Path purl) ""
              then Pg.current_database (Pg.server w) else Path purl)
        /\ Pg.SchemaName (Pg.config px) = Pg.current_schema (Pg.server w)
        /\ Pg.DatabaseName (Pg.config px) <> ""%string
        /\ Pg.SchemaName (Pg.config px) <> ""%string).
Proof.
  split; [exact Pg_WithInstance_names|].
  intros url w px w1. unfold Pg.Open.
  destruct (nurl_Parse url) as [purl|err]; [|discriminate].
  destruct (sql_Open _) as [err|] eqn:Hs; [discriminate|].
  destruct (if String.eqb _ _ then _ else _) as [v [e|]]; [discriminate|].
  intros HW. apply Pg_WithInstance_names in HW.
  cbn [Pg.DatabaseName Pg.SchemaName Pg.MigrationsTable] in HW.
  destruct HW as (Hdb & Hsch & _ & Hdb1 & _ & Ht1 & Hdb0 & Hsch0 & Ht0).
  exists purl. split; [reflexivity|]. split; [exact Hs|].
  split; [|split; [|split; [|split]]]; auto.
  - destruct (String.eqb_spec (Get (Query purl) "x-migrations-table") ""); auto.
  - destruct (String.eqb_spec (Path purl) ""); auto.
Qed.

(** X9.  [ensureVersionTable] always gives the lock back.  On a handle
    that is not locked, either the lock has not been obtained, and then
    an error is returned, the server is as it was and at most the lock
    request has been sent; or the requests sent are the lock request,
    [CREATE TABLE IF NOT EXISTS] and the unlock request, in this order,
    also when the creation fails.  The handle is left locked only if an
    error is returned.  When the creation and the unlock both fail both
    errors are returned in one aggregate and the handle stays locked;
    when only the creation fails its error is returned and the handle is
    unlocked. *)
Theorem ensureVersionTable_always_unlocks p w e p1 w1 :
  Pg.isLocked p = false ->
  Pg.ensureVersionTable p w = Some (e, p1, w1) ->
  let table := Pg.MigrationsTable (Pg.config p) in
  (e <> None /\ p1 = p /\ Pg.server w1 = Pg.server w
   /\ (Pg.trace w1 = Pg.trace w
       \/ exists aid, Pg.trace w1 = (Background, AdvisoryLock aid) :: Pg.trace w))
  \/ (exists aid,
        Pg.trace w1 = (Background, AdvisoryUnlock aid)
                        :: (Background, CreateVersionTable table)
                        :: (Background, AdvisoryLock aid) :: Pg.trace w
        /\ Pg.conn p1 = Pg.conn p /\ Pg.config p1 = Pg.config p
        /\ (Pg.isLocked p1 = true -> e <> None)
        /\ (forall ec eu,
              next_fault (tail (Pg.faults w)) = Some ec ->
              next_fault (tail (tail (Pg.faults w))) = Some eu ->
              e = Some (MultiError
                          [Pg.database_Error ec "" (CreateVersionTable table);
                           Pg.database_Error eu "" (AdvisoryUnlock aid)])
              /\ Pg.isLocked p1 = true)
        /\ (forall ec,
              next_fault (tail (Pg.faults w)) = Some ec ->
              next_fault (tail (tail (Pg.faults w))) = None ->
              e = Some (Pg.database_Error ec "" (CreateVersionTable table))
              /\ Pg.isLocked p1 = false)).
Proof.
  intros Hlk Heq table. revert Heq.
  unfold Pg.ensureVersionTable, Pg.Lock, Pg.Unlock, Pg.ExecContext_lock,
    Pg.ExecContext, Pg.send.
  rewrite Hlk.
  destruct (GenerateAdvisoryLockId _ _) as [aid|err] eqn:Hid.
  2:{ intros [= <- <- <-]. left. split; [discriminate|]. auto. }
  destruct (Pg.done (Pg.conn p)) eqn:Hdone.
  { intros [= <- <- <-]. left. split; [discriminate|]. auto. }
  destruct (next_fault (Pg.faults w)) as [e0|] eqn:Hf0.
  { intros [= <- <- <-]. left. split; [discriminate|]. split; [reflexivity|].
    split; [reflexivity|]. right. exists aid. reflexivity. }
  cbn [Pg.server Pg.faults Pg.trace].
  destruct (Pg.pg_advisory_lock _ _ _) as [srv|]; [|discriminate].
  cbn [Pg.conn Pg.config Pg.isLocked Pg.set_isLocked Pg.set_server Pg.server Pg.faults
         Pg.trace negb].
  rewrite Hid, Hdone.
  destruct (next_fault (tail (Pg.faults w))) as [ec|] eqn:Hf1;
    cbn [Pg.run_stmt Pg.conn Pg.config Pg.isLocked Pg.set_isLocked Pg.set_server Pg.server
           Pg.faults Pg.trace Pg.tables Pg.set_tables].
  - destruct (next_fault (tail (tail (Pg.faults w)))) as [eu|] eqn:Hf2;
      cbn [Pg.conn Pg.config Pg.isLocked Pg.set_isLocked Pg.set_server Pg.server
             Pg.faults Pg.trace multierror_Append Pg.database_Error];
      intros [= <- <- <-]; right; exists aid; cbn [Pg.trace Pg.conn Pg.config Pg.isLocked];
      (split; [reflexivity|]); (split; [reflexivity|]); (split; [reflexivity|]);
      (split; [discriminate|]); split; intros; simplify_eq; auto.
  - destruct (Pg.tables srv !! Pg.MigrationsTable (Pg.config p));
      cbv beta iota zeta;
      cbn [Pg.conn Pg.config Pg.isLocked Pg.set_isLocked Pg.set_server Pg.server
             Pg.faults Pg.trace Pg.tables Pg.set_tables];
      destruct (next_fault (tail (tail (Pg.faults w)))) as [eu|] eqn:Hf2;
      cbv beta iota zeta;
      cbn [Pg.conn Pg.config Pg.isLocked Pg.set_isLocked Pg.set_server Pg.server
             Pg.faults Pg.trace multierror_Append Pg.database_Error];
      intros [= <- <- <-]; right; exists aid; cbn [Pg.trace Pg.conn Pg.config Pg.isLocked];
      (split; [reflexivity|]); (split; [reflexivity|]); (split; [reflexivity|]);
      (split; [try discriminate; intros; discriminate|]); split; intros; simplify_eq.
Qed.

(** X10.  Opening a handle keeps the version record.  A successful
    [WithInstance] leaves every table that existed with the rows it had;
    the only table it may add is the migrations table, empty, when that
    was absent; so what [Version()] reads after the handle has been
    opened is what it would have read before. *)
Theorem WithInstance_keeps_the_record cfg w px w1 :
  Pg.WithInstance (Some cfg) w = Some (inl px, w1) ->
  let table := Pg.MigrationsTable (Pg.config px) in
  (forall t rows, Pg.tables (Pg.server w) !! t = Some rows ->
                  Pg.tables (Pg.server w1) !! t = Some rows)
  /\ (forall t, t <> table -> Pg.tables (Pg.server w1) !! t = Pg.tables (Pg.server w) !! t)
  /\ (Pg.tables (Pg.server w) !! table = None -> Pg.tables (Pg.server w1) !! table = Some [])
  /\ Pg_stored px (Pg.server w1) = Pg_stored px (Pg.server w).
Proof.
  intros HW table. apply Pg_WithInstance_spec in HW.
  destruct HW as (_ & _ & _ & Hok).
  destruct (Hok px eq_refl) as (Hconn & _ & _ & _ & _ & _ & _ & Htab & _). clear Hok.
  fold table in Htab. unfold created in Htab.
  assert (Hopen : open px) by (unfold open; now rewrite Hconn).
  rewrite !Pg_stored_read by exact Hopen. fold table. rewrite Htab.
  destruct (Pg.tables (Pg.server w) !! table) as [rows0|] eqn:Hl.
  - repeat split; auto; [discriminate|].
    match goal with |- match ?x with _ => _ end = _ =>
      assert (Hx : x = Some rows0) by exact Hl; rewrite Hx end.
    reflexivity.
  - split; [|split; [|split]].
    + intros t rows Ht. rewrite lookup_insert_ne; [exact Ht|]. congruence.
    + intros t Hne. now rewrite lookup_insert_ne by congruence.
    + intros _. apply lookup_insert_eq.
    + rewrite lookup_insert_eq. reflexivity.
Qed.

End Opening_more.

(** A configuration that names nothing, on a server whose current
    database is [app] and whose current schema is [public]. *)
Lemma handle_configuration_witness :
  match Pg.WithInstance (ext := Demo.externals)
          (Some {| Pg.MigrationsTable := ""; Pg.DatabaseName := "";
                   Pg.SchemaName := ""; Pg.StatementTimeout := 0 |})
          (Demo.pg_world Demo.fresh_server []) with
  | Some (inl px, _) =>
      Pg.DatabaseName (Pg.config px) = "app"%string
      /\ Pg.SchemaName (Pg.config px) = "public"%string
      /\ Pg.MigrationsTable (Pg.config px) = "schema_migrations"%string
  | _ => False
  end.
Proof.
  destruct (Pg.WithInstance (ext := Demo.externals) _ _) as [[[px|e] w1]|] eqn:Hw;
    [|vm_compute in Hw; discriminate..].
  destruct (handle_configuration (ext := Demo.externals)) as [HW _].
  destruct (HW _ _ _ _ Hw) as (_ & _ & _ & _ & _ & _ & Hdb & Hsch & Ht).
  rewrite Hdb, Hsch, Ht by reflexivity. repeat split.
Defined.

(** The creation and the unlock both fail. *)
Lemma ensureVersionTable_always_unlocks_witness :
  match Pg.ensureVersionTable (ext := Demo.externals) Demo.pg_handle
          (Demo.pg_world Demo.ready_server
             [None; Some (IOError "reset"); Some (IOError "broken pipe")]) with
  | Some (e, p1, _) =>
      Pg.isLocked Demo.pg_handle = false
      /\ Pg.isLocked p1 = true
      /\ exists aid,
           e = Some (MultiError
                       [Pg.database_Error (IOError "reset") ""
                          (CreateVersionTable "schema_migrations");
                        Pg.database_Error (IOError "broken pipe") ""
                          (AdvisoryUnlock aid)])
  | None => False
  end.
Proof.
  destruct (Pg.ensureVersionTable (ext := Demo.externals) _ _) as [[[e p1] w1]|] eqn:He;
    [|vm_compute in He; discriminate].
  split; [reflexivity|].
  assert (Hlk0 : Pg.isLocked Demo.pg_handle = false) by reflexivity.
  destruct (ensureVersionTable_always_unlocks (ext := Demo.externals) _ _ _ _ _ Hlk0 He)
    as [(_ & _ & _ & Htr)|(aid & _ & _ & _ & _ & Hboth & _)].
  - exfalso. vm_compute in He. injection He as <- <- <-.
    destruct Htr as [Htr|[aid Htr]]; vm_compute in Htr; discriminate.
  - destruct (Hboth (IOError "reset") (IOError "broken pipe") eq_refl eq_refl) as [-> Hlk].
    split; [exact Hlk|]. exists aid. reflexivity.
Defined.

(** A store that holds [(7, false)] is opened once more. *)
Lemma WithInstance_keeps_the_record_witness :
  match Pg.WithInstance (ext := Demo.externals) (Some Demo.pg_config)
          (Demo.pg_world
             (Pg.set_tables {["schema_migrations" := [(7, false)]]} Demo.ready_server) [])
  with
  | Some (inl px, w1) => Pg_stored px (Pg.server w1) = (7, false, None)
  | _ => False
  end.
Proof.
  destruct (Pg.WithInstance (ext := Demo.externals) _ _) as [[[px|e] w1]|] eqn:Hw;
    [|vm_compute in Hw; discriminate..].
  destruct (WithInstance_keeps_the_record (ext := Demo.externals) _ _ _ _ Hw)
    as (_ & _ & _ & Hsame).
  rewrite Hsame. vm_compute in Hw. injection Hw as <- _. vm_compute. reflexivity.
Defined.

(** ** The version record *)

(** X11.  [SetVersion] ends the transaction it begins.  The requests of
    a call that returns without error are [BEGIN], [TRUNCATE], the
    [INSERT] when the guard on the version lets it through, and
    [COMMIT], in this order.  A call that returns an error has sent
    nothing (the handle is closed), or only the [BEGIN] that failed, or
    its last request is a [ROLLBACK] or the [COMMIT] that failed: no
    transaction is left open. *)
Theorem SetVersion_ends_its_transaction p v d w :
  let r := Pg.SetVersion p v d w in
  let table := Pg.MigrationsTable (Pg.config p) in
  exists new,
    sent w (snd r) new
    /\ match fst r with
       | None =>
           new = (Background, Commit)
                   :: (if (0 <=? v) || ((v =? NilVersion) && d)
                       then [(Background, InsertVersion table v d)] else [])
                   ++ [(Background, Truncate table); (Background, Begin)]
       | Some _ =>
           new = [] \/ new = [(Background, Begin)]
           \/ (last new = Some (Background, Begin)
               /\ (head new = Some (Background, Rollback)
                   \/ head new = Some (Background, Commit)))
       end.
Proof.
  unfold Pg.SetVersion, Pg.BeginTx, Pg.Tx_Exec, Pg.Tx_Rollback, Pg.Tx_Commit, Pg.send, sent.
  destruct w as [srv f tr]; simpl.
  destruct (Pg.done (Pg.conn p)); simpl; [exists []; auto|].
  destruct (next_fault f); simpl; [eexists [_]; split; [reflexivity|auto]|].
  destruct (next_fault (tail f)); simpl.
  { destruct (next_fault (tail (tail f))); simpl;
      (eexists [_; _; _]; split; [reflexivity|]; right; right; simpl; auto). }
  destruct (Pg.tables srv !! Pg.MigrationsTable (Pg.config p)) eqn:Ht; simpl.
  2:{ destruct (next_fault (tail (tail f))); simpl;
      (eexists [_; _; _]; split; [reflexivity|]; right; right; simpl; auto). }
  destruct ((0 <=? v) || (v =? NilVersion) && d); simpl.
  - destruct (next_fault (tail (tail f))); simpl.
    { destruct (next_fault (tail (tail (tail f)))); simpl;
        (eexists [_; _; _; _]; split; [reflexivity|]; right; right; simpl; auto). }
    rewrite lookup_insert_eq. simpl.
    destruct (next_fault (tail (tail (tail f)))); simpl;
      (eexists [_; _; _; _]; split; [reflexivity|]); [right; right; simpl; auto|reflexivity].
  - destruct (next_fault (tail (tail f))); simpl;
      (eexists [_; _; _]; split; [reflexivity|]); [right; right; simpl; auto|reflexivity].
Qed.

(** X12.  [Version] only reads, in both variants.  Whatever it returns,
    the relational server and the key-value store are as they were; an
    open relational handle sends exactly the one [SELECT] on the
    migrations table, a closed one sends nothing and gets an error; the
    key-value variant sends exactly one [GetItem] on the migrations
    table. *)
Theorem Version_only_reads :
  (forall p w,
      let r := Pg.Version p w in
      Pg.server (snd r) = Pg.server w
      /\ (open p ->
          Pg.trace (snd r)
          = (Background, SelectVersion (Pg.MigrationsTable (Pg.config p))) :: Pg.trace w)
      /\ (~ open p -> snd r = w /\ snd (fst r) <> None))
  /\ (forall s w,
      let r := KV.Version s w in
      KV.store (snd r) = KV.store w
      /\ exists key, KV.trace (snd r)
                     = KV.GetItem (KV.MigrationsTable (KV.config s)) key :: KV.trace w).
Proof.
  split.
  - intros p w r. split; [apply Pg_Version_server|].
    unfold r, Pg.Version, Pg.QueryRowContext, Pg.send, open.
    destruct (Pg.done (Pg.conn p)); simpl.
    + split; [discriminate|]. intros _. split; [reflexivity|discriminate].
    + split; [|congruence]. intros _.
      repeat case_match; simplify_eq; reflexivity.
  - intros s w r. split; [apply KV_Version_store|].
    unfold r, KV.Version, KV.dynamodb_GetItem, KV.send.
    eexists. repeat case_match; simplify_eq; reflexivity.
Qed.

(** X13.  Versions below the nil version are outside the data model, and
    there the variants differ: after a successful
    [SetVersion(version, dirty)] with [version < -1] the relational
    table is empty and [Version()] returns [(-1, false)], while the
    key-value variant has stored the pair: the item it has put decodes to
    [(version, dirty)], which is what a [Version()] whose read is served
    from the latest write returns. *)
Theorem versions_below_nil_differ (version : Z) (dirty : bool) :
  version < -1 -> is_int version ->
  (forall p w w1,
      Pg.SetVersion p version dirty w = (None, w1) ->
      Pg.tables (Pg.server w1) !! Pg.MigrationsTable (Pg.config p) = Some []
      /\ (next_fault (Pg.faults w1) = None ->
          fst (Pg.Version p w1) = (NilVersion, false, None)))
  /\ (forall s w w1,
      KV.SetVersion s version dirty w = (None, w1) ->
      KV_stored s (KV.store w1) = (version, dirty, None)
      /\ (next_fault (KV.faults w1) = None -> KV.next_lag (KV.lag w1) = O ->
          fst (KV.Version s w1) = (version, dirty, None))).
Proof.
  intros Hv Hint. split.
  - intros p w w1 Hset.
    pose proof (Pg_SetVersion_outcome p version dirty w) as Hout. rewrite Hset in Hout.
    destruct Hout as (Hopen & _ & Hsrv).
    assert (Hw : written version dirty = []).
    { unfold written, NilVersion.
      assert ((0 <=? version) = false) as -> by (apply Z.leb_gt; lia).
      assert ((version =? -1) = false) as -> by (apply Z.eqb_neq; lia). reflexivity. }
    assert (Ht : Pg.tables (Pg.server w1) !! Pg.MigrationsTable (Pg.config p) = Some []).
    { rewrite Hsrv. simpl. rewrite lookup_insert_eq. now rewrite Hw. }
    split; [exact Ht|]. intros Hf.
    rewrite Pg_Version_read by assumption.
    match goal with |- match ?x with _ => _ end = _ =>
      assert (Hx : x = Some []) by exact Ht; rewrite Hx end.
    reflexivity.
  - intros s w w1 Hset. split.
    + pose proof (KV_SetVersion_outcome s version dirty w) as Hout. rewrite Hset in Hout.
      destruct Hout as (items & Ht & Hst).
      unfold KV_stored. eapply KV_Version_of_item; eauto; simpl.
      * rewrite Hst. apply lookup_insert_eq.
      * apply lookup_insert_eq.
    + intros Hf Hlag. eapply KV_roundtrip; eauto.
Qed.

(** Version [-2] with the dirty flag. *)
Lemma versions_below_nil_differ_witness :
  (-2 < -1 /\ is_int (-2))
  /\ fst (Pg.Version Demo.pg_handle
            (snd (Pg.SetVersion Demo.pg_handle (-2) true
                    (Demo.pg_world Demo.ready_server [])))) = (-1, false, None)
  /\ fst (KV.Version Demo.kv_handle
            (snd (KV.SetVersion Demo.kv_handle (-2) true
                    (Demo.kv_world Demo.kv_ready [])))) = (-2, true, None).
Proof.
  assert (H1 : -2 < -1) by lia.
  assert (H2 : is_int (-2)) by (unfold is_int, MinInt, MaxInt; lia).
  destruct (versions_below_nil_differ (-2) true H1 H2) as (Hpg & Hkv).
  split; [split; assumption|]. split.
  - destruct (Hpg Demo.pg_handle (Demo.pg_world Demo.ready_server [])
                (snd (Pg.SetVersion Demo.pg_handle (-2) true
                        (Demo.pg_world Demo.ready_server [])))) as [_ Hread];
      [vm_compute; reflexivity|].
    apply Hread. vm_compute. reflexivity.
  - destruct (Hkv Demo.kv_handle (Demo.kv_world Demo.kv_ready [])
                (snd (KV.SetVersion Demo.kv_handle (-2) true
                        (Demo.kv_world Demo.kv_ready [])))) as [_ Hread];
      [vm_compute; reflexivity|].
    apply Hread; vm_compute; reflexivity.
Defined.

(** X14.  The last write wins.  Two successful [SetVersion] calls in a
    row leave the relational server, and the key-value store, exactly as
    the second call alone would have left it; in particular [SetVersion]
    is idempotent. *)
Theorem SetVersion_last_write_wins (v1 v2 : Z) (d1 d2 : bool) :
  (forall p w w1 w2 w2',
      Pg.SetVersion p v1 d1 w = (None, w1) ->
      Pg.SetVersion p v2 d2 w1 = (None, w2) ->
      Pg.SetVersion p v2 d2 w = (None, w2') ->
      Pg.server w2 = Pg.server w2')
  /\ (forall s w w1 w2 w2',
      KV.SetVersion s v1 d1 w = (None, w1) ->
      KV.SetVersion s v2 d2 w1 = (None, w2) ->
      KV.SetVersion s v2 d2 w = (None, w2') ->
      KV.store w2 = KV.store w2').
Proof.
  split.
  - intros p w w1 w2 w2' H1 H2 H2'.
    pose proof (Pg_SetVersion_outcome p v1 d1 w) as O1. rewrite H1 in O1.
    pose proof (Pg_SetVersion_outcome p v2 d2 w1) as O2. rewrite H2 in O2.
    pose proof (Pg_SetVersion_outcome p v2 d2 w) as O2'. rewrite H2' in O2'.
    destruct O1 as (_ & _ & E1), O2 as (_ & _ & E2), O2' as (_ & _ & E2').
    rewrite E2, E2', E1. unfold Pg.set_tables. simpl. now rewrite insert_insert_eq.
  - intros s w w1 w2 w2' H1 H2 H2'.
    pose proof (KV_SetVersion_outcome s v1 d1 w) as O1. rewrite H1 in O1.
    pose proof (KV_SetVersion_outcome s v2 d2 w1) as O2. rewrite H2 in O2.
    pose proof (KV_SetVersion_outcome s v2 d2 w) as O2'. rewrite H2' in O2'.
    destruct O1 as (i1 & T1 & E1), O2 as (i2 & T2 & E2), O2' as (i2' & T2' & E2').
    rewrite E2, E2'. rewrite E1 in T2 |- *. rewrite lookup_insert_eq in T2.
    injection T2 as <-. assert (i2' = i1) as -> by congruence.
    now rewrite !insert_insert_eq.
Qed.

(** [(1, false)] is overwritten by [(2, true)]. *)
Lemma SetVersion_last_write_wins_witness :
  let w := Demo.pg_world Demo.ready_server [] in
  Pg.server (snd (Pg.SetVersion Demo.pg_handle 2 true
                    (snd (Pg.SetVersion Demo.pg_handle 1 false w))))
  = Pg.server (snd (Pg.SetVersion Demo.pg_handle 2 true w)).
Proof.
  intros w. destruct (SetVersion_last_write_wins 1 2 false true) as [Hpg _].
  apply (Hpg Demo.pg_handle w (snd (Pg.SetVersion Demo.pg_handle 1 false w)));
    vm_compute; reflexivity.
Defined.

(** ** The runner *)

Section Runner.
Context {ext : Externals}.

(** X15.  [Run] reports success only for a migration that ran to its
    end with exit status 0.  In the relational variant and in the earlier
    key-value variant [Run] returns no error exactly when the temporary
    directory, the reading and the writing of the migration raised no
    error, the program started, exited, and its status is 0; in the
    later key-value variant it must, besides, have exited within the
    timeout when one is set. *)
Theorem Run_succeeds_iff_exit_0 p s migration env :
  let child := os.behaviour env (os.bytes migration) in
  let launched :=
    os.tempdir_err env = None /\ os.read_err migration = None
    /\ os.write_err env = None /\ os.starts child = true in
  (Pg.Run p migration env = Some None
   <-> launched /\ is_Some (os.lifetime child) /\ os.status child = 0)
  /\ (KV.Run_v0 s migration env = Some None
      <-> launched /\ is_Some (os.lifetime child) /\ os.status child = 0)
  /\ (KV.Run s migration env = Some None
      <-> launched
          /\ (exists t, os.lifetime child = Some t
                        /\ (0 < KV.Timeout (KV.config s) -> t <= KV.Timeout (KV.config s)))
          /\ os.status child = 0).
Proof.
  intros child launched. unfold launched.
  assert (Hplain :
    Pg.Run p migration env = Some None
    <-> (os.tempdir_err env = None /\ os.read_err migration = None
         /\ os.write_err env = None /\ os.starts child = true)
        /\ is_Some (os.lifetime child) /\ os.status child = 0).
  { unfold Pg.Run, os.Cmd_Run, os.wait_result. cbn [os.ctx os.image Background].
    fold child.
    destruct (os.tempdir_err env); [split; [discriminate|intros ((? & _) & _); discriminate]|].
    destruct (os.read_err migration);
      [split; [discriminate|intros ((_ & ? & _) & _); discriminate]|].
    destruct (os.write_err env);
      [split; [discriminate|intros ((_ & _ & ? & _) & _); discriminate]|].
    destruct (os.starts child); cbn [negb];
      [|split; [discriminate|intros ((_ & _ & _ & ?) & _); discriminate]].
    destruct (os.lifetime child) as [t|];
      [|split; [discriminate|intros (_ & [? ?] & _); discriminate]].
    destruct (Z.eqb_spec (os.status child) 0) as [H0|H0].
    - split; [intros _|reflexivity]. repeat split; eauto.
    - split; [discriminate|]. intros (_ & _ & ?). contradiction. }
  split; [exact Hplain|]. split; [exact Hplain|].
  unfold KV.Run, os.Cmd_Run, os.wait_result. cbn [os.ctx os.image]. fold child.
  destruct (os.tempdir_err env); [split; [discriminate|intros ((? & _) & _); discriminate]|].
  destruct (os.read_err migration);
    [split; [discriminate|intros ((_ & ? & _) & _); discriminate]|].
  destruct (os.write_err env);
    [split; [discriminate|intros ((_ & _ & ? & _) & _); discriminate]|].
  destruct (Z.ltb_spec 0 (KV.Timeout (KV.config s))) as [Hpos|Hnon];
    cbn [WithTimeout Background].
  - assert ((KV.Timeout (KV.config s) <=? 0) = false) as -> by (apply Z.leb_gt; lia).
    destruct (os.starts child); cbn [negb];
      [|split; [discriminate|intros ((_ & _ & _ & ?) & _); discriminate]].
    destruct (os.lifetime child) as [t|];
      [|split; [discriminate|intros (_ & (? & ? & _) & _); discriminate]].
    destruct (Z.leb_spec t (KV.Timeout (KV.config s))) as [Hle|Hgt].
    + destruct (Z.eqb_spec (os.status child) 0) as [H0|H0].
      * split; [intros _|reflexivity]. repeat split; eauto.
      * split; [discriminate|]. intros (_ & _ & ?). contradiction.
    + split; [discriminate|]. intros (_ & (t' & [= <-] & Hb) & _). specialize (Hb Hpos). lia.
  - destruct (os.starts child); cbn [negb];
      [|split; [discriminate|intros ((_ & _ & _ & ?) & _); discriminate]].
    destruct (os.lifetime child) as [t|];
      [|split; [discriminate|intros (_ & (? & ? & _) & _); discriminate]].
    destruct (Z.eqb_spec (os.status child) 0) as [H0|H0].
    + split; [intros _|reflexivity]. repeat split; auto. exists t. split; [reflexivity|lia].
    + split; [discriminate|]. intros (_ & _ & ?). contradiction.
Qed.

End Runner.

(** ** The key-value item *)

(** X16.  The key-value [Version] does not take a malformed item for a
    version.  When the item exists in the state the read is served from,
    [Version] returns without error
    exactly when the item has a [Version] attribute of type N that
    [strconv.Atoi] accepts and a [Dirty] attribute of type BOOL, and it
    then returns the parsed version and the flag; an unparsable version
    text is reported as a parse error even though the [Dirty] attribute is
    read after it. *)
Theorem KV_Version_rejects_malformed_item s w items item :
  next_fault (KV.faults w) = None ->
  KV.seen w !! KV.MigrationsTable (KV.config s) = Some items ->
  items !! KV.LatestMigrationVersion = Some item ->
  is_Some (item !! "ID") ->
  let r := fst (KV.Version s w) in
  (snd r = None <->
   exists vs, KV_version_text item = Some vs
              /\ snd (strconv.Atoi vs) = None /\ is_Some (KV_dirty_flag item))
  /\ (forall vs d, KV_version_text item = Some vs -> KV_dirty_flag item = Some d ->
        fst r = (fst (strconv.Atoi vs), d))
  /\ (forall vs e, KV_version_text item = Some vs -> snd (strconv.Atoi vs) = Some e ->
        is_Some (KV_dirty_flag item) ->
        snd r = Some (Wrapf "could not parse Version attribute on dynamodb item"
                        (NumError "Atoi" vs e))).
Proof.
  intros Hf Ht Hitem [a Hid] r. unfold r. clear r.
  unfold KV.Version, KV.dynamodb_GetItem, KV.send, KV_version_text, KV_dirty_flag.
  rewrite Hf. cbv beta iota zeta. change (KV.seen _) with (KV.seen w). rewrite Ht.
  unfold KV.key_of. rewrite lookup_insert_eq. simpl. rewrite Hitem. simpl. rewrite Hid.
  destruct (item !! "Version") as [av|]; simpl.
  2:{ split; [|split]; [split; [discriminate|intros (vs & ? & _); discriminate]
                       |discriminate|discriminate]. }
  destruct (KV.attr_N av) as [vs|]; simpl.
  2:{ split; [|split]; [split; [discriminate|intros (vs & ? & _); discriminate]
                       |discriminate|discriminate]. }
  destruct (strconv.Atoi vs) as [v e] eqn:Ha.
  destruct (item !! "Dirty") as [ad|]; simpl.
  2:{ split; [|split].
      - split; [discriminate|]. intros (vs' & _ & _ & [? ?]). discriminate.
      - discriminate.
      - intros ? ? _ _ [? ?]. discriminate. }
  destruct (KV.attr_BOOL ad) as [d|]; simpl.
  2:{ split; [|split].
      - split; [discriminate|]. intros (vs' & _ & _ & [? ?]). discriminate.
      - discriminate.
      - intros ? ? _ _ [? ?]. discriminate. }
  split; [|split].
  - split.
    + intros He. exists vs. rewrite Ha. simpl. destruct e; [discriminate|]. eauto.
    + intros (vs' & [= <-] & He & _). rewrite Ha in He. simpl in He. now subst e.
  - intros vs' d' [= <-] [= <-]. rewrite Ha. reflexivity.
  - intros vs' e' [= <-] He _. rewrite Ha in He. simpl in He. now subst e.
Qed.

(** An item whose version text is [v12]. *)
Lemma KV_Version_rejects_malformed_item_witness :
  snd (fst (KV.Version Demo.kv_handle
              (Demo.kv_world {["migrations" := {[KV.LatestMigrationVersion := broken_item]}]} [])))
  = Some (Wrapf "could not parse Version attribute on dynamodb item"
            (NumError "Atoi" "v12" strconv.ErrSyntax)).
Proof.
  destruct (KV_Version_rejects_malformed_item Demo.kv_handle
              (Demo.kv_world {["migrations" := {[KV.LatestMigrationVersion := broken_item]}]} [])
              {[KV.LatestMigrationVersion := broken_item]} broken_item)
    as (_ & _ & Hbad);
    [reflexivity | vm_compute; reflexivity | vm_compute; reflexivity
    | vm_compute; eauto |].
  apply Hbad; [vm_compute; reflexivity | vm_compute; reflexivity | vm_compute; eauto].
Defined.

(** X17.  The key-value [SetVersion] writes one item and nothing else.
    After a call that returns without error the migrations table holds,
    under the fixed key, an item with exactly the attributes [ID],
    [Dirty] and [Version], which carry the flag and the decimal text of
    the version; every other item of the table and every other table is
    as it was, and the call has sent exactly one [PutItem]. *)
Theorem KV_SetVersion_writes_one_item s v d w w1 :
  KV.SetVersion s v d w = (None, w1) ->
  let table := KV.MigrationsTable (KV.config s) in
  (exists items items1 item,
      KV.store w !! table = Some items
      /\ KV.store w1 !! table = Some items1
      /\ items1 !! KV.LatestMigrationVersion = Some item
      /\ (forall k, k <> KV.LatestMigrationVersion -> items1 !! k = items !! k)
      /\ (forall a, is_Some (item !! a)
                    <-> a = "ID"%string \/ a = "Dirty"%string \/ a = "Version"%string)
      /\ KV_version_text item = Some (strconv.Itoa v) /\ KV_dirty_flag item = Some d)
  /\ (forall t, t <> table -> KV.store w1 !! t = KV.store w !! t)
  /\ exists item, KV.trace w1 = KV.PutItem table item :: KV.trace w.
Proof.
  intros Hset table.
  pose proof (KV_SetVersion_outcome s v d w) as Hout. rewrite Hset in Hout.
  destruct Hout as (items & Ht & Hst). fold table in Ht, Hst.
  split; [|split].
  - eexists items, _, _. split; [exact Ht|]. rewrite Hst.
    split; [apply lookup_insert_eq|]. split; [apply lookup_insert_eq|].
    split; [intros k Hk; now rewrite lookup_insert_ne by congruence|].
    split; [|split; reflexivity].
    intros a. split.
    + intros Hsome.
      destruct (decide (a = "ID"%string)) as [->|H1]; [now left|].
      destruct (decide (a = "Dirty"%string)) as [->|H2]; [right; now left|].
      destruct (decide (a = "Version"%string)) as [->|H3]; [right; now right|].
      rewrite !lookup_insert_ne in Hsome by congruence.
      rewrite lookup_empty in Hsome. now destruct Hsome.
    + intros [-> | [-> | ->]]; vm_compute; eauto.
  - intros t Hne. rewrite Hst. now rewrite lookup_insert_ne by congruence.
  - revert Hset. unfold KV.SetVersion, KV.dynamodb_PutItem, KV.send. fold table.
    repeat case_match; intros; simplify_eq; simpl; eauto.
Qed.

(** A broken record is replaced; the table [users] is not touched. *)
Lemma KV_SetVersion_writes_one_item_witness :
  let w := Demo.kv_world
             {["migrations" := {[KV.LatestMigrationVersion := broken_item]};
               "users" := ∅]} [] in
  let w1 := snd (KV.SetVersion Demo.kv_handle 5 false w) in
  KV.store w1 !! "users" = Some ∅
  /\ fst (KV.Version Demo.kv_handle w1) = (5, false, None).
Proof.
  intros w w1.
  assert (Hset : KV.SetVersion Demo.kv_handle 5 false w = (None, w1))
    by (vm_compute; reflexivity).
  destruct (KV_SetVersion_writes_one_item Demo.kv_handle 5 false w w1 Hset)
    as (_ & Hother & _).
  split.
  - rewrite Hother by discriminate. vm_compute. reflexivity.
  - vm_compute. reflexivity.
Defined.

Section Options.
Context {ext : Externals}.


End Options.


(** ** Calls in a row *)

(** X19.  [SetVersion] needs the store that only the relational [Open]
    creates.  While the migrations table is absent, [SetVersion] returns
    an error and changes nothing, in both variants and whatever requests
    fail; when none fails, the error is the store's own: the
    undefined-table error of the [TRUNCATE], the resource-not-found error
    of the [PutItem].  In particular, after a [Drop] that has succeeded
    the relational [SetVersion] fails until the table is created again. *)
Theorem SetVersion_needs_the_table :
  (forall p v d w,
      Pg.tables (Pg.server w) !! Pg.MigrationsTable (Pg.config p) = None ->
      let r := Pg.SetVersion p v d w in
      fst r <> None /\ Pg.server (snd r) = Pg.server w
      /\ (open p -> Pg.faults w = [] ->
          fst r = Some (Pg.database_Error (PqError "undefined_table") ""
                          (Truncate (Pg.MigrationsTable (Pg.config p))))))
  /\ (forall p w v d,
      Pg.MigrationsTable (Pg.config p) <> ""%string ->
      fst (Pg.Drop p w) = None ->
      fst (Pg.SetVersion p v d (snd (Pg.Drop p w))) <> None)
  /\ (forall s v d w,
      KV.store w !! KV.MigrationsTable (KV.config s) = None ->
      let r := KV.SetVersion s v d w in
      fst r <> None /\ KV.store (snd r) = KV.store w
      /\ (KV.faults w = [] -> fst r = Some (AwsError "ResourceNotFoundException"))).
Proof.
  assert (Hpg : forall p v d w,
      Pg.tables (Pg.server w) !! Pg.MigrationsTable (Pg.config p) = None ->
      fst (Pg.SetVersion p v d w) <> None
      /\ Pg.server (snd (Pg.SetVersion p v d w)) = Pg.server w).
  { intros p v d w Ht.
    pose proof (Pg_SetVersion_outcome p v d w) as Hout.
    destruct (Pg.SetVersion p v d w) as [[e|] w1]; cbn [fst snd].
    - split; [discriminate|exact Hout].
    - destruct Hout as (_ & [rows Hsome] & _). congruence. }
  split; [|split].
  - intros p v d w Ht r. destruct (Hpg p v d w Ht) as [Herr Hsrv].
    split; [exact Herr|]. split; [exact Hsrv|].
    intros Hopen Hf. unfold r, Pg.SetVersion, Pg.BeginTx, Pg.Tx_Exec, Pg.Tx_Rollback, Pg.send.
    unfold open in Hopen. rewrite Hopen, Hf. simpl.
    match goal with |- context [match ?x with _ => _ end] =>
      assert (Hx : x = None) by exact Ht; rewrite Hx end.
    reflexivity.
  - intros p w v d Hname Hok.
    pose proof (Pg_Drop_spec p w) as Hd. cbn zeta in Hd.
    destruct Hd as (_ & _ & Hd). destruct (Hd Hok) as (_ & Hgone).
    apply Hpg. now apply Hgone.
  - intros s v d w Ht r.
    pose proof (KV_SetVersion_outcome s v d w) as Hout. fold r in Hout.
    assert (Herr : fst r <> None).
    { destruct r as [[e|] w1]; cbn [fst]; [discriminate|].
      destruct Hout as (items & Hsome & _). congruence. }
    split; [exact Herr|]. split.
    + destruct r as [[e|] w1]; cbn [fst snd] in *; [exact Hout|contradiction].
    + intros Hf. unfold r, KV.SetVersion, KV.dynamodb_PutItem, KV.send.
      rewrite Hf. simpl. rewrite Ht. reflexivity.
Qed.

(** After a [Drop] the version can no longer be set. *)
Lemma SetVersion_needs_the_table_witness :
  let w := Demo.pg_world Demo.ready_server [] in
  fst (Pg.Drop Demo.pg_handle w) = None
  /\ fst (Pg.SetVersion Demo.pg_handle 1 false (snd (Pg.Drop Demo.pg_handle w))) <> None.
Proof.
  intros w.
  assert (Hok : fst (Pg.Drop Demo.pg_handle w) = None) by (vm_compute; reflexivity).
  split; [exact Hok|].
  destruct SetVersion_needs_the_table as (_ & Hdrop & _).
  apply Hdrop; [discriminate|exact Hok].
Defined.

Section Step.
Context {ext : Externals}.

(** X20.  A migration step goes through.  On an open, unlocked handle
    whose migrations table exists, when no request fails and no session
    holds the advisory lock of the handle's target: [Lock], the
    [SetVersion] that marks the target version dirty, the [SetVersion]
    that clears the flag, [Version] and [Unlock] all return without
    error and none of them waits, [Version] returns the version with the
    flag down, and at the end the advisory locks are as they were, the
    flag of the handle is down and the migrations table holds the one
    row [(version, false)]. *)
Theorem migration_step_goes_through p w version aid rows :
  0 <= version ->
  open p -> Pg.isLocked p = false -> Pg.faults w = [] ->
  GenerateAdvisoryLockId (Pg.DatabaseName (Pg.config p)) (Pg.SchemaName (Pg.config p))
    = inl aid ->
  Pg.advisory (Pg.server w) !! aid = None ->
  Pg.tables (Pg.server w) !! Pg.MigrationsTable (Pg.config p) = Some rows ->
  Pg_run [OpLock; OpSetVersion version true; OpSetVersion version false; OpVersion; OpUnlock]
    p w
  = Some [Returned false; Returned false; Returned false; Got version false false;
          Returned false]
  /\ exists p1 w1 w2 w3 p4 w4,
       Pg.Lock p w = Some (None, p1, w1)
       /\ Pg.SetVersion p1 version true w1 = (None, w2)
       /\ Pg.SetVersion p1 version false w2 = (None, w3)
       /\ fst (Pg.Version p1 w3) = (version, false, None)
       /\ Pg.Unlock p1 (snd (Pg.Version p1 w3)) = (None, p4, w4)
       /\ Pg.isLocked p1 = true /\ Pg.isLocked p4 = false
       /\ Pg.advisory (Pg.server w4) = Pg.advisory (Pg.server w)
       /\ Pg.tables (Pg.server w4)
          = <[Pg.MigrationsTable (Pg.config p) := [(version, false)]]>
              (Pg.tables (Pg.server w)).
Proof.
  intros Hv Hopen Hlk Hf Hid Hfree Ht.
  assert (Hw : written version true = [(version, true)]
               /\ written version false = [(version, false)]).
  { unfold written. assert ((0 <=? version) = true) as -> by (apply Z.leb_le; lia).
    split; reflexivity. }
  destruct Hw as [Hwt Hwf].
  destruct w as [srv f tr]. cbn [Pg.faults Pg.server] in *. subst f.
  (* Lock *)
  set (srv1 := Pg.set_advisory (<[aid := (Pg.session (Pg.conn p), 1%nat)]> (Pg.advisory srv)) srv).
  set (w1 := {| Pg.server := srv1; Pg.faults := [];
                Pg.trace := (Background, AdvisoryLock aid) :: tr |}).
  set (p1 := Pg.set_isLocked true p).
  assert (HL : Pg.Lock p {| Pg.server := srv; Pg.faults := []; Pg.trace := tr |}
               = Some (None, p1, w1)).
  { unfold Pg.Lock, Pg.ExecContext_lock, Pg.send, Pg.pg_advisory_lock.
    unfold open in Hopen. rewrite Hlk, Hid, Hopen. cbn [Pg.faults Pg.server next_fault].
    rewrite Hfree. reflexivity. }
  assert (Hopen1 : open p1) by exact Hopen.
  (* first SetVersion *)
  assert (Ht1 : is_Some (Pg.tables srv1 !! Pg.MigrationsTable (Pg.config p1)))
    by (exists rows; exact Ht).
  pose proof (Pg_SetVersion_succeeds p1 version true srv1
                ((Background, AdvisoryLock aid) :: tr) Hopen1 Ht1) as Hs1.
  fold w1 in Hs1.
  pose proof (Pg_SetVersion_outcome p1 version true w1) as Ho1.
  pose proof (Pg_SetVersion_faults p1 version true w1 eq_refl) as Hf1.
  destruct (Pg.SetVersion p1 version true w1) as [e1 wa] eqn:E1.
  cbn [fst snd] in Hs1, Hf1. subst e1. destruct Ho1 as (_ & _ & Hsrva).
  (* second SetVersion *)
  destruct wa as [srva fa tra]. cbn [Pg.faults Pg.server] in *. subst fa.
  assert (Hta : is_Some (Pg.tables srva !! Pg.MigrationsTable (Pg.config p1))).
  { rewrite Hsrva. cbn [Pg.tables Pg.set_tables]. rewrite lookup_insert_eq. eauto. }
  pose proof (Pg_SetVersion_succeeds p1 version false srva tra Hopen1 Hta) as Hs2.
  pose proof (Pg_SetVersion_outcome p1 version false
                {| Pg.server := srva; Pg.faults := []; Pg.trace := tra |}) as Ho2.
  pose proof (Pg_SetVersion_faults p1 version false
                {| Pg.server := srva; Pg.faults := []; Pg.trace := tra |} eq_refl) as Hf2.
  destruct (Pg.SetVersion p1 version false _) as [e2 wb] eqn:E2.
  cbn [fst snd] in Hs2, Hf2. subst e2. destruct Ho2 as (_ & _ & Hsrvb).
  cbn [Pg.server] in Hsrvb.
  assert (Htabb : Pg.tables (Pg.server wb)
                  = <[Pg.MigrationsTable (Pg.config p) := [(version, false)]]> (Pg.tables srv)).
  { rewrite Hsrvb, Hsrva, Hwt, Hwf. cbn [Pg.tables Pg.set_tables Pg.config p1 Pg.set_isLocked].
    unfold srv1. cbn [Pg.tables Pg.set_advisory]. now rewrite insert_insert_eq. }
  assert (Hadvb : Pg.advisory (Pg.server wb)
                  = <[aid := (Pg.session (Pg.conn p), 1%nat)]> (Pg.advisory srv)).
  { rewrite Hsrvb, Hsrva. reflexivity. }
  (* Version *)
  assert (Hread : fst (Pg.Version p1 wb) = (version, false, None)).
  { rewrite Pg_Version_read; [|exact Hopen1|now rewrite Hf2].
    match goal with |- match ?x with _ => _ end = _ =>
      assert (Hx : x = Some [(version, false)])
        by (rewrite Htabb; apply lookup_insert_eq);
      rewrite Hx end.
    reflexivity. }
  pose proof (Pg_Version_server p1 wb) as Hsrvc.
  pose proof (Pg_Version_faults p1 wb Hf2) as Hfc.
  (* Unlock *)
  set (wc := snd (Pg.Version p1 wb)) in *.
  assert (HU : Pg.Unlock p1 wc
               = (None, Pg.set_isLocked false p1,
                  Pg.set_server
                    (Pg.pg_advisory_unlock (Pg.session (Pg.conn p)) aid (Pg.server wc))
                    {| Pg.server := Pg.server wc; Pg.faults := tail (Pg.faults wc);
                       Pg.trace := (Background, AdvisoryUnlock aid) :: Pg.trace wc |})).
  { unfold Pg.Unlock, Pg.ExecContext, Pg.send.
    cbn [p1 Pg.isLocked Pg.set_isLocked Pg.config Pg.conn negb].
    unfold open in Hopen. rewrite Hid, Hopen, Hfc. reflexivity. }
  split.
  - cbn [Pg_run Pg_apply]. rewrite HL, E1, E2.
    destruct (Pg.Version p1 wb) as [[[v' d'] e'] wc'] eqn:EV.
    cbn [fst snd] in Hread. injection Hread as -> -> ->.
    unfold wc in HU. cbn [snd] in HU. rewrite HU. reflexivity.
  - eexists p1, w1, _, wb, _, _.
    split; [exact HL|]. split; [exact E1|]. split; [exact E2|].
    split; [exact Hread|]. split; [exact HU|].
    split; [reflexivity|]. split; [reflexivity|].
    cbn [Pg.server Pg.set_server].
    assert (Hheld : Pg.advisory (Pg.server wc) !! aid
                    = Some (Pg.session (Pg.conn p), 1%nat)).
    { rewrite Hsrvc, Hadvb. apply lookup_insert_eq. }
    split.
    + rewrite (unlock_single_hold _ _ _ Hheld), Hsrvc, Hadvb.
      now apply delete_insert_id.
    + rewrite (proj2 (acts_as_unlock _ _ _)), Hsrvc. exact Htabb.
Qed.

End Step.

(** Version 3 on a server that is ready. *)
Lemma migration_step_goes_through_witness :
  Pg_run (ext := Demo.externals)
    [OpLock; OpSetVersion 3 true; OpSetVersion 3 false; OpVersion; OpUnlock]
    Demo.pg_handle (Demo.pg_world Demo.ready_server [])
  = Some [Returned false; Returned false; Returned false; Got 3 false false;
          Returned false].
Proof.
  assert (H0 : 0 <= 3) by lia.
  destruct (migration_step_goes_through (ext := Demo.externals) Demo.pg_handle
              (Demo.pg_world Demo.ready_server []) 3 "public:app" [] H0)
    as [Hrun _];
    [reflexivity | reflexivity | reflexivity | reflexivity
    | vm_compute; reflexivity | vm_compute; reflexivity |].
  exact Hrun.
Defined.
